(** * JMAP webmail: the mail synchronisation core, embedded and verified

    A shallow embedding of the client-side core of the webmail client:

    - [src/lib/thread-utils.ts]: thread grouping and merging;
    - [src/stores/settings-store.ts]: export and import of the settings;
    - the JMAP protocol client (class [JMAPClient]);
    - the mail store (the zustand store [useEmailStore]).

    JavaScript objects used as dictionaries are finite maps ([gmap]), sets are
    [gset], insertion-ordered [Map]s are association lists, numbers that count
    things are [Z], [undefined]/[null] is [None].  Asynchronous functions are
    programs of a small free monad whose [Vis] nodes are the effects of the
    function; the suspension points of an [async] function are the nodes that
    [await] a call of the protocol client or a network request. *)

From Stdlib Require Import ZArith Ascii String List Bool Permutation Sorted Lia.
From stdpp Require Import gmap strings list fin_maps pretty.

#[local] Set Warnings "-register-all".

Local Open Scope string_scope.
Local Open Scope list_scope.
Local Open Scope Z_scope.

(** ** JavaScript values the code tests for truthiness *)

(** A string-or-undefined value is truthy when it is a non-empty string. *)
Definition truthy (o : option string) : bool :=
  match o with
  | Some s => negb (String.eqb s "")
  | None => false
  end.

(** [a || b] on an optional string with a string default. *)
Definition or_else (o : option string) (d : string) : string :=
  match o with
  | Some s => if String.eqb s "" then d else s
  | None => d
  end.

(** [a || undefined]: a falsy value is replaced by [undefined]. *)
Definition or_undefined (o : option string) : option string :=
  if truthy o then o else None.

(** [obj?.[key]] read as a condition, for a [Record<string, boolean>] that may
    be [undefined]: true exactly when the key is present with value [true]. *)
Definition flag (o : option (gmap string bool)) (key : string) : bool :=
  match o with
  | Some m => match m !! key with Some true => true | _ => false end
  | None => false
  end.

(** What a [throw] carries: an [Error] with its message, or any other value. *)
Inductive JsError : Type :=
| ErrorObj (message : string)
| Thrown.

(** [error instanceof Error ? error.message : fallback]. *)
Definition message_or (e : JsError) (fallback : string) : string :=
  match e with
  | ErrorObj m => m
  | Thrown => fallback
  end.

(** ** The data model ([src/lib/jmap/types.ts]) *)

Module EmailAddress.
Record t : Type := mk {
  name : option string;
  email : string
}.
End EmailAddress.

Module Email.
Record t : Type := mk {
  id : string;
  threadId : string;
  mailboxIds : option (gmap string bool);
  keywords : option (gmap string bool);
  size : Z;
  receivedAt : string;
  from : option (list EmailAddress.t);
  to : option (list EmailAddress.t);
  subject : option string;
  preview : option string;
  hasAttachment : bool
}.

(** [{ ...e, keywords: { ...e.keywords, [key]: value } }] *)
Definition with_keyword (key : string) (value : bool) (e : t) : t :=
  mk (id e) (threadId e) (mailboxIds e)
     (Some (<[key := value]> (default ∅ (keywords e))))
     (size e) (receivedAt e) (from e) (to e) (subject e) (preview e)
     (hasAttachment e).

(** [{ ...e, mailboxIds: m }], also the assignment [e.mailboxIds = m] *)
Definition with_mailboxIds (m : gmap string bool) (e : t) : t :=
  mk (id e) (threadId e) (Some m) (keywords e)
     (size e) (receivedAt e) (from e) (to e) (subject e) (preview e)
     (hasAttachment e).
End Email.

Module Mailbox.
Record t : Type := mk {
  id : string;
  originalId : option string;
  name : string;
  parentId : option string;
  role : option string;
  sortOrder : Z;
  totalEmails : Z;
  unreadEmails : Z;
  totalThreads : Z;
  unreadThreads : Z;
  myRights : gmap string bool;
  isSubscribed : bool;
  accountId : option string;
  accountName : option string;
  isShared : bool
}.

(** [{ ...mailbox, totalEmails: te, unreadEmails: ue, totalThreads: tt,
    unreadThreads: ut }] *)
Definition with_counters (te ue tt ut : Z) (m : t) : t :=
  mk (id m) (originalId m) (name m) (parentId m) (role m) (sortOrder m)
     te ue tt ut
     (myRights m) (isSubscribed m) (accountId m) (accountName m) (isShared m).
End Mailbox.

Module ThreadGroup.
Record t : Type := mk {
  threadId : string;
  emails : list Email.t;
  latestEmail : option Email.t;
  participantNames : list string;
  hasUnread : bool;
  hasStarred : bool;
  hasAttachment : bool;
  emailCount : nat
}.
End ThreadGroup.

(** ** Insertion-ordered maps (the JavaScript [Map])

    A [Map] iterates in the order in which its keys were first inserted, and
    [set] on a key that is present replaces the value where it stands. *)

Module JsMap.
Section Ops.
Context {V : Type}.

Fixpoint has (k : string) (m : list (string * V)) : bool :=
  match m with
  | [] => false
  | (k', _) :: r => if String.eqb k' k then true else has k r
  end.

Fixpoint get (k : string) (m : list (string * V)) : option V :=
  match m with
  | [] => None
  | (k', v) :: r => if String.eqb k' k then Some v else get k r
  end.

Fixpoint set (k : string) (v : V) (m : list (string * V)) : list (string * V) :=
  match m with
  | [] => [(k, v)]
  | (k', v') :: r =>
      if String.eqb k' k then (k', v) :: r else (k', v') :: set k v r
  end.

(** The value stored under [k] is changed where it is stored: what
    [map.get(k).push(x)] does to an array held by the map. *)
Fixpoint update (k : string) (f : V → V) (m : list (string * V)) : list (string * V) :=
  match m with
  | [] => []
  | (k', v') :: r =>
      if String.eqb k' k then (k', f v') :: r else (k', v') :: update k f r
  end.

Definition keys (m : list (string * V)) : list string := map fst m.
Definition values (m : list (string * V)) : list V := map snd m.
End Ops.
End JsMap.

(** ** Thread grouping ([src/lib/thread-utils.ts]) *)

Module ThreadUtils.
Section WithRuntime.

(** [new Date(s).getTime()]: the timestamp of a date string. *)
Variable getTime : string → Z.

(** [String.prototype.toLowerCase]. *)
Variable toLowerCase : string → string.

(** [s.split('@')[0]]: what stands before the first [@]. *)
Fixpoint before_at (s : string) : string :=
  match s with
  | EmptyString => EmptyString
  | String c r =>
      if Ascii.eqb c "@"%char then EmptyString else String c (before_at r)
  end.

(** [Array.prototype.sort] with the comparator
    [(a, b) => new Date(b.receivedAt).getTime() - new Date(a.receivedAt).getTime()].
    The sort is stable, so for this comparator its result is the one
    permutation that is descending in [getTime] and keeps the input order
    among equal timestamps; the insertion sort below computes it. *)
Fixpoint insert_desc (x : Email.t) (l : list Email.t) : list Email.t :=
  match l with
  | [] => [x]
  | y :: r =>
      if getTime (Email.receivedAt x) <? getTime (Email.receivedAt y)
      then y :: insert_desc x r
      else x :: y :: r
  end.

Definition sort_newest_first (l : list Email.t) : list Email.t :=
  foldr insert_desc [] l.

(** One round of the loop of [getThreadParticipants]: the sender of
    [email] is recorded unless its lowercased address was seen. *)
Definition participants_step (email : Email.t)
    (st : gset string * list string) : gset string * list string :=
  match Email.from email with
  | Some (sender :: _) =>
      let senderName :=
        or_else (EmailAddress.name sender)
                (before_at (EmailAddress.email sender)) in
      let key := toLowerCase (EmailAddress.email sender) in
      if decide (key ∈ st.1) then st
      else ({[key]} ∪ st.1, st.2 ++ [senderName])
  | _ => st
  end.

Fixpoint participants_loop (maxNames : nat) (emails : list Email.t)
    (st : gset string * list string) : list string :=
  match emails with
  | [] => st.2
  | email :: rest =>
      let st' := participants_step email st in
      if (maxNames <=? length st'.2)%nat then st'.2
      else participants_loop maxNames rest st'
  end.

Definition getThreadParticipants (emails : list Email.t) (maxNames : nat) : list string :=
  participants_loop maxNames emails (∅, []).

(** The fields of a [ThreadGroup] computed from its sorted emails; shared
    by [groupEmailsByThread] and [mergeThreadEmails]. *)
Definition makeGroup (threadId : string) (sortedEmails : list Email.t) : ThreadGroup.t :=
  ThreadGroup.mk threadId sortedEmails
    (head sortedEmails)
    (getThreadParticipants sortedEmails 4)
    (existsb (λ e, negb (flag (Email.keywords e) "$seen")) sortedEmails)
    (existsb (λ e, flag (Email.keywords e) "$flagged") sortedEmails)
    (existsb Email.hasAttachment sortedEmails)
    (length sortedEmails).

(** The body of the first loop of [groupEmailsByThread]. *)
Definition threadMap_add (threadMap : list (string * list Email.t)) (email : Email.t)
    : list (string * list Email.t) :=
  let threadId := Email.threadId email in
  let threadMap1 :=
    if JsMap.has threadId threadMap then threadMap
    else JsMap.set threadId [] threadMap in
  JsMap.update threadId (λ l, l ++ [email]) threadMap1.

Definition groupEmailsByThread (emails : list Email.t) : list ThreadGroup.t :=
  match emails with
  | [] => []
  | _ =>
      let threadMap := foldl threadMap_add [] emails in
      map (λ kv, makeGroup kv.1 (sort_newest_first kv.2)) threadMap
  end.




(** The two loops of [mergeThreadEmails] that fill [emailMap]. *)
Definition emailMap_existing (emailMap : list (string * Email.t)) (email : Email.t) :=
  JsMap.set (Email.id email) email emailMap.

Definition emailMap_fetched (emailMap : list (string * Email.t)) (email : Email.t) :=
  if JsMap.has (Email.id email) emailMap then emailMap
  else JsMap.set (Email.id email) email emailMap.

Definition mergeThreadEmails (existingGroup : ThreadGroup.t)
    (fetchedEmails : list Email.t) : ThreadGroup.t :=
  let emailMap0 := foldl emailMap_existing [] (ThreadGroup.emails existingGroup) in
  let emailMap := foldl emailMap_fetched emailMap0 fetchedEmails in
  let mergedEmails := sort_newest_first (JsMap.values emailMap) in
  makeGroup (ThreadGroup.threadId existingGroup) mergedEmails.
End WithRuntime.
End ThreadUtils.

(** ** Color tags ([getEmailColorTag], [getThreadColorTag])

    [Object.keys] lists the keys of a keywords object in their order of
    insertion, and the first color key wins: here a keywords object is the
    list of its entries in that order. *)

Module ThreadColors.

(** The rest of [s] after its first [n] characters. *)
Fixpoint skip (n : nat) (s : string) : string :=
  match n, s with
  | O, _ => s
  | S n', String _ r => skip n' r
  | S _, EmptyString => EmptyString
  end.

(** [s.replace(pattern, "")] for a string [pattern]: the first occurrence
    of [pattern] is cut out. *)
Fixpoint cut_first (pattern s : string) : string :=
  if String.prefix pattern s then skip (String.length pattern) s
  else
    match s with
    | EmptyString => EmptyString
    | String c r => String c (cut_first pattern r)
    end.

(** The loop of [getEmailColorTag] over [Object.keys(keywords)]. *)
Fixpoint colorTag_loop (keys : list string) (keywords : list (string * bool))
    : option string :=
  match keys with
  | [] => None
  | key :: rest =>
      if String.prefix "$color:" key
         && bool_decide (JsMap.get key keywords = Some true)
      then Some (cut_first "$color:" key)
      else colorTag_loop rest keywords
  end.

Definition getEmailColorTag (keywords : option (list (string * bool)))
    : option string :=
  match keywords with
  | None => None
  | Some keywords => colorTag_loop (JsMap.keys keywords) keywords
  end.

(** [getThreadColorTag] reads the keywords of each email; a color that is
    the empty string is falsy and passed over. *)
Fixpoint getThreadColorTag (emails : list (option (list (string * bool))))
    : option string :=
  match emails with
  | [] => None
  | keywords :: rest =>
      match getEmailColorTag keywords with
      | Some color =>
          if truthy (Some color) then Some color else getThreadColorTag rest
      | None => getThreadColorTag rest
      end
  end.
End ThreadColors.

(** ** Settings export and import ([src/stores/settings-store.ts]) *)

Module Settings.

(** JSON values: what [JSON.parse] returns and [JSON.stringify] prints.
    The numbers of the settings are integers (the interface sets them with
    [parseInt] of a menu value). *)
Inductive json : Type :=
| JNull
| JBool (b : bool)
| JNumber (n : Z)
| JString (s : string)
| JArray (l : list json)
| JObject (m : gmap string json).

(** The settings fields of the store's state, by name.  The actions of the
    store ([updateSetting], ...) are no part of the modelled state. *)
Definition DEFAULT_SETTINGS : gmap string json :=
  list_to_map [
    ("fontSize", JString "medium");
    ("listDensity", JString "regular");
    ("animationsEnabled", JBool true);
    ("dateFormat", JString "regional");
    ("timeFormat", JString "24h");
    ("firstDayOfWeek", JNumber 1);
    ("markAsReadDelay", JNumber 0);
    ("deleteAction", JString "trash");
    ("showPreview", JBool true);
    ("emailsPerPage", JNumber 50);
    ("externalContentPolicy", JString "ask");
    ("autoSaveDraftInterval", JNumber 60000);
    ("sendConfirmation", JBool false);
    ("defaultReplyMode", JString "reply");
    ("sessionTimeout", JNumber 0);
    ("debugMode", JBool false)
  ].

(** The keys that [exportSettings] writes, in the order of its object
    literal: the same sixteen names. *)
Definition exported_keys : list string :=
  [ "fontSize"; "listDensity"; "animationsEnabled"; "dateFormat";
    "timeFormat"; "firstDayOfWeek"; "markAsReadDelay"; "deleteAction";
    "showPreview"; "emailsPerPage"; "externalContentPolicy";
    "autoSaveDraftInterval"; "sendConfirmation"; "defaultReplyMode";
    "sessionTimeout"; "debugMode" ].

Section WithRuntime.

(** [JSON.parse] ([None]: it throws a [SyntaxError]) and
    [JSON.stringify(v, null, 2)]. *)
Variable JSON_parse : string → option json.
Variable JSON_stringify : json → string.

(** The names that [Object.prototype] makes visible to the [in] operator
    on a plain object ([toString], [constructor], ...). *)
Variable inherited : string → bool.

(** [key in DEFAULT_SETTINGS]: an own key or an inherited one. *)
Definition in_DEFAULT_SETTINGS (key : string) : bool :=
  bool_decide (key ∈ dom DEFAULT_SETTINGS) || inherited key.

(** [set({ [key]: value })] as far as the settings fields go: a key that
    is not one of them writes a property outside the modelled state. *)
Definition set_field (key : string) (value : json)
    (state : gmap string json) : gmap string json :=
  if bool_decide (key ∈ dom DEFAULT_SETTINGS) then <[key := value]> state
  else state.

(** The object literal of [exportSettings]; a field that is [undefined]
    in the state is a property that [JSON.stringify] leaves out. *)
Definition settingsObject (state : gmap string json) : gmap string json :=
  list_to_map
    (omap (λ key, (λ v, (key, v)) <$> state !! key) exported_keys).

Definition exportSettings (state : gmap string json) : string :=
  JSON_stringify (JObject (settingsObject state)).

(** The body of the [forEach] of [importSettings]. *)
Definition import_key (key : string) (value : json)
    (state : gmap string json) : gmap string json :=
  if in_DEFAULT_SETTINGS key then set_field key value state else state.

(** [importSettings] returns its boolean and the state it leaves.  The
    keys of an array are its indices; the functions that copy the font
    size, the density and the animation switch to the document change no
    state. *)
Definition importSettings (state : gmap string json) (text : string)
    : bool * gmap string json :=
  match JSON_parse text with
  | None => (false, state)
  | Some settings =>
      match settings with
      | JObject m => (true, map_fold import_key state m)
      | JArray l =>
          (true,
           foldl (λ st iv, import_key (pretty (iv.1 : nat)) iv.2 st) state
                 (imap (λ i v, (i, v)) l))
      | _ => (false, state)
      end
  end.
End WithRuntime.
End Settings.

(** *** The other actions of the settings store *)

Module SettingsActions.
Import Settings.

(** [updateSetting(key, value)]: [set({ [key]: value })]; the functions
    that copy the value to the document change no state. *)
Definition updateSetting (key : string) (value : json)
    (state : gmap string json) : gmap string json :=
  set_field key value state.

(** [resetToDefaults()]: [set(DEFAULT_SETTINGS)] writes each of its
    fields over the state. *)
Definition resetToDefaults (state : gmap string json) : gmap string json :=
  DEFAULT_SETTINGS ∪ state.
End SettingsActions.

(** ** Programs with effects

    An [async] function is a tree: it returns, throws, or performs an effect
    of the signature [E] and goes on with its answer.  [try_catch] is
    [try { ... } catch (error) { ... }]. *)

Module Prog.
Section Free.
Context {E : Type → Type}.

Inductive t (A : Type) : Type :=
| Ret (a : A)
| Throw (err : JsError)
| Vis {R : Type} (e : E R) (k : R → t A).

Arguments Ret {A} a.
Arguments Throw {A} err.
Arguments Vis {A R} e k.

Fixpoint bind {A B : Type} (m : t A) (f : A → t B) : t B :=
  match m with
  | Ret a => f a
  | Throw err => Throw err
  | Vis e k => Vis e (λ r, bind (k r) f)
  end.

Fixpoint try_catch {A : Type} (m : t A) (handler : JsError → t A) : t A :=
  match m with
  | Ret a => Ret a
  | Throw err => handler err
  | Vis e k => Vis e (λ r, try_catch (k r) handler)
  end.

(** An effect whose answer is a value or a rejection, awaited. *)
Definition await {R : Type} (e : E (R + JsError)) : t R :=
  Vis e (λ r, match r with inl v => Ret v | inr err => Throw err end).

(** An effect that cannot fail. *)
Definition perform {R : Type} (e : E R) : t R := Vis e Ret.
End Free.

Arguments t E A : clear implicits.
Arguments Ret {E A} a.
Arguments Throw {E A} err.
Arguments Vis {E A R} e k.
End Prog.

#[export] Instance prog_ret {E} : MRet (Prog.t E) := λ A, Prog.Ret.
#[export] Instance prog_bind {E} : MBind (Prog.t E) := λ A B f m, Prog.bind m f.

(** ** The protocol client (class [JMAPClient]) *)

Module Client.

(** *** What goes over the wire *)

Record JMAPAccount : Type := {
  account_name : option string
}.

Record JMAPMailbox : Type := {
  mb_id : string;
  mb_name : string;
  mb_parentId : option string;
  mb_role : option string;
  mb_totalEmails : option Z;
  mb_unreadEmails : option Z;
  mb_totalThreads : option Z;
  mb_unreadThreads : option Z;
  mb_sortOrder : option Z;
  mb_isSubscribed : option bool;
  mb_myRights : option (gmap string bool)
}.

Record Identity : Type := {
  identity_id : string;
  identity_email : string
}.

Record Thread : Type := {
  thread_id : string;
  emailIds : option (list string)
}.

(** An entry of a [notCreated]/[notUpdated] map. *)
Record SetError : Type := {
  description : option string;
  type : option string
}.

(** The result object of one method response.  On the wire [list] is one
    untyped property; the record holds it at each element type at which
    the client reads it.  [notCreated] and [notUpdated] keep the order of
    their entries, which [Object.values(errors)[0]] depends on. *)
Record MethodResult : Type := {
  list_mailboxes : option (list JMAPMailbox);
  list_emails : option (list Email.t);
  list_identities : option (list Identity);
  list_threads : option (list Thread);
  total : option Z;
  notCreated : option (list (string * SetError));
  notUpdated : option (list (string * SetError));
  created : option (gmap string string);
  error_description : option string;
  error_type : option string
}.

Record JMAPResponse : Type := {
  methodResponses : option (list (string * option MethodResult))
}.

(** The value of one entry of an [update] block. *)
Inductive EmailPatch : Type :=
| PatchKeyword (path : string) (value : bool)
| PatchKeywords (keywords : gmap string bool)
| PatchMailboxIds (mailboxIds : gmap string bool)
| PatchSend (sentMailboxId : string).

(** [ids: [...]] or the back-reference [#ids] to the query of the batch. *)
Inductive IdsArg : Type :=
| Ids (ids : list string)
| ResultOfQuery.

Record EmailDraft : Type := {
  draft_from : string;
  draft_to : list string;
  draft_cc : option (list string);
  draft_bcc : option (list string);
  draft_subject : string;
  draft_keywords : gmap string bool;
  draft_mailboxIds : gmap string bool;
  draft_body : string;
  draft_attachments : option (list (string * string * string))
}.

Inductive MethodCall : Type :=
| Mailbox_get (accountId : string)
| Email_query (accountId : string) (inMailbox : option string)
    (text : option string) (limit : Z) (position : option Z)
| Email_get (accountId : string) (ids : IdsArg) (full : bool)
| Thread_get (accountId : string) (ids : list string)
| Identity_get (accountId : string)
| Email_set_update (accountId : string) (update : list (string * EmailPatch))
| Email_set_destroy (accountId : string) (destroy : list string)
| Email_set_create (accountId : string) (creationId : string) (email : EmailDraft)
| EmailSubmission_set (accountId : string) (emailId identityId : string).

(** What [fetch] resolves to, with the body already read: [json] is
    [JSON.parse(responseText)], [None] when the text is no JSON. *)
Record HttpResponse : Type := {
  ok : bool;
  status : Z;
  responseText : string;
  json : option JMAPResponse
}.

(** The effects of the client: the HTTP POST of a batch, the clock, and
    the header normalisation and parsers of [src/lib/email-headers.ts],
    which fill fields of a full email that the model does not carry and
    may throw. *)
Inductive netE : Type → Type :=
| Fetch (url : string) (methodCalls : list MethodCall)
    : netE (HttpResponse + JsError)
| DateNow : netE Z
| ParseHeaders (email : Email.t) : netE (unit + JsError).

(** The fields of the client object that the modelled methods read;
    [accounts] keeps the order of the session's account map. *)
Record JMAPClient : Type := {
  username : string;
  apiUrl : string;
  accountId : string;
  accounts : list (string * JMAPAccount)
}.

Abbreviation prog := (Prog.t netE).

(** The [TypeError] of a property read on [undefined]. *)
Definition TypeError : JsError := ErrorObj "TypeError".

Record EmailsResult : Type := {
  emails : list Email.t;
  hasMore : bool;
  res_total : Z
}.

Definition default_rights : gmap string bool :=
  list_to_map [
    ("mayReadItems", true); ("mayAddItems", true); ("mayRemoveItems", true);
    ("maySetSeen", true); ("maySetKeywords", true); ("mayCreateChild", true);
    ("mayRename", true); ("mayDelete", true); ("maySubmit", true)
  ].

(** [response.methodResponses?.[i]] *)
Definition method_at (response : JMAPResponse) (i : nat)
    : option (string * option MethodResult) :=
  methodResponses response ≫= (λ l, l !! i).

(** [response.methodResponses?.[i]?.[0] === name] *)
Definition method_is (response : JMAPResponse) (i : nat) (name : string) : bool :=
  match method_at response i with
  | Some (n, _) => String.eqb n name
  | None => false
  end.

(** [response.methodResponses[i][1]] once [method_is] holds. *)
Definition result_at (response : JMAPResponse) (i : nat) : option MethodResult :=
  method_at response i ≫= snd.

Section WithRuntime.
Variable getTime : string → Z.

(** *** [request] *)
Definition request (client : JMAPClient) (methodCalls : list MethodCall)
    : prog JMAPResponse :=
  if String.eqb (apiUrl client) "" then
    Prog.Throw (ErrorObj "Not connected. Call connect() first.")
  else
    response ← Prog.await (Fetch (apiUrl client) methodCalls);
    if negb (ok response) then
      Prog.Throw (ErrorObj ("Request failed: " +:+ pretty (status response)
                            +:+ " - " +:+ substring 0 200 (responseText response)))
    else
      match json response with
      | None => Prog.Throw (ErrorObj "Invalid JSON response from server")
      | Some data => Prog.Ret data
      end.

(** *** [getMailboxes] and [getAllMailboxes] *)

(** The mailbox object built by the [map] of [getAllMailboxes]. *)
Definition toMailbox (client : JMAPClient) (accountId : string)
    (account : option JMAPAccount) (mb : JMAPMailbox) : Mailbox.t :=
  let isPrimary := String.eqb accountId (Client.accountId client) in
  Mailbox.mk
    (if isPrimary then mb_id mb else accountId +:+ ":" +:+ mb_id mb)
    (Some (mb_id mb))
    (mb_name mb)
    (match mb_parentId mb with
     | Some p =>
         if truthy (Some p)
         then Some (if isPrimary then p else accountId +:+ ":" +:+ p)
         else None
     | None => None
     end)
    (or_undefined (mb_role mb))
    (default 0 (mb_sortOrder mb))
    (default 0 (mb_totalEmails mb))
    (default 0 (mb_unreadEmails mb))
    (default 0 (mb_totalThreads mb))
    (default 0 (mb_unreadThreads mb))
    (default default_rights (mb_myRights mb))
    (default true (mb_isSubscribed mb))
    (Some accountId)
    (Some (or_else (account ≫= account_name)
                   (if isPrimary then username client else accountId)))
    (negb isPrimary).

(** The mailbox object built by the [map] of [getMailboxes]. *)
Definition toPrimaryMailbox (client : JMAPClient) (mb : JMAPMailbox) : Mailbox.t :=
  Mailbox.mk
    (mb_id mb)
    None
    (mb_name mb)
    (or_undefined (mb_parentId mb))
    (or_undefined (mb_role mb))
    (default 0 (mb_sortOrder mb))
    (default 0 (mb_totalEmails mb))
    (default 0 (mb_unreadEmails mb))
    (default 0 (mb_totalThreads mb))
    (default 0 (mb_unreadThreads mb))
    (default default_rights (mb_myRights mb))
    (default true (mb_isSubscribed mb))
    (Some (accountId client))
    (Some (or_else (JsMap.get (accountId client) (accounts client) ≫= account_name)
                   (username client)))
    false.

(** The inbox that [getMailboxes] makes up when its request fails. *)
Definition fallbackInbox (client : JMAPClient) : Mailbox.t :=
  Mailbox.mk "INBOX" None "Inbox" None (Some "inbox") 0 0 0 0 0
    default_rights true (Some (accountId client)) (Some (username client)) false.

Definition getMailboxes (client : JMAPClient) : prog (list Mailbox.t) :=
  Prog.try_catch
    (response ← request client [Mailbox_get (accountId client)];
     if method_is response 0 "Mailbox/get" then
       match result_at response 0 with
       | None => Prog.Throw TypeError
       | Some result =>
           Prog.Ret (map (toPrimaryMailbox client)
                         (default [] (list_mailboxes result)))
       end
     else Prog.Throw (ErrorObj "Unexpected response format"))
    (λ _, Prog.Ret [fallbackInbox client]).

(** The [for] loop of [getAllMailboxes]; [allMailboxes] is the array it
    pushes to.  A failure inside one round is caught in that round. *)
Fixpoint getAllMailboxes_loop (client : JMAPClient)
    (accountIds : list (string * JMAPAccount)) (allMailboxes : list Mailbox.t)
    : prog (list Mailbox.t) :=
  match accountIds with
  | [] => Prog.Ret allMailboxes
  | (accountId, account) :: rest =>
      allMailboxes' ←
        Prog.try_catch
          (response ← request client [Mailbox_get accountId];
           if method_is response 0 "Mailbox/get" then
             match result_at response 0 with
             | None => Prog.Throw TypeError
             | Some result =>
                 Prog.Ret (allMailboxes ++
                           map (toMailbox client accountId (Some account))
                               (default [] (list_mailboxes result)))
             end
           else Prog.Ret allMailboxes)
          (λ _, Prog.Ret allMailboxes);
      getAllMailboxes_loop client rest allMailboxes'
  end.

Definition getAllMailboxes (client : JMAPClient) : prog (list Mailbox.t) :=
  Prog.try_catch
    (match accounts client with
     | [] => getMailboxes client
     | accountIds => getAllMailboxes_loop client accountIds []
     end)
    (λ _, getMailboxes client).

(** *** Reading emails *)

(** The rewriting of the keys of [email.mailboxIds] for a shared account:
    the [forEach] over [Object.keys] that fills [namespacedMailboxIds]. *)
Definition namespaceMailboxIds (accountId : string) (mailboxIds : gmap string bool)
    : gmap string bool :=
  map_fold (λ mbId v namespacedMailboxIds,
              <[accountId +:+ ":" +:+ mbId := v]> namespacedMailboxIds)
           ∅ mailboxIds.

Definition namespaceEmail (accountId : string) (email : Email.t) : Email.t :=
  match Email.mailboxIds email with
  | Some mailboxIds =>
      Email.with_mailboxIds (namespaceMailboxIds accountId mailboxIds) email
  | None => email
  end.

(** [accountId && accountId !== this.accountId] *)
Definition isSharedAccount (client : JMAPClient) (accountId : option string) : bool :=
  truthy accountId && negb (String.eqb (default "" accountId) (Client.accountId client)).

Definition emptyResult : EmailsResult :=
  {| emails := []; hasMore := false; res_total := 0 |}.

(** What [getEmails] makes of a response. *)
Definition getEmails_result (client : JMAPClient) (accountId : option string)
    (limit position : Z) (response : JMAPResponse) : EmailsResult :=
  let queryResponse := result_at response 0 in
  let getResponse := result_at response 1 in
  match method_is response 1 "Email/get", getResponse with
  | true, Some getResponse =>
      let emails := default [] (list_emails getResponse) in
      let total :=
        match queryResponse ≫= total with
        | Some n => n
        | None => 0
        end in
      let hasMore :=
        if 0 <? total then position + Z.of_nat (length emails) <? total
        else Z.of_nat (length emails) =? limit in
      let emails :=
        if isSharedAccount client accountId
        then map (namespaceEmail (default "" accountId)) emails
        else emails in
      {| emails := emails; hasMore := hasMore; res_total := total |}
  | _, _ => emptyResult
  end.

Definition getEmails (client : JMAPClient) (mailboxId accountId : option string)
    (limit position : Z) : prog EmailsResult :=
  Prog.try_catch
    (let targetAccountId := or_else accountId (Client.accountId client) in
     let filter := or_undefined mailboxId in
     response ← request client [
       Email_query targetAccountId filter None limit (Some position);
       Email_get targetAccountId ResultOfQuery false ];
     Prog.Ret (getEmails_result client accountId limit position response))
    (λ _, Prog.Ret emptyResult).

Definition getEmail (client : JMAPClient) (emailId : string)
    (accountId : option string) : prog (option Email.t) :=
  Prog.try_catch
    (let targetAccountId := or_else accountId (Client.accountId client) in
     response ← request client [Email_get targetAccountId (Ids [emailId]) true];
     if method_is response 0 "Email/get" then
       match result_at response 0 with
       | None => Prog.Throw TypeError
       | Some result =>
           match default [] (list_emails result) with
           | email :: _ =>
               let email :=
                 if isSharedAccount client accountId
                 then namespaceEmail (default "" accountId) email
                 else email in
               Prog.await (ParseHeaders email);;
               Prog.Ret (Some email)
           | [] => Prog.Ret None
           end
       end
     else Prog.Ret None)
    (λ _, Prog.Ret None).

Definition getThread (client : JMAPClient) (threadId : string)
    (accountId : option string) : prog (option Thread) :=
  Prog.try_catch
    (let targetAccountId := or_else accountId (Client.accountId client) in
     response ← request client [Thread_get targetAccountId [threadId]];
     if method_is response 0 "Thread/get" then
       match result_at response 0 with
       | None => Prog.Throw TypeError
       | Some result => Prog.Ret (head (default [] (list_threads result)))
       end
     else Prog.Ret None)
    (λ _, Prog.Ret None).

Definition getThreadEmails (client : JMAPClient) (threadId : string)
    (accountId : option string) : prog (list Email.t) :=
  Prog.try_catch
    (let targetAccountId := or_else accountId (Client.accountId client) in
     thread ← getThread client threadId accountId;
     match thread ≫= emailIds with
     | None | Some [] => Prog.Ret []
     | Some ids =>
         response ← request client [Email_get targetAccountId (Ids ids) false];
         if method_is response 0 "Email/get" then
           match result_at response 0 with
           | None => Prog.Throw TypeError
           | Some result =>
               let emails := default [] (list_emails result) in
               let emails :=
                 if isSharedAccount client accountId
                 then map (namespaceEmail (default "" accountId)) emails
                 else emails in
               Prog.Ret (ThreadUtils.sort_newest_first getTime emails)
           end
         else Prog.Ret []
     end)
    (λ _, Prog.Ret []).

(** *** Mutations that do not read the response *)

Definition markAsRead (client : JMAPClient) (emailId : string) (read : bool)
    (accountId : option string) : prog unit :=
  let targetAccountId := or_else accountId (Client.accountId client) in
  request client [
    Email_set_update targetAccountId [(emailId, PatchKeyword "keywords/$seen" read)] ];;
  Prog.Ret tt.

(** The object [updates] that a [forEach] over the ids fills. *)
Definition updates_of (emailIds : list string) (patch : EmailPatch)
    : list (string * EmailPatch) :=
  foldl (λ updates id, JsMap.set id patch updates) [] emailIds.

Definition batchMarkAsRead (client : JMAPClient) (emailIds : list string)
    (read : bool) : prog unit :=
  match emailIds with
  | [] => Prog.Ret tt
  | _ =>
      request client [
        Email_set_update (accountId client)
          (updates_of emailIds (PatchKeyword "keywords/$seen" read)) ];;
      Prog.Ret tt
  end.

Definition toggleStar (client : JMAPClient) (emailId : string) (starred : bool)
    : prog unit :=
  request client [
    Email_set_update (accountId client)
      [(emailId, PatchKeyword "keywords/$flagged" starred)] ];;
  Prog.Ret tt.


Definition deleteEmail (client : JMAPClient) (emailId : string) : prog unit :=
  request client [ Email_set_destroy (accountId client) [emailId] ];;
  Prog.Ret tt.

Definition moveToTrash (client : JMAPClient) (emailId trashMailboxId : string)
    (accountId : option string) : prog unit :=
  let targetAccountId := or_else accountId (Client.accountId client) in
  request client [
    Email_set_update targetAccountId
      [(emailId, PatchMailboxIds {[trashMailboxId := true]})] ];;
  Prog.Ret tt.

Definition batchDeleteEmails (client : JMAPClient) (emailIds : list string)
    : prog unit :=
  match emailIds with
  | [] => Prog.Ret tt
  | _ =>
      request client [ Email_set_destroy (accountId client) emailIds ];;
      Prog.Ret tt
  end.

Definition batchMoveEmails (client : JMAPClient) (emailIds : list string)
    (toMailboxId : string) : prog unit :=
  match emailIds with
  | [] => Prog.Ret tt
  | _ =>
      request client [
        Email_set_update (accountId client)
          (updates_of emailIds (PatchMailboxIds {[toMailboxId := true]})) ];;
      Prog.Ret tt
  end.

Definition moveEmail (client : JMAPClient) (emailId toMailboxId : string)
    : prog unit :=
  request client [
    Email_set_update (accountId client)
      [(emailId, PatchMailboxIds {[toMailboxId := true]})] ];;
  Prog.Ret tt.

(** *** Mutations that read the response: [createDraft] and [sendEmail] *)

(** [result.notCreated || result.notUpdated] *)
Definition set_errors (result : MethodResult) : option (list (string * SetError)) :=
  match notCreated result with
  | Some errors => Some errors
  | None => notUpdated result
  end.

(** [firstError?.description || firstError?.type || fallback] for
    [firstError = Object.values(errors)[0]]. *)
Definition first_error_message (errors : list (string * SetError))
    (fallback : string) : string :=
  let firstError := snd <$> head errors in
  or_else (firstError ≫= description)
          (or_else (firstError ≫= type) fallback).

(** What [createDraft] makes of the response to its batch. *)
Definition createDraft_result (draftId : option string) (emailId : string)
    (response : JMAPResponse) : prog string :=
  let responseIndex := if truthy draftId then 1%nat else 0%nat in
  let failed := Prog.Throw (ErrorObj "Failed to save draft") in
  if method_is response responseIndex "Email/set" then
    match result_at response responseIndex with
    | None => Prog.Throw TypeError
    | Some result =>
        match set_errors result with
        | Some errors =>
            Prog.Throw (ErrorObj (first_error_message errors "Failed to save draft"))
        | None =>
            match created result ≫= (λ c, c !! emailId) with
            | Some newId => Prog.Ret newId
            | None => failed
            end
        end
    end
  else failed.

(** The object [emailData] of [createDraft]. *)
Definition createDraft_email (client : JMAPClient) (to : list string)
    (subject body : string) (cc bcc : option (list string))
    (attachments : option (list (string * string * string)))
    (draftsMailbox : Mailbox.t) : EmailDraft :=
  {| draft_from := username client;
     draft_to := to;
     draft_cc := cc;
     draft_bcc := bcc;
     draft_subject := subject;
     draft_keywords := {["$draft" := true]};
     draft_mailboxIds := {[Mailbox.id draftsMailbox := true]};
     draft_body := body;
     draft_attachments :=
       match attachments with
       | Some (a :: l) => Some (a :: l)
       | _ => None
       end |}.

(** The batch of [createDraft]: an existing draft is destroyed first. *)
Definition createDraft_calls (client : JMAPClient) (draftId : option string)
    (emailId : string) (emailData : EmailDraft) : list MethodCall :=
  if truthy draftId
  then [ Email_set_destroy (accountId client) [default "" draftId];
         Email_set_create (accountId client) emailId emailData ]
  else [ Email_set_create (accountId client) emailId emailData ].

Definition createDraft (client : JMAPClient) (to : list string)
    (subject body : string) (cc bcc : option (list string))
    (draftId : option string)
    (attachments : option (list (string * string * string))) : prog string :=
  mailboxes ← getMailboxes client;
  match find (λ mb, bool_decide (Mailbox.role mb = Some "drafts")) mailboxes with
  | None => Prog.Throw (ErrorObj "No drafts mailbox found")
  | Some draftsMailbox =>
      now ← Prog.perform DateNow;
      let emailId := "draft-" +:+ pretty now in
      let emailData :=
        createDraft_email client to subject body cc bcc attachments draftsMailbox in
      response ← request client (createDraft_calls client draftId emailId emailData);
      createDraft_result draftId emailId response
  end.

(** [s.endsWith(suffix)] *)
Definition endsWith (s suffix : string) : bool :=
  let n := String.length s in
  let m := String.length suffix in
  (m <=? n)%nat && String.eqb (substring (n - m) m s) suffix.

(** The loop of [sendEmail] over the method responses: it throws at the
    first response that is an error or carries an error map. *)
Fixpoint sendEmail_check (responses : list (string * option MethodResult))
    : prog unit :=
  match responses with
  | [] => Prog.Ret tt
  | (methodName, result) :: rest =>
      match result with
      | None =>
          (* a property of [undefined] is read in either branch *)
          Prog.Throw TypeError
      | Some result =>
          if endsWith methodName "/error" then
            Prog.Throw (ErrorObj
              (or_else (error_description result)
                       ("Failed to send email: "
                        +:+ default "undefined" (error_type result))))
          else
            match set_errors result with
            | Some errors =>
                Prog.Throw (ErrorObj (first_error_message errors "Failed to send email"))
            | None => sendEmail_check rest
            end
      end
  end.

Definition sendEmail_result (response : JMAPResponse) : prog unit :=
  match methodResponses response with
  | Some responses => sendEmail_check responses
  | None => Prog.Ret tt
  end.

(** The identity that [sendEmail] submits with: the one of the user
    name, else the first, else the account id. *)
Definition sendEmail_identity (client : JMAPClient)
    (identityResponse : JMAPResponse) : prog string :=
  if method_is identityResponse 0 "Identity/get" then
    match result_at identityResponse 0 with
    | None => Prog.Throw TypeError
    | Some result =>
        match default [] (list_identities result) with
        | first :: others =>
            match find (λ i, String.eqb (identity_email i) (username client))
                       (first :: others) with
            | Some matchingIdentity =>
                Prog.Ret (or_else (Some (identity_id matchingIdentity))
                                  (identity_id first))
            | None => Prog.Ret (identity_id first)
            end
        | [] => Prog.Ret (accountId client)
        end
    end
  else Prog.Ret (accountId client).

(** The batch of [sendEmail]: a draft is updated and submitted, a new
    email is created and submitted by back-reference. *)
Definition sendEmail_calls (client : JMAPClient) (to : list string)
    (subject body : string) (cc bcc : option (list string))
    (draftId : option string) (emailId identityId : string)
    (sentMailbox : Mailbox.t) : list MethodCall :=
  if truthy draftId then
    [ Email_set_update (accountId client)
        [(emailId, PatchSend (Mailbox.id sentMailbox))];
      EmailSubmission_set (accountId client) emailId identityId ]
  else
    [ Email_set_create (accountId client) emailId {|
        draft_from := username client;
        draft_to := to;
        draft_cc := cc;
        draft_bcc := bcc;
        draft_subject := subject;
        draft_keywords := {["$seen" := true]};
        draft_mailboxIds := {[Mailbox.id sentMailbox := true]};
        draft_body := body;
        draft_attachments := None |};
      EmailSubmission_set (accountId client) ("#" +:+ emailId) identityId ].

Definition sendEmail (client : JMAPClient) (to : list string)
    (subject body : string) (cc bcc : option (list string))
    (draftId : option string) : prog unit :=
  emailId ←
    (if truthy draftId then Prog.Ret (default "" draftId)
     else now ← Prog.perform DateNow; Prog.Ret ("draft-" +:+ pretty now));
  mailboxes ← getMailboxes client;
  match find (λ mb, bool_decide (Mailbox.role mb = Some "sent")) mailboxes with
  | None => Prog.Throw (ErrorObj "No sent mailbox found")
  | Some sentMailbox =>
      identityResponse ← request client [Identity_get (accountId client)];
      identityId ← sendEmail_identity client identityResponse;
      response ← request client
        (sendEmail_calls client to subject body cc bcc draftId emailId
           identityId sentMailbox);
      sendEmail_result response
  end.
End WithRuntime.

(** *** Running a client method against the network *)

(** The network and the runtime as the client meets them: what the [n]-th
    [fetch] of a method resolves to, the clock, and the outcome of the
    header parsers. *)
Record Network : Type := {
  fetch : nat → string → list MethodCall → HttpResponse + JsError;
  clock : Z;
  parseHeaders : Email.t → unit + JsError
}.

(** The run of a client method to its end; [n] counts its requests. *)
Fixpoint run {A : Type} (net : Network) (p : prog A) (n : nat) : (A + JsError) * nat :=
  match p with
  | Prog.Ret a => (inl a, n)
  | Prog.Throw err => (inr err, n)
  | Prog.Vis e k =>
      match e in netE R return (R → prog A) → (A + JsError) * nat with
      | Fetch url methodCalls => λ k, run net (k (fetch net n url methodCalls)) (S n)
      | DateNow => λ k, run net (k (clock net)) n
      | ParseHeaders email => λ k, run net (k (parseHeaders net email)) n
      end k
  end.
End Client.

(** *** [searchEmails] *)

Module ClientSearch.
Import Client.

Definition searchEmails (client : JMAPClient) (query : string) (limit : Z)
    : prog (list Email.t) :=
  Prog.try_catch
    (response ← request client [
       Email_query (accountId client) None (Some query) limit None;
       Email_get (accountId client) ResultOfQuery false ];
     if method_is response 1 "Email/get" then
       match result_at response 1 with
       | None => Prog.Throw TypeError
       | Some result => Prog.Ret (default [] (list_emails result))
       end
     else Prog.Ret [])
    (λ _, Prog.Ret []).
End ClientSearch.

(** ** The mail store ([useEmailStore]) *)

Module Store.
Inductive DeleteAction : Type := trash | permanent.

(** The two user preferences that the store reads with
    [useSettingsStore.getState()], at their declared types. *)
Record SettingsView : Type := {
  deleteAction : DeleteAction;
  emailsPerPage : Z
}.

(** The fields of one account of a [StateChange], and the descriptor. *)
Record AccountChanges : Type := {
  change_Email : option string;
  change_Mailbox : option string;
  change_Thread : option string
}.

Record StateChange : Type := {
  changed : gmap string AccountChanges
}.

(** The data fields of the store.  The order of a JavaScript [Set] is not
    kept: it only decides the order of the ids in a batch request. *)
Record EmailStore : Type := mkStore {
  emails : list Email.t;
  mailboxes : list Mailbox.t;
  selectedEmail : option Email.t;
  selectedMailbox : string;
  isLoading : bool;
  isLoadingEmail : bool;
  isLoadingMore : bool;
  error : option string;
  searchQuery : string;
  quota : option (Z * Z);
  processingReadStatus : gset string;
  selectedEmailIds : gset string;
  hasMoreEmails : bool;
  totalEmails : Z;
  isPushConnected : bool;
  lastPushUpdate : option Z;
  newEmailNotification : option Email.t;
  expandedThreadIds : gset string;
  threadEmailsCache : gmap string (list Email.t);
  isLoadingThread : option string
}.

Definition initial : EmailStore :=
  mkStore [] [] None "" false false false None "" None ∅ ∅ false 0 false
          None None ∅ ∅ None.

(** The updates [set({ field: v })], one field at a time. *)
Definition set_emails (v : list Email.t) (st : EmailStore) : EmailStore :=
  mkStore v (mailboxes st) (selectedEmail st) (selectedMailbox st)
    (isLoading st) (isLoadingEmail st) (isLoadingMore st) (error st)
    (searchQuery st) (quota st) (processingReadStatus st)
    (selectedEmailIds st) (hasMoreEmails st) (totalEmails st)
    (isPushConnected st) (lastPushUpdate st) (newEmailNotification st)
    (expandedThreadIds st) (threadEmailsCache st) (isLoadingThread st).

Definition set_mailboxes (v : list Mailbox.t) (st : EmailStore) : EmailStore :=
  mkStore (emails st) v (selectedEmail st) (selectedMailbox st) (isLoading
    st) (isLoadingEmail st) (isLoadingMore st) (error st) (searchQuery st)
    (quota st) (processingReadStatus st) (selectedEmailIds st)
    (hasMoreEmails st) (totalEmails st) (isPushConnected st)
    (lastPushUpdate st) (newEmailNotification st) (expandedThreadIds st)
    (threadEmailsCache st) (isLoadingThread st).

Definition set_selectedEmail (v : option Email.t) (st : EmailStore) : EmailStore :=
  mkStore (emails st) (mailboxes st) v (selectedMailbox st) (isLoading st)
    (isLoadingEmail st) (isLoadingMore st) (error st) (searchQuery st)
    (quota st) (processingReadStatus st) (selectedEmailIds st)
    (hasMoreEmails st) (totalEmails st) (isPushConnected st)
    (lastPushUpdate st) (newEmailNotification st) (expandedThreadIds st)
    (threadEmailsCache st) (isLoadingThread st).

Definition set_selectedMailbox (v : string) (st : EmailStore) : EmailStore :=
  mkStore (emails st) (mailboxes st) (selectedEmail st) v (isLoading st)
    (isLoadingEmail st) (isLoadingMore st) (error st) (searchQuery st)
    (quota st) (processingReadStatus st) (selectedEmailIds st)
    (hasMoreEmails st) (totalEmails st) (isPushConnected st)
    (lastPushUpdate st) (newEmailNotification st) (expandedThreadIds st)
    (threadEmailsCache st) (isLoadingThread st).

Definition set_isLoading (v : bool) (st : EmailStore) : EmailStore :=
  mkStore (emails st) (mailboxes st) (selectedEmail st) (selectedMailbox
    st) v (isLoadingEmail st) (isLoadingMore st) (error st) (searchQuery
    st) (quota st) (processingReadStatus st) (selectedEmailIds st)
    (hasMoreEmails st) (totalEmails st) (isPushConnected st)
    (lastPushUpdate st) (newEmailNotification st) (expandedThreadIds st)
    (threadEmailsCache st) (isLoadingThread st).

Definition set_error (v : option string) (st : EmailStore) : EmailStore :=
  mkStore (emails st) (mailboxes st) (selectedEmail st) (selectedMailbox
    st) (isLoading st) (isLoadingEmail st) (isLoadingMore st) v
    (searchQuery st) (quota st) (processingReadStatus st)
    (selectedEmailIds st) (hasMoreEmails st) (totalEmails st)
    (isPushConnected st) (lastPushUpdate st) (newEmailNotification st)
    (expandedThreadIds st) (threadEmailsCache st) (isLoadingThread st).

Definition set_processingReadStatus (v : gset string) (st : EmailStore) : EmailStore :=
  mkStore (emails st) (mailboxes st) (selectedEmail st) (selectedMailbox
    st) (isLoading st) (isLoadingEmail st) (isLoadingMore st) (error st)
    (searchQuery st) (quota st) v (selectedEmailIds st) (hasMoreEmails st)
    (totalEmails st) (isPushConnected st) (lastPushUpdate st)
    (newEmailNotification st) (expandedThreadIds st) (threadEmailsCache
    st) (isLoadingThread st).

Definition set_selectedEmailIds (v : gset string) (st : EmailStore) : EmailStore :=
  mkStore (emails st) (mailboxes st) (selectedEmail st) (selectedMailbox
    st) (isLoading st) (isLoadingEmail st) (isLoadingMore st) (error st)
    (searchQuery st) (quota st) (processingReadStatus st) v (hasMoreEmails
    st) (totalEmails st) (isPushConnected st) (lastPushUpdate st)
    (newEmailNotification st) (expandedThreadIds st) (threadEmailsCache
    st) (isLoadingThread st).

Definition set_hasMoreEmails (v : bool) (st : EmailStore) : EmailStore :=
  mkStore (emails st) (mailboxes st) (selectedEmail st) (selectedMailbox
    st) (isLoading st) (isLoadingEmail st) (isLoadingMore st) (error st)
    (searchQuery st) (quota st) (processingReadStatus st)
    (selectedEmailIds st) v (totalEmails st) (isPushConnected st)
    (lastPushUpdate st) (newEmailNotification st) (expandedThreadIds st)
    (threadEmailsCache st) (isLoadingThread st).

Definition set_totalEmails (v : Z) (st : EmailStore) : EmailStore :=
  mkStore (emails st) (mailboxes st) (selectedEmail st) (selectedMailbox
    st) (isLoading st) (isLoadingEmail st) (isLoadingMore st) (error st)
    (searchQuery st) (quota st) (processingReadStatus st)
    (selectedEmailIds st) (hasMoreEmails st) v (isPushConnected st)
    (lastPushUpdate st) (newEmailNotification st) (expandedThreadIds st)
    (threadEmailsCache st) (isLoadingThread st).

Definition set_lastPushUpdate (v : option Z) (st : EmailStore) : EmailStore :=
  mkStore (emails st) (mailboxes st) (selectedEmail st) (selectedMailbox
    st) (isLoading st) (isLoadingEmail st) (isLoadingMore st) (error st)
    (searchQuery st) (quota st) (processingReadStatus st)
    (selectedEmailIds st) (hasMoreEmails st) (totalEmails st)
    (isPushConnected st) v (newEmailNotification st) (expandedThreadIds
    st) (threadEmailsCache st) (isLoadingThread st).

Definition set_newEmailNotification (v : option Email.t) (st : EmailStore) : EmailStore :=
  mkStore (emails st) (mailboxes st) (selectedEmail st) (selectedMailbox
    st) (isLoading st) (isLoadingEmail st) (isLoadingMore st) (error st)
    (searchQuery st) (quota st) (processingReadStatus st)
    (selectedEmailIds st) (hasMoreEmails st) (totalEmails st)
    (isPushConnected st) (lastPushUpdate st) v (expandedThreadIds st)
    (threadEmailsCache st) (isLoadingThread st).

(** The methods of the protocol client that the store awaits. *)
Inductive ClientCall : Type → Type :=
| GetAllMailboxes : ClientCall (list Mailbox.t)
| GetEmails (mailboxId accountId : option string) (limit position : Z)
    : ClientCall Client.EmailsResult
| MarkAsRead (emailId : string) (read : bool) (accountId : option string)
    : ClientCall unit
| ToggleStar (emailId : string) (starred : bool) : ClientCall unit
| DeleteEmail (emailId : string) : ClientCall unit
| MoveToTrash (emailId trashMailboxId : string) (accountId : option string)
    : ClientCall unit
| MoveEmail (emailId toMailboxId : string) : ClientCall unit
| BatchMarkAsRead (emailIds : list string) (read : bool) : ClientCall unit
| BatchDeleteEmails (emailIds : list string) : ClientCall unit
| BatchMoveEmails (emailIds : list string) (toMailboxId : string) : ClientCall unit.

(** The effects of a store operation: [get()], [set(...)], the settings
    store, the clock, and the call of a client method, which is awaited:
    there the operation is suspended until the call resolves or rejects. *)
Inductive storeE : Type → Type :=
| GetState : storeE EmailStore
| SetState (update : EmailStore → EmailStore) : storeE unit
| GetSettings : storeE SettingsView
| Now : storeE Z
| Call {R : Type} (client : Client.JMAPClient) (call : ClientCall R)
    : storeE (R + JsError).

Abbreviation prog := (Prog.t storeE).

Definition get : prog EmailStore := Prog.perform GetState.
Definition set (update : EmailStore → EmailStore) : prog unit :=
  Prog.perform (SetState update).
Definition call {R : Type} (client : Client.JMAPClient) (c : ClientCall R) : prog R :=
  Prog.await (Call client c).

(** *** Helpers that the operations repeat *)

(** [emails.find(e => e.id === emailId)] *)
Definition find_email (emailId : string) (emails : list Email.t) : option Email.t :=
  find (λ e, String.eqb (Email.id e) emailId) emails.

(** [mailboxes.find(mb => mb.id === mailboxId)] *)
Definition find_mailbox (mailboxId : string) (mailboxes : list Mailbox.t)
    : option Mailbox.t :=
  find (λ mb, String.eqb (Mailbox.id mb) mailboxId) mailboxes.

(** [mailbox?.isShared ? mailbox.accountId : undefined] *)
Definition shared_accountId (mailbox : option Mailbox.t) : option string :=
  match mailbox with
  | Some mb => if Mailbox.isShared mb then Mailbox.accountId mb else None
  | None => None
  end.

(** [state.selectedEmail?.id === emailId] *)
Definition is_selected (emailId : string) (st : EmailStore) : bool :=
  match selectedEmail st with
  | Some e => String.eqb (Email.id e) emailId
  | None => false
  end.

(** The mailbox object of an email that leaves the mailbox. *)
Definition leaving (isUnread : bool) (mailbox : Mailbox.t) : Mailbox.t :=
  Mailbox.with_counters
    (Z.max 0 (Mailbox.totalEmails mailbox - 1))
    (if isUnread then Z.max 0 (Mailbox.unreadEmails mailbox - 1)
     else Mailbox.unreadEmails mailbox)
    (Z.max 0 (Mailbox.totalThreads mailbox - 1))
    (if isUnread then Z.max 0 (Mailbox.unreadThreads mailbox - 1)
     else Mailbox.unreadThreads mailbox)
    mailbox.

(** The mailbox object of an email that arrives in the mailbox. *)
Definition arriving (isUnread : bool) (mailbox : Mailbox.t) : Mailbox.t :=
  Mailbox.with_counters
    (Mailbox.totalEmails mailbox + 1)
    (if isUnread then Mailbox.unreadEmails mailbox + 1
     else Mailbox.unreadEmails mailbox)
    (Mailbox.totalThreads mailbox + 1)
    (if isUnread then Mailbox.unreadThreads mailbox + 1
     else Mailbox.unreadThreads mailbox)
    mailbox.

(** [{ ...mailbox, unreadEmails: Math.max(0, mailbox.unreadEmails + delta),
    unreadThreads: Math.max(0, mailbox.unreadThreads + delta) }] *)
Definition shift_unread (delta : Z) (mailbox : Mailbox.t) : Mailbox.t :=
  Mailbox.with_counters
    (Mailbox.totalEmails mailbox)
    (Z.max 0 (Mailbox.unreadEmails mailbox + delta))
    (Mailbox.totalThreads mailbox)
    (Z.max 0 (Mailbox.unreadThreads mailbox + delta))
    mailbox.

(** *** Fetching *)

Definition fetchMailboxes (client : Client.JMAPClient) : prog unit :=
  set (λ st, set_isLoading true (set_error None st));;
  Prog.try_catch
    (mailboxes ← call client GetAllMailboxes;
     st ← get;
     let currentSelectedMailbox := selectedMailbox st in
     if String.eqb currentSelectedMailbox "" then
       match find (λ m, bool_decide (Mailbox.role m = Some "inbox")
                        && negb (Mailbox.isShared m)) mailboxes with
       | Some inboxMailbox =>
           set (λ st, set_mailboxes mailboxes
                        (set_selectedMailbox (Mailbox.id inboxMailbox)
                           (set_isLoading false st)))
       | None =>
           set (λ st, set_mailboxes mailboxes (set_isLoading false st))
       end
     else set (λ st, set_mailboxes mailboxes (set_isLoading false st)))
    (λ error,
       set (λ st, set_error (Some (message_or error "Failed to fetch mailboxes"))
                    (set_isLoading false st))).

Definition fetchEmails (client : Client.JMAPClient) (mailboxId : option string)
    : prog unit :=
  set (λ st, set_isLoading true (set_error None st));;
  Prog.try_catch
    (st ← get;
     let targetMailboxId := or_else mailboxId (selectedMailbox st) in
     st ← get;
     let mailbox := find_mailbox targetMailboxId (mailboxes st) in
     let accountId := shared_accountId mailbox in
     let jmapMailboxId := or_else (mailbox ≫= Mailbox.originalId) targetMailboxId in
     settings ← Prog.perform GetSettings;
     result ← call client
       (GetEmails (Some jmapMailboxId) accountId (emailsPerPage settings) 0);
     set (λ st, set_emails (Client.emails result)
                  (set_hasMoreEmails (Client.hasMore result)
                     (set_totalEmails (Client.res_total result)
                        (set_isLoading false st)))))
    (λ error,
       set (λ st, set_error (Some (message_or error "Failed to fetch emails"))
                    (set_isLoading false
                       (set_emails []
                          (set_hasMoreEmails false (set_totalEmails 0 st)))))).

(** *** Single-email mutations *)

(** The state update of [deleteEmail] after a move to the trash. *)
Definition deleteEmail_trash_update (email : Email.t) (emailId : string)
    (isUnread : bool) (trashMailbox : Mailbox.t) (state : EmailStore) : EmailStore :=
  let updatedMailboxes :=
    match Email.mailboxIds email with
    | Some _ =>
        map (λ mailbox,
               if flag (Email.mailboxIds email) (Mailbox.id mailbox)
               then leaving isUnread mailbox
               else if String.eqb (Mailbox.id mailbox) (Mailbox.id trashMailbox)
               then arriving isUnread mailbox
               else mailbox)
            (mailboxes state)
    | None => mailboxes state
    end in
  set_emails (filter (λ e, Email.id e ≠ emailId) (emails state))
    (set_selectedEmail (if is_selected emailId state then None
                        else selectedEmail state)
       (set_mailboxes updatedMailboxes state)).

(** The state update of [deleteEmail] after a permanent delete. *)
Definition deleteEmail_permanent_update (email : Email.t) (emailId : string)
    (isUnread : bool) (state : EmailStore) : EmailStore :=
  let updatedMailboxes :=
    match isUnread, Email.mailboxIds email with
    | true, Some _ =>
        map (λ mailbox,
               if flag (Email.mailboxIds email) (Mailbox.id mailbox)
               then Mailbox.with_counters
                      (Z.max 0 (Mailbox.totalEmails mailbox - 1))
                      (Z.max 0 (Mailbox.unreadEmails mailbox - 1))
                      (Z.max 0 (Mailbox.totalThreads mailbox - 1))
                      (Z.max 0 (Mailbox.unreadThreads mailbox - 1))
                      mailbox
               else mailbox)
            (mailboxes state)
    | false, Some _ =>
        map (λ mailbox,
               if flag (Email.mailboxIds email) (Mailbox.id mailbox)
               then Mailbox.with_counters
                      (Z.max 0 (Mailbox.totalEmails mailbox - 1))
                      (Mailbox.unreadEmails mailbox)
                      (Z.max 0 (Mailbox.totalThreads mailbox - 1))
                      (Mailbox.unreadThreads mailbox)
                      mailbox
               else mailbox)
            (mailboxes state)
    | _, None => mailboxes state
    end in
  set_emails (filter (λ e, Email.id e ≠ emailId) (emails state))
    (set_selectedEmail (if is_selected emailId state then None
                        else selectedEmail state)
       (set_mailboxes updatedMailboxes state)).

(** The trash mailbox of the account that [deleteEmail] works on: of the
    shared account [accountId], or of the primary account. *)
Definition find_trash (accountId : option string) (mailboxes : list Mailbox.t)
    : option Mailbox.t :=
  find (λ mb,
          if truthy accountId
          then bool_decide (Mailbox.role mb = Some "trash")
               && bool_decide (Mailbox.accountId mb = accountId)
          else bool_decide (Mailbox.role mb = Some "trash")
               && negb (Mailbox.isShared mb))
       mailboxes.

Definition deleteEmail (client : Client.JMAPClient) (emailId : string) : prog unit :=
  Prog.try_catch
    (st ← get;
     match find_email emailId (emails st) with
     | None => Prog.Ret tt
     | Some email =>
         let isUnread := negb (flag (Email.keywords email) "$seen") in
         settings ← Prog.perform GetSettings;
         st ← get;
         let selectedMailboxId := selectedMailbox st in
         st ← get;
         let mailboxes := mailboxes st in
         let currentMailbox := find_mailbox selectedMailboxId mailboxes in
         let accountId := shared_accountId currentMailbox in
         let permanentDelete :=
           call client (DeleteEmail emailId);;
           set (deleteEmail_permanent_update email emailId isUnread) in
         match deleteAction settings with
         | trash =>
             match find_trash accountId mailboxes with
             | Some trashMailbox =>
                 let trashId :=
                   or_else (Mailbox.originalId trashMailbox) (Mailbox.id trashMailbox) in
                 call client (MoveToTrash emailId trashId accountId);;
                 set (deleteEmail_trash_update email emailId isUnread trashMailbox)
             | None => permanentDelete
             end
         | permanent => permanentDelete
         end
     end)
    (λ error,
       set (set_error (Some (message_or error "Failed to delete email")));;
       Prog.Throw error).

(** [`${emailId}-${read}`] *)
Definition processingKey (emailId : string) (read : bool) : string :=
  emailId +:+ "-" +:+ (if read then "true" else "false").

(** The state update of [markAsRead] after the call has resolved. *)
Definition markAsRead_update (emailId : string) (read : bool)
    (state : EmailStore) : EmailStore :=
  let newProcessingSet := processingReadStatus state ∖ {[processingKey emailId read]} in
  match find_email emailId (emails state) with
  | None => set_processingReadStatus newProcessingSet state
  | Some emailInState =>
      let wasRead := flag (Email.keywords emailInState) "$seen" in
      if Bool.eqb wasRead read then set_processingReadStatus newProcessingSet state
      else
        let updatedMailboxes :=
          map (λ mailbox,
                 if flag (Email.mailboxIds emailInState) (Mailbox.id mailbox)
                 then
                   let delta := if read then -1 else 1 in
                   shift_unread delta mailbox
                 else mailbox)
              (mailboxes state) in
        set_emails
          (map (λ e, if String.eqb (Email.id e) emailId
                     then Email.with_keyword "$seen" read e else e)
               (emails state))
          (set_selectedEmail
             (if is_selected emailId state
              then Email.with_keyword "$seen" read <$> selectedEmail state
              else selectedEmail state)
             (set_mailboxes updatedMailboxes
                (set_processingReadStatus newProcessingSet state)))
  end.

Definition markAsRead (client : Client.JMAPClient) (emailId : string) (read : bool)
    : prog unit :=
  Prog.try_catch
    (let processingKey := processingKey emailId read in
     st ← get;
     let currentProcessing := processingReadStatus st in
     if bool_decide (processingKey ∈ currentProcessing) then Prog.Ret tt
     else
       st ← get;
       match find_email emailId (emails st) with
       | None => Prog.Ret tt
       | Some email =>
           let isCurrentlyRead := flag (Email.keywords email) "$seen" in
           if Bool.eqb isCurrentlyRead read then Prog.Ret tt
           else
             set (λ state, set_processingReadStatus
                             (processingReadStatus state ∪ {[processingKey]}) state);;
             st ← get;
             let selectedMailboxId := selectedMailbox st in
             st ← get;
             let mailbox := find_mailbox selectedMailboxId (mailboxes st) in
             let accountId := shared_accountId mailbox in
             call client (MarkAsRead emailId read accountId);;
             set (markAsRead_update emailId read)
       end)
    (λ error,
       set (λ state,
              set_processingReadStatus
                (processingReadStatus state ∖ {[processingKey emailId read]})
                (set_error (Some (message_or error "Failed to update email")) state));;
       Prog.Throw error).

(** The state update of [moveToMailbox]; [currentMailboxIds] is
    [Object.keys(email.mailboxIds)], read before the call. *)
Definition moveToMailbox_update (emailId destinationMailboxId : string)
    (isUnread : bool) (currentMailboxIds : gset string)
    (state : EmailStore) : EmailStore :=
  let updatedMailboxes :=
    map (λ mailbox,
           if bool_decide (Mailbox.id mailbox ∈ currentMailboxIds)
           then leaving isUnread mailbox
           else if String.eqb (Mailbox.id mailbox) destinationMailboxId
           then arriving isUnread mailbox
           else mailbox)
        (mailboxes state) in
  let updatedEmails :=
    map (λ e, if String.eqb (Email.id e) emailId
              then Email.with_mailboxIds {[destinationMailboxId := true]} e
              else e)
        (emails state) in
  let updatedSelectedEmail :=
    if is_selected emailId state
    then Email.with_mailboxIds {[destinationMailboxId := true]} <$> selectedEmail state
    else selectedEmail state in
  set_emails updatedEmails
    (set_selectedEmail updatedSelectedEmail
       (set_mailboxes updatedMailboxes state)).

Definition moveToMailbox (client : Client.JMAPClient)
    (emailId destinationMailboxId : string) : prog unit :=
  Prog.try_catch
    (st ← get;
     match find_email emailId (emails st) with
     | None => Prog.Ret tt
     | Some email =>
         let isUnread := negb (flag (Email.keywords email) "$seen") in
         let currentMailboxIds : gset string :=
           match Email.mailboxIds email with
           | Some ids => dom ids
           | None => ∅
           end in
         call client (MoveEmail emailId destinationMailboxId);;
         set (moveToMailbox_update emailId destinationMailboxId isUnread
                currentMailboxIds)
     end)
    (λ error,
       set (set_error (Some (message_or error "Failed to move email")));;
       Prog.Throw error).

Definition toggleStar (client : Client.JMAPClient) (emailId : string) : prog unit :=
  Prog.try_catch
    (st ← get;
     match find_email emailId (emails st) with
     | None => Prog.Ret tt
     | Some email =>
         match Email.keywords email with
         | None => Prog.Throw Client.TypeError
         | Some keywords =>
             let isFlagged := default false (keywords !! "$flagged") in
             call client (ToggleStar emailId (negb isFlagged));;
             set (λ state,
                    set_emails
                      (map (λ e, if String.eqb (Email.id e) emailId
                                 then Email.with_keyword "$flagged" (negb isFlagged) e
                                 else e)
                           (emails state))
                      (set_selectedEmail
                         (if is_selected emailId state
                          then Email.with_keyword "$flagged" (negb isFlagged)
                                 <$> selectedEmail state
                          else selectedEmail state)
                         state))
         end
     end)
    (λ error,
       set (set_error (Some (message_or error "Failed to update star")));;
       Prog.Throw error).

(** *** Batch operations *)

(** [deltaUnread] of [batchMarkAsRead] for one mailbox: the sum that the
    [forEach] over the affected emails accumulates. *)
Definition batchMarkAsRead_delta (read : bool) (affectedEmails : list Email.t)
    (mailbox : Mailbox.t) : Z :=
  foldl (λ deltaUnread email,
           if flag (Email.mailboxIds email) (Mailbox.id mailbox) then
             let wasRead := flag (Email.keywords email) "$seen" in
             if negb (Bool.eqb wasRead read)
             then deltaUnread + (if read then -1 else 1)
             else deltaUnread
           else deltaUnread)
        0 affectedEmails.

Definition batchMarkAsRead (client : Client.JMAPClient) (read : bool) : prog unit :=
  st ← get;
  let selectedEmailIds := selectedEmailIds st in
  let emails := emails st in
  let mailboxes := mailboxes st in
  if bool_decide (size selectedEmailIds = 0%nat) then Prog.Ret tt
  else
    set (λ st, set_isLoading true (set_error None st));;
    Prog.try_catch
      (let emailIdsArray := elements selectedEmailIds in
       call client (BatchMarkAsRead emailIdsArray read);;
       let updatedEmails :=
         map (λ email, if bool_decide (Email.id email ∈ selectedEmailIds)
                       then Email.with_keyword "$seen" read email
                       else email)
             emails in
       let affectedEmails :=
         filter (λ e, Email.id e ∈ selectedEmailIds) emails in
       let updatedMailboxes :=
         map (λ mailbox,
                shift_unread (batchMarkAsRead_delta read affectedEmails mailbox) mailbox)
             mailboxes in
       set (λ st, set_emails updatedEmails
                    (set_mailboxes updatedMailboxes
                       (set_selectedEmailIds ∅ (set_isLoading false st)))))
      (λ error,
         set (λ st, set_error (Some (message_or error "Failed to update emails"))
                      (set_isLoading false st))).

(** [deltaTotalEmails] and [deltaUnreadEmails] of [batchDelete] for one
    mailbox. *)
Definition batchDelete_deltas (deletedEmails : list Email.t) (mailbox : Mailbox.t)
    : Z * Z :=
  foldl (λ '(deltaTotalEmails, deltaUnreadEmails) email,
           if flag (Email.mailboxIds email) (Mailbox.id mailbox) then
             (deltaTotalEmails - 1,
              if negb (flag (Email.keywords email) "$seen")
              then deltaUnreadEmails - 1 else deltaUnreadEmails)
           else (deltaTotalEmails, deltaUnreadEmails))
        (0, 0) deletedEmails.

Definition batchDelete (client : Client.JMAPClient) : prog unit :=
  st ← get;
  let selectedEmailIds := selectedEmailIds st in
  let emails := emails st in
  let mailboxes := mailboxes st in
  if bool_decide (size selectedEmailIds = 0%nat) then Prog.Ret tt
  else
    set (λ st, set_isLoading true (set_error None st));;
    Prog.try_catch
      (let emailIdsArray := elements selectedEmailIds in
       call client (BatchDeleteEmails emailIdsArray);;
       let remainingEmails :=
         filter (λ e, Email.id e ∉ selectedEmailIds) emails in
       let deletedEmails :=
         filter (λ e, Email.id e ∈ selectedEmailIds) emails in
       let updatedMailboxes :=
         map (λ mailbox,
                let '(deltaTotalEmails, deltaUnreadEmails) :=
                  batchDelete_deltas deletedEmails mailbox in
                Mailbox.with_counters
                  (Z.max 0 (Mailbox.totalEmails mailbox + deltaTotalEmails))
                  (Z.max 0 (Mailbox.unreadEmails mailbox + deltaUnreadEmails))
                  (Z.max 0 (Mailbox.totalThreads mailbox + deltaTotalEmails))
                  (Z.max 0 (Mailbox.unreadThreads mailbox + deltaUnreadEmails))
                  mailbox)
             mailboxes in
       set (λ st, set_emails remainingEmails
                    (set_mailboxes updatedMailboxes
                       (set_selectedEmailIds ∅
                          (set_selectedEmail None (set_isLoading false st))))))
      (λ error,
         set (λ st, set_error (Some (message_or error "Failed to delete emails"))
                      (set_isLoading false st))).

Definition batchMoveToMailbox (client : Client.JMAPClient) (toMailboxId : string)
    : prog unit :=
  st ← get;
  let selectedEmailIds := selectedEmailIds st in
  let emails := emails st in
  if bool_decide (size selectedEmailIds = 0%nat) then Prog.Ret tt
  else
    set (λ st, set_isLoading true (set_error None st));;
    Prog.try_catch
      (let emailIdsArray := elements selectedEmailIds in
       call client (BatchMoveEmails emailIdsArray toMailboxId);;
       let remainingEmails :=
         filter (λ e, Email.id e ∉ selectedEmailIds) emails in
       set (λ st, set_emails remainingEmails
                    (set_selectedEmailIds ∅ (set_isLoading false st)));;
       st ← get;
       fetchEmails client (Some (selectedMailbox st)))
      (λ error,
         set (λ st, set_error (Some (message_or error "Failed to move emails"))
                      (set_isLoading false st))).

(** *** Reconciliation with the server *)

Definition handleNewEmailNotification (email : Email.t) : prog unit :=
  set (set_newEmailNotification (Some email)).

Definition refreshCurrentMailbox (client : Client.JMAPClient) : prog unit :=
  st ← get;
  let selectedMailbox := selectedMailbox st in
  if String.eqb selectedMailbox "" then Prog.Ret tt
  else
    Prog.try_catch
      (st ← get;
       let mailbox := find_mailbox selectedMailbox (mailboxes st) in
       let accountId := shared_accountId mailbox in
       let jmapMailboxId := or_else (mailbox ≫= Mailbox.originalId) selectedMailbox in
       settings ← Prog.perform GetSettings;
       result ← call client
         (GetEmails (Some jmapMailboxId) accountId (emailsPerPage settings) 0);
       st ← get;
       let currentFirstEmailId := Email.id <$> head (emails st) in
       let newFirstEmailId := Email.id <$> head (Client.emails result) in
       match head (Client.emails result) with
       | Some first =>
           if bool_decide (currentFirstEmailId ≠ newFirstEmailId)
           then handleNewEmailNotification first
           else Prog.Ret tt
       | None => Prog.Ret tt
       end;;
       set (λ st, set_emails (Client.emails result)
                    (set_hasMoreEmails (Client.hasMore result)
                       (set_totalEmails (Client.res_total result) st))))
      (λ _, Prog.Ret tt).

Definition handleStateChange (change : StateChange) (client : Client.JMAPClient)
    : prog unit :=
  Prog.try_catch
    (now ← Prog.perform Now;
     set (set_lastPushUpdate (Some now));;
     let accountId := Client.accountId client in
     match changed change !! accountId with
     | None => Prog.Ret tt
     | Some accountChanges =>
         (if truthy (change_Email accountChanges)
          then refreshCurrentMailbox client else Prog.Ret tt);;
         (if truthy (change_Mailbox accountChanges)
          then fetchMailboxes client else Prog.Ret tt)
     end)
    (λ error,
       set (set_error (Some (message_or error "Failed to handle push notification")))).

(** *** Running an operation *)

(** Where an operation stands when it gives up control: finished, or
    suspended at the [await] of a client call with its continuation. *)
Inductive Paused (A : Type) : Type :=
| Finished (result : A + JsError)
| Awaiting {R : Type} (client : Client.JMAPClient) (c : ClientCall R)
    (k : R + JsError → prog A).
Arguments Finished {A} result.
Arguments Awaiting {A R} client c k.

(** A call that was issued, whatever its result type. *)
Inductive Issued : Type :=
| issued {R : Type} (client : Client.JMAPClient) (c : ClientCall R).

(** The answers of the client: what the [n]-th call issued resolves to. *)
Definition Answers : Type :=
  ∀ R : Type, nat → Client.JMAPClient → ClientCall R → R + JsError.

Section Run.
Variable settings : SettingsView.
Variable now : Z.

(** The synchronous run of an operation up to its next [await]. *)
Fixpoint run_sync {A : Type} (p : prog A) (st : EmailStore) : EmailStore * Paused A :=
  match p with
  | Prog.Ret a => (st, Finished (inl a))
  | Prog.Throw err => (st, Finished (inr err))
  | Prog.Vis e k =>
      match e in storeE R return (R → prog A) → EmailStore * Paused A with
      | Call client c => λ k, (st, Awaiting client c k)
      | GetState => λ k, run_sync (k st) st
      | SetState update => λ k, run_sync (k tt) (update st)
      | GetSettings => λ k, run_sync (k settings) st
      | Now => λ k, run_sync (k now) st
      end k
  end.

(** The run of one operation to its end, alone: every call is answered
    by [answers]; the calls issued are recorded in order. *)
Fixpoint run {A : Type} (answers : Answers) (p : prog A) (st : EmailStore)
    (calls : list Issued) : EmailStore * (A + JsError) * list Issued :=
  match p with
  | Prog.Ret a => (st, inl a, calls)
  | Prog.Throw err => (st, inr err, calls)
  | Prog.Vis e k =>
      match e in storeE R
            return (R → prog A) → EmailStore * (A + JsError) * list Issued with
      | Call client c =>
          λ k, run answers (k (answers _ (length calls) client c)) st
                   (calls ++ [issued client c])
      | GetState => λ k, run answers (k st) st calls
      | SetState update => λ k, run answers (k tt) (update st) calls
      | GetSettings => λ k, run answers (k settings) st calls
      | Now => λ k, run answers (k now) st calls
      end k
  end.
End Run.
End Store.

(** *** The other actions of the mail store *)

Module StoreActions.
Import Store.

(** More updates [set({ field: v })]. *)
Definition set_isLoadingMore (v : bool) (st : EmailStore) : EmailStore :=
  mkStore (emails st) (mailboxes st) (selectedEmail st) (selectedMailbox st)
    (isLoading st) (isLoadingEmail st) v (error st) (searchQuery st)
    (quota st) (processingReadStatus st) (selectedEmailIds st)
    (hasMoreEmails st) (totalEmails st) (isPushConnected st)
    (lastPushUpdate st) (newEmailNotification st) (expandedThreadIds st)
    (threadEmailsCache st) (isLoadingThread st).

Definition set_isPushConnected (v : bool) (st : EmailStore) : EmailStore :=
  mkStore (emails st) (mailboxes st) (selectedEmail st) (selectedMailbox st)
    (isLoading st) (isLoadingEmail st) (isLoadingMore st) (error st)
    (searchQuery st) (quota st) (processingReadStatus st)
    (selectedEmailIds st) (hasMoreEmails st) (totalEmails st) v
    (lastPushUpdate st) (newEmailNotification st) (expandedThreadIds st)
    (threadEmailsCache st) (isLoadingThread st).

Definition set_expandedThreadIds (v : gset string) (st : EmailStore) : EmailStore :=
  mkStore (emails st) (mailboxes st) (selectedEmail st) (selectedMailbox st)
    (isLoading st) (isLoadingEmail st) (isLoadingMore st) (error st)
    (searchQuery st) (quota st) (processingReadStatus st)
    (selectedEmailIds st) (hasMoreEmails st) (totalEmails st)
    (isPushConnected st) (lastPushUpdate st) (newEmailNotification st) v
    (threadEmailsCache st) (isLoadingThread st).

Definition set_threadEmailsCache (v : gmap string (list Email.t)) (st : EmailStore)
    : EmailStore :=
  mkStore (emails st) (mailboxes st) (selectedEmail st) (selectedMailbox st)
    (isLoading st) (isLoadingEmail st) (isLoadingMore st) (error st)
    (searchQuery st) (quota st) (processingReadStatus st)
    (selectedEmailIds st) (hasMoreEmails st) (totalEmails st)
    (isPushConnected st) (lastPushUpdate st) (newEmailNotification st)
    (expandedThreadIds st) v (isLoadingThread st).

Definition set_isLoadingThread (v : option string) (st : EmailStore) : EmailStore :=
  mkStore (emails st) (mailboxes st) (selectedEmail st) (selectedMailbox st)
    (isLoading st) (isLoadingEmail st) (isLoadingMore st) (error st)
    (searchQuery st) (quota st) (processingReadStatus st)
    (selectedEmailIds st) (hasMoreEmails st) (totalEmails st)
    (isPushConnected st) (lastPushUpdate st) (newEmailNotification st)
    (expandedThreadIds st) (threadEmailsCache st) v.

(** *** Selection *)

Definition selectMailbox (mailboxId : string) : prog unit :=
  set (λ st, set_selectedMailbox mailboxId
               (set_selectedEmail None
                  (set_selectedEmailIds ∅
                     (set_expandedThreadIds ∅
                        (set_threadEmailsCache ∅
                           (set_isLoadingThread None st)))))).

Definition toggleEmailSelection (emailId : string) : prog unit :=
  st ← get;
  let selectedEmailIds := selectedEmailIds st in
  let newSelection :=
    if bool_decide (emailId ∈ selectedEmailIds)
    then selectedEmailIds ∖ {[emailId]}
    else selectedEmailIds ∪ {[emailId]} in
  set (set_selectedEmailIds newSelection).

Definition selectAllEmails : prog unit :=
  st ← get;
  let allIds : gset string := list_to_set (map Email.id (emails st)) in
  set (set_selectedEmailIds allIds).

Definition clearSelection : prog unit := set (set_selectedEmailIds ∅).

(** *** Pagination *)

Definition loadMoreEmails (client : Client.JMAPClient) : prog unit :=
  st ← get;
  let isLoadingMore := isLoadingMore st in
  let hasMoreEmails := hasMoreEmails st in
  let emails := emails st in
  let selectedMailbox := selectedMailbox st in
  if isLoadingMore || negb hasMoreEmails then Prog.Ret tt
  else
    set (λ st, set_isLoadingMore true (set_error None st));;
    Prog.try_catch
      (st ← get;
       let mailbox := find_mailbox selectedMailbox (mailboxes st) in
       let accountId := shared_accountId mailbox in
       let jmapMailboxId := or_else (mailbox ≫= Mailbox.originalId) selectedMailbox in
       settings ← Prog.perform GetSettings;
       result ← call client
         (GetEmails (Some jmapMailboxId) accountId (emailsPerPage settings)
            (Z.of_nat (length emails)));
       set (λ st, set_emails (emails ++ Client.emails result)
                    (set_hasMoreEmails (Client.hasMore result)
                       (set_totalEmails (Client.res_total result)
                          (set_isLoadingMore false st)))))
      (λ error,
         set (λ st, set_error (Some (message_or error "Failed to load more emails"))
                      (set_isLoadingMore false st))).

(** *** Push state and notifications *)

Definition setPushConnected (connected : bool) : prog unit :=
  set (set_isPushConnected connected).

Definition clearNewEmailNotification : prog unit :=
  set (set_newEmailNotification None).

(** *** Thread expansion *)

Definition toggleThreadExpansion (threadId : string) : prog unit :=
  st ← get;
  let expandedThreadIds := expandedThreadIds st in
  let newExpandedThreadIds :=
    if bool_decide (threadId ∈ expandedThreadIds)
    then expandedThreadIds ∖ {[threadId]}
    else expandedThreadIds ∪ {[threadId]} in
  set (set_expandedThreadIds newExpandedThreadIds).

Definition collapseAllThreads : prog unit :=
  set (λ st, set_expandedThreadIds ∅ (set_isLoadingThread None st)).

Definition updateThreadCache (threadId : string) (emails : list Email.t) : prog unit :=
  st ← get;
  let newCache := <[threadId := emails]> (threadEmailsCache st) in
  set (set_threadEmailsCache newCache).
End StoreActions.

(** ** The store on top of the client

    The store is always handed an instance of [JMAPClient]: a call that the
    store awaits is the run of the method of that name. *)

Module System.
Import Store.

Definition implementation {R : Type} (client : Client.JMAPClient)
    (c : ClientCall R) : Client.prog R :=
  match c in ClientCall R return Client.prog R with
  | GetAllMailboxes => Client.getAllMailboxes client
  | GetEmails mailboxId accountId limit position =>
      Client.getEmails client mailboxId accountId limit position
  | MarkAsRead emailId read accountId => Client.markAsRead client emailId read accountId
  | ToggleStar emailId starred => Client.toggleStar client emailId starred
  | DeleteEmail emailId => Client.deleteEmail client emailId
  | MoveToTrash emailId trashMailboxId accountId =>
      Client.moveToTrash client emailId trashMailboxId accountId
  | MoveEmail emailId toMailboxId => Client.moveEmail client emailId toMailboxId
  | BatchMarkAsRead emailIds read => Client.batchMarkAsRead client emailIds read
  | BatchDeleteEmails emailIds => Client.batchDeleteEmails client emailIds
  | BatchMoveEmails emailIds toMailboxId =>
      Client.batchMoveEmails client emailIds toMailboxId
  end.

(** The answers of the real client when the network behaves as [nets n]
    during the [n]-th call of the store. *)
Definition client_answers (nets : nat → Client.Network) : Answers :=
  λ R n client c, (Client.run (nets n) (implementation client c) 0).1.

(** *** Operations that overlap

    One thread runs the operations: an operation runs until it awaits a
    client call, then another may start or a waiting one may go on. *)

Inductive Task : Type :=
| task {R : Type} (client : Client.JMAPClient) (c : ClientCall R)
    (k : R + JsError → prog unit).

Record Sched : Type := {
  sched_store : EmailStore;
  waiting : list Task;
  calls : list Issued;
  outcomes : list (unit + JsError)
}.

Definition idle (st : EmailStore) : Sched :=
  {| sched_store := st; waiting := []; calls := []; outcomes := [] |}.

Section Schedule.
Variable settings : SettingsView.
Variable now : Z.

(** What a synchronous stretch of an operation leaves behind. *)
Definition settle (w : Sched) (waiting' : list Task)
    (r : EmailStore * Paused unit) : Sched :=
  match r with
  | (st, Finished result) =>
      {| sched_store := st; waiting := waiting';
         calls := calls w; outcomes := outcomes w ++ [result] |}
  | (st, Awaiting client c k) =>
      {| sched_store := st; waiting := waiting' ++ [task client c k];
         calls := calls w ++ [issued client c]; outcomes := outcomes w |}
  end.

(** An operation is invoked. *)
Definition start (p : prog unit) (w : Sched) : Sched :=
  settle w (waiting w) (run_sync settings now p (sched_store w)).

(** The call that has waited longest resolves or rejects as [answer]
    says, and its operation goes on. *)
Definition resume_first
    (answer : ∀ R : Type, Client.JMAPClient → ClientCall R → R + JsError)
    (w : Sched) : Sched :=
  match waiting w with
  | [] => w
  | task client c k :: rest =>
      settle w rest (run_sync settings now (k (answer _ client c)) (sched_store w))
  end.
End Schedule.
End System.

(** ** Polling for state changes ([fetchCurrentStates], [checkForStateChanges])

    Every fifteen seconds the client posts one batch that asks for the
    [state] of the mailboxes and of the emails, and compares it with the
    states it has recorded. *)

Module Polling.

(** The result object of a method response as the poll reads it. *)
Record StateResult : Type := {
  state : option string
}.

(** What the POST resolves to.  [poll_json] is [None] when
    [response.json()] rejects; the body read holds [None] when it has no
    [methodResponses] to iterate over.  A result is [None] when the entry
    has none. *)
Record PollResponse : Type := {
  poll_ok : bool;
  poll_json : option (option (list (string * option StateResult)))
}.

(** The fields of the client that the poll reads and writes;
    [stateChangeCallback] tells whether a callback is registered. *)
Record Poller : Type := {
  pollingStates : gmap string string;
  stateChangeCallback : bool
}.

(** The variables of one run of [checkForStateChanges]. *)
Record Scan : Type := {
  states : gmap string string;
  changes : gmap string string;
  hasChanges : bool
}.

(** [if (method === kind + '/get' && result.state) { ... }] of
    [fetchCurrentStates] once the method is the one; [None]: reading
    [state] of a result that is not there throws. *)
Definition record_kind (kind : string) (result : option StateResult)
    (pollingStates : gmap string string) : option (gmap string string) :=
  match result with
  | None => None
  | Some result =>
      match state result with
      | Some s => if truthy (Some s) then Some (<[kind := s]> pollingStates)
                  else Some pollingStates
      | None => Some pollingStates
      end
  end.

Definition record_entry (entry : string * option StateResult)
    (pollingStates : gmap string string) : option (gmap string string) :=
  let '(method, result) := entry in
  pollingStates ←
    (if String.eqb method "Mailbox/get"
     then record_kind "Mailbox" result pollingStates else Some pollingStates);
  if String.eqb method "Email/get"
  then record_kind "Email" result pollingStates else Some pollingStates.

(** The [for] loop of [fetchCurrentStates]; an exception ends it and
    keeps what was recorded. *)
Fixpoint record_loop (entries : list (string * option StateResult))
    (pollingStates : gmap string string) : gmap string string :=
  match entries with
  | [] => pollingStates
  | entry :: rest =>
      match record_entry entry pollingStates with
      | Some pollingStates => record_loop rest pollingStates
      | None => pollingStates
      end
  end.

Definition fetchCurrentStates (poller : Poller)
    (reply : PollResponse + JsError) : Poller :=
  match reply with
  | inl response =>
      if poll_ok response then
        match poll_json response with
        | Some (Some methodResponses) =>
            {| pollingStates := record_loop methodResponses (pollingStates poller);
               stateChangeCallback := stateChangeCallback poller |}
        | _ => poller
        end
      else poller
  | inr _ => poller
  end.

(** The same [if] in [checkForStateChanges]. *)
Definition check_kind (kind : string) (result : option StateResult)
    (scan : Scan) : option Scan :=
  match result with
  | None => None
  | Some result =>
      match state result with
      | Some s =>
          if truthy (Some s) then
            let known := states scan !! kind in
            let scan1 :=
              if truthy known && negb (bool_decide (known = Some s))
              then {| states := states scan;
                      changes := <[kind := s]> (changes scan);
                      hasChanges := true |}
              else scan in
            Some {| states := <[kind := s]> (states scan1);
                    changes := changes scan1;
                    hasChanges := hasChanges scan1 |}
          else Some scan
      | None => Some scan
      end
  end.

Definition check_entry (entry : string * option StateResult) (scan : Scan)
    : option Scan :=
  let '(method, result) := entry in
  scan ←
    (if String.eqb method "Mailbox/get"
     then check_kind "Mailbox" result scan else Some scan);
  if String.eqb method "Email/get"
  then check_kind "Email" result scan else Some scan.

(** The [for] loop of [checkForStateChanges]: the scan it ends with, and
    whether an exception ended it. *)
Fixpoint check_loop (entries : list (string * option StateResult)) (scan : Scan)
    : Scan * bool :=
  match entries with
  | [] => (scan, false)
  | entry :: rest =>
      match check_entry entry scan with
      | Some scan => check_loop rest scan
      | None => (scan, true)
      end
  end.

(** The descriptor that the callback is called with. *)
Definition stateChange (client : Client.JMAPClient) (changes : gmap string string)
    : Store.StateChange :=
  {| Store.changed :=
       {[ Client.accountId client :=
            {| Store.change_Email := changes !! "Email";
               Store.change_Mailbox := changes !! "Mailbox";
               Store.change_Thread := changes !! "Thread" |} ]} |}.

(** [checkForStateChanges]: the client after the poll, and the descriptor
    that the callback was called with, if it was called. *)
Definition checkForStateChanges (client : Client.JMAPClient) (poller : Poller)
    (reply : PollResponse + JsError) : Poller * option Store.StateChange :=
  match reply with
  | inl response =>
      if poll_ok response then
        match poll_json response with
        | Some (Some methodResponses) =>
            let '(scan, thrown) :=
              check_loop methodResponses
                {| states := pollingStates poller; changes := ∅;
                   hasChanges := false |} in
            ({| pollingStates := states scan;
                stateChangeCallback := stateChangeCallback poller |},
             if negb thrown && hasChanges scan && stateChangeCallback poller
             then Some (stateChange client (changes scan)) else None)
        | _ => (poller, None)
        end
      else (poller, None)
  | inr _ => (poller, None)
  end.

(** [onStateChange(callback)] and [closePushNotifications()], as far as
    the poll goes. *)
Definition onStateChange (poller : Poller) : Poller :=
  {| pollingStates := pollingStates poller; stateChangeCallback := true |}.

Definition closePushNotifications (poller : Poller) : Poller :=
  {| pollingStates := ∅; stateChangeCallback := false |}.
End Polling.

(** ** Scenarios: a client, a server and a store to try the code on *)

Module Scenario.
Import Client.

(** A session with the primary account [acct-1] and the shared account
    [acct-2]. *)
Definition client : JMAPClient :=
  {| username := "user@example.org";
     apiUrl := "https://mail.example.org/jmap";
     accountId := "acct-1";
     accounts := [ ("acct-1", {| account_name := Some "User" |});
                   ("acct-2", {| account_name := Some "Team" |}) ] |}.

(** A message of the server, in [INBOX]. *)
Definition message (id : string) (seen : bool) : Email.t :=
  Email.mk id ("T-" +:+ id) (Some {["INBOX" := true]}) (Some {["$seen" := seen]})
    1024 "2024-05-01T10:00:00Z" None None (Some "Hello") None false.

Definition five : list Email.t :=
  [ message "M1" false; message "M2" true; message "M3" true;
    message "M4" false; message "M5" true ].

Definition no_result : MethodResult :=
  {| list_mailboxes := None; list_emails := None; list_identities := None;
     list_threads := None; total := None; notCreated := None;
     notUpdated := None; created := None; error_description := None;
     error_type := None |}.

Definition http_ok (response : JMAPResponse) : HttpResponse :=
  {| ok := true; status := 200; responseText := ""; json := Some response |}.

(** The answer of a server that holds [mailbox] to the batch of
    [getEmails]: the query selects [limit] ids from [position] on, the
    get returns their emails; the total is reported on request only. *)
Definition page (mailbox : list Email.t) (reportTotal : bool)
    (limit position : Z) : JMAPResponse :=
  {| methodResponses := Some [
       ("Email/query",
        Some {| list_mailboxes := None; list_emails := None;
                list_identities := None; list_threads := None;
                total := if reportTotal
                         then Some (Z.of_nat (length mailbox)) else None;
                notCreated := None; notUpdated := None; created := None;
                error_description := None; error_type := None |});
       ("Email/get",
        Some {| list_mailboxes := None;
                list_emails :=
                  Some (take (Z.to_nat limit) (drop (Z.to_nat position) mailbox));
                list_identities := None; list_threads := None;
                total := None; notCreated := None; notUpdated := None;
                created := None; error_description := None;
                error_type := None |}) ] |}.




Definition folder (id role : string) : JMAPMailbox :=
  {| mb_id := id; mb_name := id; mb_parentId := None; mb_role := Some role;
     mb_totalEmails := Some 5; mb_unreadEmails := Some 2;
     mb_totalThreads := Some 5; mb_unreadThreads := Some 2;
     mb_sortOrder := None; mb_isSubscribed := None; mb_myRights := None |}.

Definition folders : JMAPResponse :=
  {| methodResponses := Some [
       ("Mailbox/get",
        Some {| list_mailboxes :=
                  Some [ folder "INBOX" "inbox"; folder "DRAFTS" "drafts";
                         folder "SENT" "sent"; folder "TRASH" "trash" ];
                list_emails := None; list_identities := None;
                list_threads := None; total := None; notCreated := None;
                notUpdated := None; created := None;
                error_description := None; error_type := None |}) ] |}.



(** A store that shows [INBOX]: the inbox counts five emails of which two
    are unread, the trash is empty, and the page holds the five emails. *)
Definition box (id role : string) (total unread : Z) : Mailbox.t :=
  Mailbox.mk id (Some id) id None (Some role) 0 total unread total unread
    default_rights true (Some "acct-1") (Some "User") false.

Definition store : Store.EmailStore :=
  Store.set_emails five
    (Store.set_mailboxes [ box "INBOX" "inbox" 5 2; box "TRASH" "trash" 0 0 ]
       (Store.set_selectedMailbox "INBOX" Store.initial)).


Definition settings : Store.SettingsView :=
  {| Store.deleteAction := Store.trash; Store.emailsPerPage := 50 |}.

(** A server that acknowledges every batch, and a network that is down. *)
Definition acknowledged : JMAPResponse :=
  {| methodResponses := Some [ ("Email/set", Some no_result) ] |}.

Definition obliging_server : Network :=
  {| fetch := λ _ _ _, inl (http_ok acknowledged);
     clock := 1714557600000;
     parseHeaders := λ _, inl tt |}.

Definition dead_network : Network :=
  {| fetch := λ _ _ _, inr (ErrorObj "Failed to fetch");
     clock := 1714557600000;
     parseHeaders := λ _, inl tt |}.

(** The real client in front of the obliging server. *)
Definition obliging : Store.Answers := System.client_answers (λ _, obliging_server).
End Scenario.

(** ** A JSON text codec for flat objects

    A printer and a parser for objects whose members are strings without
    escapes, integers, booleans and [null]: enough to write and read back
    the settings.  They stand for the runtime's [JSON.stringify] and
    [JSON.parse] where a concrete pair is needed. *)

Module JsonText.
Import Settings.

Definition quote : ascii := ascii_of_nat 34.

Definition quoted (s : string) : string :=
  String quote (s +:+ String quote EmptyString).

Definition print_value (v : json) : string :=
  match v with
  | JNull => "null"
  | JBool true => "true"
  | JBool false => "false"
  | JNumber n => pretty n
  | JString s => quoted s
  | JArray _ => "[]"
  | JObject _ => "{}"
  end.

Fixpoint print_members (l : list (string * json)) : string :=
  match l with
  | [] => ""
  | [(k, v)] => quoted k +:+ ":" +:+ print_value v
  | (k, v) :: r => quoted k +:+ ":" +:+ print_value v +:+ "," +:+ print_members r
  end.

Definition stringify (v : json) : string :=
  match v with
  | JObject m => "{" +:+ print_members (map_to_list m) +:+ "}"
  | _ => print_value v
  end.

(** The text up to the next quote, and what follows the quote. *)
Fixpoint read_string (s : string) : option (string * string) :=
  match s with
  | EmptyString => None
  | String c r =>
      if Ascii.eqb c quote then Some (EmptyString, r)
      else '(body, rest) ← read_string r; Some (String c body, rest)
  end.

Definition digit (c : ascii) : option Z :=
  let n := Z.of_nat (nat_of_ascii c) in
  if (48 <=? n) && (n <=? 57) then Some (n - 48) else None.

Definition is_digit (c : ascii) : bool :=
  match digit c with Some _ => true | None => false end.

(** The digits at the head of the text as a number, and the rest. *)
Fixpoint read_digits (acc : Z) (s : string) : Z * string :=
  match s with
  | EmptyString => (acc, s)
  | String c r =>
      match digit c with
      | Some d => read_digits (10 * acc + d) r
      | None => (acc, s)
      end
  end.

Definition strip (p s : string) : option string :=
  if String.prefix p s
  then Some (substring (String.length p) (String.length s - String.length p) s)
  else None.

Definition read_value (s : string) : option (json * string) :=
  match s with
  | String c r =>
      if Ascii.eqb c quote then
        '(body, rest) ← read_string r; Some (JString body, rest)
      else if Ascii.eqb c "-"%char then
        match r with
        | String d _ =>
            if is_digit d
            then let '(n, rest) := read_digits 0 r in Some (JNumber (- n), rest)
            else None
        | EmptyString => None
        end
      else if is_digit c then
        let '(n, rest) := read_digits 0 s in Some (JNumber n, rest)
      else
        match strip "true" s, strip "false" s, strip "null" s with
        | Some rest, _, _ => Some (JBool true, rest)
        | _, Some rest, _ => Some (JBool false, rest)
        | _, _, Some rest => Some (JNull, rest)
        | _, _, _ => None
        end
  | EmptyString => None
  end.

(** The members up to the closing brace; [fuel] bounds their number. *)
Fixpoint read_members (fuel : nat) (s : string) : option (list (string * json)) :=
  match fuel with
  | O => None
  | S fuel =>
      match s with
      | String c r =>
          if Ascii.eqb c quote then
            '(key, rest) ← read_string r;
            rest ← strip ":" rest;
            '(value, rest) ← read_value rest;
            match rest with
            | String "}" EmptyString => Some [(key, value)]
            | String "," rest => cons (key, value) <$> read_members fuel rest
            | _ => None
            end
          else None
      | EmptyString => None
      end
  end.

Definition parse (s : string) : option json :=
  match s with
  | String "{" (String "}" EmptyString) => Some (JObject ∅)
  | String "{" r => (λ l, JObject (list_to_map l)) <$> read_members (String.length s) r
  | _ => fst <$> read_value s
  end.
End JsonText.

(** ** More scenarios: a conversation, saved settings, a server that
    stores drafts, an outage and a poll *)

Module Conversation.

(** The timestamps of the dates that occur, and lower case for ASCII. *)
Definition stamp (receivedAt : string) : Z :=
  default 0
    (JsMap.get receivedAt
       [ ("2024-05-01T09:00:00Z", 1714554000000);
         ("2024-05-01T10:00:00Z", 1714557600000);
         ("2024-05-01T11:00:00Z", 1714561200000) ]).

Definition lower_char (c : ascii) : ascii :=
  let n := nat_of_ascii c in
  if (65 <=? n)%nat && (n <=? 90)%nat then ascii_of_nat (n + 32) else c.

Fixpoint lower (s : string) : string :=
  match s with
  | EmptyString => EmptyString
  | String c r => String (lower_char c) (lower r)
  end.

Definition letter (id threadId receivedAt : string) (name : option string)
    (address : string) (keywords : gmap string bool) (attachment : bool) : Email.t :=
  Email.mk id threadId (Some {["INBOX" := true]}) (Some keywords) 2048 receivedAt
    (Some [EmailAddress.mk name address]) None (Some "Plan") None attachment.

Definition opening : Email.t :=
  letter "A1" "T-A" "2024-05-01T10:00:00Z" (Some "Ann") "ann@example.org"
    {["$seen" := true]} false.

Definition aside : Email.t :=
  letter "B1" "T-B" "2024-05-01T09:00:00Z" None "bob@example.org" ∅ false.

Definition reply : Email.t :=
  letter "A2" "T-A" "2024-05-01T11:00:00Z" (Some "Ann") "Ann@Example.org"
    {["$seen" := true; "$flagged" := true]} true.

Definition page : list Email.t := [opening; aside; reply].

(** The two threads of the page as [groupEmailsByThread] returns them. *)
Definition planning : ThreadGroup.t :=
  ThreadUtils.makeGroup lower "T-A" [reply; opening].

Definition remark : ThreadGroup.t :=
  ThreadUtils.makeGroup lower "T-B" [aside].
End Conversation.

Module Preferences.
Import Settings.

(** The names of [Object.prototype] that the scenarios meet. *)
Definition prototype_names (key : string) : bool :=
  bool_decide (key ∈ ["constructor"; "toString"; "valueOf"]).

(** Settings with a large font and pages of a hundred emails. *)
Definition large_print : gmap string json :=
  <["fontSize" := JString "large"]>
    (<["emailsPerPage" := JNumber 100]> DEFAULT_SETTINGS).
End Preferences.

Module Drafting.
Import Client Scenario.

(** A server that lists the folders and stores every draft as [E77]. *)
Definition stored : JMAPResponse :=
  {| methodResponses := Some [
       ("Email/set",
        Some {| list_mailboxes := None; list_emails := None;
                list_identities := None; list_threads := None; total := None;
                notCreated := None; notUpdated := None;
                created := Some {["draft-1714557600000" := "E77"]};
                error_description := None; error_type := None |}) ] |}.

Definition drafts_server : Network :=
  {| fetch := λ _ _ methodCalls,
       match methodCalls with
       | [ Mailbox_get _ ] => inl (http_ok folders)
       | _ => inl (http_ok stored)
       end;
     clock := 1714557600000;
     parseHeaders := λ _, inl tt |}.
End Drafting.

Module Outage.

(** The real client while the network is down. *)
Definition unreachable : Store.Answers :=
  System.client_answers (λ _, Scenario.dead_network).

(** A clock that tells nothing, where no date is read. *)
Definition no_clock (receivedAt : string) : Z := 0.
End Outage.

Module Watch.
Import Polling.

(** A client that knows the states [m-1] and [e-1] and has its callback
    registered, and the answer of a server on which a new email has
    arrived. *)
Definition watching : Poller :=
  {| pollingStates := {[ "Mailbox" := "m-1"; "Email" := "e-1" ]};
     stateChangeCallback := true |}.

Definition new_mail : list (string * option StateResult) :=
  [ ("Mailbox/get", Some {| state := Some "m-1" |});
    ("Email/get", Some {| state := Some "e-2" |}) ].
End Watch.

(** ** The vocabulary of the statements *)

Module ThreadUtilsSpec.
Import ThreadUtils.

Section WithRuntime.
Variable getTime : string → Z.

(** Newest first: no email is older than its successor. *)
Definition descending (l : list Email.t) : Prop :=
  Sorted (λ a b, getTime (Email.receivedAt b) ≤ getTime (Email.receivedAt a)) l.

(** What the first loop keeps true of [threadMap] once it has read the
    emails [seen]. *)
Definition grouped (threadMap : list (string * list Email.t))
    (seen : list Email.t) : Prop :=
  NoDup (JsMap.keys threadMap)
  ∧ Forall (λ kv, Forall (λ e, Email.threadId e = kv.1) kv.2) threadMap
  ∧ concat (JsMap.values threadMap) ≡ₚ seen.

(** What both loops keep true of [emailMap]: the keys are distinct and
    every email is stored under its own id. *)
Definition indexed (emailMap : list (string * Email.t)) : Prop :=
  NoDup (JsMap.keys emailMap) ∧ Forall (λ kv, Email.id kv.2 = kv.1) emailMap.

End WithRuntime.
End ThreadUtilsSpec.

Module ClientSpec.
Import Client.

(** What one batch request comes to when it is the [n]-th of its method. *)
Definition request_outcome (net : Network) (client : JMAPClient)
    (methodCalls : list MethodCall) (n : nat) : JMAPResponse + JsError :=
  (run net (request client methodCalls) n).1.

(** The store's id for the server id [id] of the account [accountId]. *)
Definition prefixed (accountId id : string) : string := accountId +:+ ":" +:+ id.


(** The server sent the mailbox [raw] for the account [accountId]. *)
Definition served_mailbox (net : Network) (client : JMAPClient)
    (accountId : string) (raw : JMAPMailbox) : Prop :=
  ∃ n response result,
    request_outcome net client [Mailbox_get accountId] n = inl response
    ∧ result_at response 0 = Some result
    ∧ raw ∈ default [] (list_mailboxes result).


(** What holds of a mailbox that [getAllMailboxes] returns. *)
Definition mailbox_ok (net : Network) (client : JMAPClient) (m : Mailbox.t) : Prop :=
  m = fallbackInbox client
  ∨ ∃ accountId raw,
      served_mailbox net client accountId raw
      ∧ Mailbox.accountId m = Some accountId
      ∧ if String.eqb accountId (Client.accountId client)
        then Mailbox.id m = mb_id raw
             ∧ Mailbox.parentId m = or_undefined (mb_parentId raw)
             ∧ Mailbox.isShared m = false
        else Mailbox.id m = prefixed accountId (mb_id raw)
             ∧ Mailbox.originalId m = Some (mb_id raw)
             ∧ Mailbox.parentId m
               = prefixed accountId <$> or_undefined (mb_parentId raw)
             ∧ Mailbox.isShared m = true.




End ClientSpec.

Module StoreSpec.
Import Store.

Section Run.
Variable settings : SettingsView.
Variable now : Z.

(** Whether the email is in the mailbox, and whether it is unread. *)
Definition member (e : Email.t) (m : Mailbox.t) : bool :=
  flag (Email.mailboxIds e) (Mailbox.id m).

Definition unread (e : Email.t) : bool :=
  negb (flag (Email.keywords e) "$seen").






Definition nonneg (m : Mailbox.t) : Prop :=
  0 ≤ Mailbox.totalEmails m ∧ 0 ≤ Mailbox.unreadEmails m
  ∧ 0 ≤ Mailbox.totalThreads m ∧ 0 ≤ Mailbox.unreadThreads m.

Definition counters_ok (st : EmailStore) : Prop := Forall nonneg (mailboxes st).

(** Every call that the store awaits from [client] resolves. *)
Definition accepting (answers : Answers) (client : Client.JMAPClient) : Prop :=
  ∀ (R : Type) n (c : ClientCall R), ∃ r, answers R n client c = inl r.

(** The store after an operation that ran alone. *)
Definition after (answers : Answers) (p : prog unit) (st : EmailStore) : EmailStore :=
  (run settings now answers p st []).1.1.


End Run.
End StoreSpec.

Module ThreadUtilsTerms.
Import ThreadUtils.

(** The emails of the thread [k] among [l], in the order of [l]. *)
Definition of_thread (k : string) (l : list Email.t) : list Email.t :=
  filter (λ e, Email.threadId e = k) l.

(** [keys] lists [ids] without repeats, in the order of first
    appearance. *)
Definition by_first_appearance (keys ids : list string) : Prop :=
  (∀ k, k ∈ keys ↔ k ∈ ids)
  ∧ ∀ i j k1 k2,
      keys !! i = Some k1 → keys !! j = Some k2 → (i < j)%nat →
      ∃ p, ids !! p = Some k1 ∧ ∀ q, ids !! q = Some k2 → (p < q)%nat.

(** The display name that the loop records for a sender. *)
Definition senderName (sender : EmailAddress.t) : string :=
  or_else (EmailAddress.name sender) (before_at (EmailAddress.email sender)).

Section WithRuntime.
Variable getTime : string → Z.


End WithRuntime.
End ThreadUtilsTerms.

Module SettingsTerms.

(** The text starts with a decimal digit, as every array index does. *)
Definition starts_with_digit (s : string) : Prop :=
  match s with
  | String c _ => (48 ≤ nat_of_ascii c ≤ 57)%nat
  | EmptyString => False
  end.

End SettingsTerms.

Module ClientTerms.
Import Client ClientSpec.

(** No request of the client gets an answer: it is not connected, the
    network is down, or the server answers with an error status or with
    text that is no JSON. *)
Definition cut_off (net : Network) (client : JMAPClient) : Prop :=
  ∀ methodCalls n, ∃ err, request_outcome net client methodCalls n = inr err.

End ClientTerms.

Module StoreTerms.
Import Store.

(** The calls that change the mail on the server and send a request; a
    batch over no id sends none. *)
Definition mutation {R : Type} (c : ClientCall R) : bool :=
  match c with
  | GetAllMailboxes | GetEmails _ _ _ _ => false
  | BatchMarkAsRead [] _ | BatchDeleteEmails [] | BatchMoveEmails [] _ => false
  | _ => true
  end.

(** Every mutation that [client] is asked for rejects with [err]. *)
Definition rejecting (answers : Answers) (client : Client.JMAPClient)
    (err : JsError) : Prop :=
  ∀ (R : Type) n (c : ClientCall R),
    mutation c = true → answers R n client c = inr err.

(** The call that [fetchEmails], [loadMoreEmails] and
    [refreshCurrentMailbox] issue for the mailbox [mailboxId] of the
    store, from [position] on. *)
Definition page_call (settings : SettingsView) (st : EmailStore)
    (mailboxId : string) (position : Z) : ClientCall Client.EmailsResult :=
  let mailbox := find_mailbox mailboxId (mailboxes st) in
  GetEmails (Some (or_else (mailbox ≫= Mailbox.originalId) mailboxId))
            (shared_accountId mailbox) (emailsPerPage settings) position.

(** The seen flag of the email [emailId] of the page, when it is there. *)
Definition seen_flag (emailId : string) (st : EmailStore) : option bool :=
  (λ e, flag (Email.keywords e) "$seen") <$> find_email emailId (emails st).

(** The mailbox with at least one unread email and thread. *)
Definition some_unread (m : Mailbox.t) : Mailbox.t :=
  Mailbox.with_counters (Mailbox.totalEmails m) (Z.max 1 (Mailbox.unreadEmails m))
    (Mailbox.totalThreads m) (Z.max 1 (Mailbox.unreadThreads m)) m.

(** The call by which [deleteEmail] removes the email [emailId]. *)
Definition delete_call (settings : SettingsView) (st : EmailStore)
    (emailId : string) : ClientCall unit :=
  let accountId :=
    shared_accountId (find_mailbox (selectedMailbox st) (mailboxes st)) in
  match deleteAction settings, find_trash accountId (mailboxes st) with
  | trash, Some trashMailbox =>
      MoveToTrash emailId
        (or_else (Mailbox.originalId trashMailbox) (Mailbox.id trashMailbox))
        accountId
  | _, _ => DeleteEmail emailId
  end.
End StoreTerms.

Module PollingTerms.
Import Polling.

(** The state that the entries report for [kind]: the [state] of the
    result of the method [kind/get]. *)
Definition reported (kind : string) (entries : list (string * option StateResult))
    : option string :=
  match find (λ entry, String.eqb entry.1 (kind +:+ "/get")) entries with
  | Some (_, Some result) => state result
  | _ => None
  end.

(** A state of [kind] is known and the entries report another one. *)
Definition differs (kind : string) (known : gmap string string)
    (entries : list (string * option StateResult)) : bool :=
  truthy (known !! kind) && truthy (reported kind entries)
  && negb (bool_decide (known !! kind = reported kind entries)).

(** One entry for a method, each with its result: the shape of the
    answer of a server to the batch of the poll. *)
Definition regular (entries : list (string * option StateResult)) : Prop :=
  NoDup (map fst entries) ∧ Forall (λ entry, is_Some entry.2) entries.

(** The reply with the status 200 that carries [entries]. *)
Definition answer (entries : list (string * option StateResult))
    : PollResponse + JsError :=
  inl {| poll_ok := true; poll_json := Some (Some entries) |}.

(** The poll got no answer that it can read: the request failed, the
    status is an error, the body is no JSON or it has no
    [methodResponses]. *)
Definition unanswered (reply : PollResponse + JsError) : Prop :=
  match reply with
  | inl response =>
      poll_ok response = false ∨ poll_json response = None
      ∨ poll_json response = Some None
  | inr _ => True
  end.

(** The scan after an entry of the method [kind/get] that reports [rep]. *)
Definition noted (kind : string) (rep : option string) (scan : Scan) : Scan :=
  default scan (check_kind kind (Some {| state := rep |}) scan).
End PollingTerms.

(** * Theorems *)

(** ** Lists *)

Lemma elem_of_concat {A : Type} (x : A) (ls : list (list A)) :
  x ∈ concat ls ↔ ∃ l, x ∈ l ∧ l ∈ ls.
Proof.
  induction ls as [|l0 ls IH]; simpl.
  - split; [by intros ?%elem_of_nil | by intros (l & _ & ?%elem_of_nil)].
  - rewrite elem_of_app, IH. split.
    + intros [H|(l & Hx & Hl)]; [exists l0 | exists l]; split; try done;
        [by left | by right].
    + intros (l & Hx & [->|Hl]%elem_of_cons); [by left | right; by exists l].
Qed.

(** ** Insertion-ordered maps *)

Module JsMapFacts.
Section Facts.
Context {V : Type}.
Implicit Types (m : list (string * V)) (k : string).

Lemma has_keys k m : JsMap.has k m = true ↔ k ∈ JsMap.keys m.
Proof.
  induction m as [|[k' v'] r IH]; simpl.
  - split; [discriminate | by intros ?%elem_of_nil].
  - rewrite elem_of_cons. destruct (String.eqb_spec k' k) as [->|Hne].
    + split; auto.
    + rewrite IH. split; [auto | intros [?|?]; [congruence | done]].
Qed.

Lemma not_has_keys k m : JsMap.has k m = false ↔ k ∉ JsMap.keys m.
Proof. rewrite <- has_keys. destruct (JsMap.has k m); split; congruence. Qed.

Lemma set_fresh k v m : JsMap.has k m = false → JsMap.set k v m = m ++ [(k, v)].
Proof.
  induction m as [|[k' v'] r IH]; simpl; [done|].
  destruct (String.eqb k' k); [discriminate|]. intros H. by rewrite IH.
Qed.

Lemma keys_set_present k v m : JsMap.has k m = true → JsMap.keys (JsMap.set k v m) = JsMap.keys m.
Proof.
  induction m as [|[k' v'] r IH]; simpl; [discriminate|].
  destruct (String.eqb k' k); simpl; [done|]. intros H. f_equal. by apply IH.
Qed.

Lemma keys_update k f m : JsMap.keys (JsMap.update k f m) = JsMap.keys m.
Proof.
  induction m as [|[k' v'] r IH]; simpl; [done|].
  destruct (String.eqb k' k); simpl; [done|]. by f_equal.
Qed.

Lemma update_fresh_last k f v m :
  JsMap.has k m = false → JsMap.update k f (m ++ [(k, v)]) = m ++ [(k, f v)].
Proof.
  induction m as [|[k' v'] r IH]; simpl.
  - by rewrite String.eqb_refl.
  - destruct (String.eqb k' k); [discriminate|]. intros H. by rewrite IH.
Qed.

Lemma has_set k k' v m : JsMap.has k (JsMap.set k' v m) = String.eqb k' k || JsMap.has k m.
Proof.
  induction m as [|[k0 v0] r IH]; simpl.
  - by destruct (String.eqb k' k).
  - destruct (String.eqb_spec k0 k') as [->|Hne]; simpl.
    + destruct (String.eqb k' k); done.
    + rewrite IH. destruct (String.eqb k0 k), (String.eqb k' k); done.
Qed.

End Facts.
End JsMapFacts.

(** ** Thread grouping *)

Module ThreadUtilsProofs.
Import ThreadUtils ThreadUtilsSpec.

Section WithRuntime.
Variable getTime : string → Z.
Variable toLowerCase : string → string.

Abbreviation sort := (sort_newest_first getTime).
Abbreviation time e := (getTime (Email.receivedAt e)).

(** *** The sort *)

Lemma insert_desc_perm x l : insert_desc getTime x l ≡ₚ x :: l.
Proof.
  induction l as [|y r IH]; simpl; [done|].
  destruct (time x <? time y); [|done].
  rewrite IH. apply Permutation_swap.
Qed.

Lemma sort_perm l : sort l ≡ₚ l.
Proof.
  induction l as [|x l IH]; simpl; [done|].
  by rewrite insert_desc_perm, IH.
Qed.

Lemma insert_desc_descending x l :
  descending getTime l → descending getTime (insert_desc getTime x l).
Proof.
  unfold descending. induction l as [|y r IH]; simpl; intros Hs.
  - repeat constructor.
  - destruct (Z.ltb_spec (time x) (time y)) as [Hlt|Hge].
    + inversion Hs as [|? ? Hr Hhd]; subst. constructor; [by apply IH|].
      destruct r as [|z r']; simpl.
      * constructor. lia.
      * inversion Hhd; subst.
        destruct (time x <? time z); constructor; lia.
    + constructor; [done|]. constructor. lia.
Qed.

Lemma sort_descending l : descending getTime (sort l).
Proof.
  induction l as [|x l IH]; simpl; [constructor|].
  by apply insert_desc_descending.
Qed.

(** The stable sort leaves a list alone that is newest first already. *)
Lemma sort_of_descending l : descending getTime l → sort l = l.
Proof.
  unfold descending. induction l as [|x l IH]; simpl; intros Hs; [done|].
  inversion Hs as [|? ? Hr Hhd]; subst. rewrite IH by done.
  destruct l as [|y r]; simpl; [done|].
  inversion Hhd; subst.
  destruct (Z.ltb_spec (time x) (time y)); [lia | done].
Qed.

Lemma sort_idempotent l : sort (sort l) = sort l.
Proof. apply sort_of_descending, sort_descending. Qed.

(** *** [groupEmailsByThread] *)

Lemma threadMap_add_unfold threadMap email :
  threadMap_add threadMap email =
    if JsMap.has (Email.threadId email) threadMap
    then JsMap.update (Email.threadId email) (λ l, l ++ [email]) threadMap
    else threadMap ++ [(Email.threadId email, [email])].
Proof.
  unfold threadMap_add.
  destruct (JsMap.has (Email.threadId email) threadMap) eqn:Hhas; [done|].
  rewrite (JsMapFacts.set_fresh _ _ _ Hhas).
  by rewrite (JsMapFacts.update_fresh_last _ _ _ _ Hhas).
Qed.

Lemma update_push_values (threadMap : list (string * list Email.t)) email :
  JsMap.has (Email.threadId email) threadMap = true →
  concat (JsMap.values
            (JsMap.update (Email.threadId email) (λ l, l ++ [email]) threadMap))
  ≡ₚ concat (JsMap.values threadMap) ++ [email].
Proof.
  induction threadMap as [|[k l] r IH]; simpl; [discriminate|].
  destruct (String.eqb k (Email.threadId email)); simpl; intros Hhas.
  - rewrite <- !app_assoc. apply Permutation_app_head, Permutation_app_comm.
  - rewrite IH by done. by rewrite app_assoc.
Qed.

Lemma update_push_threads (threadMap : list (string * list Email.t)) email :
  Forall (λ kv, Forall (λ e, Email.threadId e = kv.1) kv.2) threadMap →
  Forall (λ kv, Forall (λ e, Email.threadId e = kv.1) kv.2)
         (JsMap.update (Email.threadId email) (λ l, l ++ [email]) threadMap).
Proof.
  induction 1 as [|[k l] r Hk Hr IH]; simpl; [constructor|].
  destruct (String.eqb_spec k (Email.threadId email)) as [->|Hne].
  - constructor; [|done]. simpl in *. apply Forall_app. split; [done|].
    by constructor.
  - by constructor.
Qed.

Lemma grouped_add threadMap seen email :
  grouped threadMap seen → grouped (threadMap_add threadMap email) (seen ++ [email]).
Proof.
  intros (Hnd & Hth & Hperm). rewrite threadMap_add_unfold.
  destruct (JsMap.has (Email.threadId email) threadMap) eqn:Hhas.
  - split; [by rewrite JsMapFacts.keys_update|].
    split; [by apply update_push_threads|].
    rewrite update_push_values by done. by rewrite Hperm.
  - apply JsMapFacts.not_has_keys in Hhas.
    split; [|split].
    + unfold JsMap.keys in *. rewrite map_app. simpl.
      apply NoDup_app. split; [done|]. split; [|apply NoDup_singleton].
      intros k Hk ->%list_elem_of_singleton. done.
    + apply Forall_app. split; [done|]. repeat constructor.
    + unfold JsMap.values in *. rewrite map_app, concat_app. simpl.
      by rewrite Hperm.
Qed.

Lemma grouped_foldl emails threadMap seen :
  grouped threadMap seen →
  grouped (foldl threadMap_add threadMap emails) (seen ++ emails).
Proof.
  revert threadMap seen.
  induction emails as [|e l IH]; simpl; intros threadMap seen H.
  - by rewrite app_nil_r.
  - replace (seen ++ e :: l) with ((seen ++ [e]) ++ l) by by rewrite <- app_assoc.
    by apply IH, grouped_add.
Qed.

Lemma grouped_all emails : grouped (foldl threadMap_add [] emails) emails.
Proof.
  apply (grouped_foldl emails [] []).
  split; [constructor|]. split; [constructor | done].
Qed.

Lemma groups_unfold emails :
  groupEmailsByThread getTime toLowerCase emails =
    map (λ kv, makeGroup toLowerCase kv.1 (sort kv.2))
        (foldl threadMap_add [] emails).
Proof. by destruct emails. Qed.

(** C7.  [groupEmailsByThread] partitions its input: the groups have
    distinct thread ids, a group holds only emails of its thread, the
    groups together hold the input emails, each as often as the input
    does, every input email is in the group of its thread, and the
    [emailCount]s add up to the length of the input. *)
Theorem groupEmailsByThread_partition (emails : list Email.t) :
  let groups := groupEmailsByThread getTime toLowerCase emails in
  NoDup (map ThreadGroup.threadId groups)
  ∧ (∀ g e, g ∈ groups → e ∈ ThreadGroup.emails g →
            Email.threadId e = ThreadGroup.threadId g)
  ∧ concat (map ThreadGroup.emails groups) ≡ₚ emails
  ∧ (∀ e, e ∈ emails →
          ∃ g, g ∈ groups ∧ ThreadGroup.threadId g = Email.threadId e
               ∧ e ∈ ThreadGroup.emails g)
  ∧ sum_list (map ThreadGroup.emailCount groups) = length emails.
Proof.
  intros groups. subst groups. rewrite groups_unfold.
  destruct (grouped_all emails) as (Hnd & Hth & Hperm).
  set (threadMap := foldl threadMap_add [] emails) in *. clearbody threadMap.
  assert (Hids : map ThreadGroup.threadId
            (map (λ kv, makeGroup toLowerCase kv.1 (sort kv.2)) threadMap)
          = JsMap.keys threadMap).
  { rewrite map_map. done. }
  assert (Hin : ∀ g e,
            g ∈ map (λ kv, makeGroup toLowerCase kv.1 (sort kv.2)) threadMap →
            e ∈ ThreadGroup.emails g →
            Email.threadId e = ThreadGroup.threadId g).
  { intros g e Hg He. apply list_elem_of_fmap in Hg as ([k l] & -> & Hkl).
    simpl in *. rewrite Forall_forall in Hth. specialize (Hth _ Hkl).
    simpl in Hth. rewrite Forall_forall in Hth. apply Hth.
    by rewrite <- (sort_perm l). }
  assert (Hcat : concat (map ThreadGroup.emails
            (map (λ kv, makeGroup toLowerCase kv.1 (sort kv.2)) threadMap))
          ≡ₚ emails).
  { rewrite <- Hperm. clear. induction threadMap as [|[k l] r IH]; simpl; [done|].
    by rewrite sort_perm, IH. }
  split; [by rewrite Hids|]. split; [done|]. split; [done|]. split.
  - intros e He. rewrite <- Hcat in He.
    apply elem_of_concat in He as (l & Hel & Hl).
    apply list_elem_of_fmap in Hl as (g & -> & Hg).
    exists g. split; [done|]. split; [|done]. symmetry. by apply Hin.
  - rewrite <- (Permutation_length Hcat). clear.
    induction threadMap as [|[k l] r IH]; simpl; [done|].
    rewrite length_app, IH. done.
Qed.

(** *** [mergeThreadEmails] *)

Lemma indexed_set emailMap email :
  indexed emailMap → indexed (JsMap.set (Email.id email) email emailMap).
Proof.
  intros [Hnd Hid].
  destruct (JsMap.has (Email.id email) emailMap) eqn:Hhas.
  - split; [by rewrite JsMapFacts.keys_set_present|].
    clear Hnd Hhas. induction Hid as [|[k v] r Hk Hr IH]; simpl.
    + by repeat constructor.
    + destruct (String.eqb_spec k (Email.id email)) as [->|Hne];
        by constructor.
  - rewrite JsMapFacts.set_fresh by done.
    apply JsMapFacts.not_has_keys in Hhas. split.
    + unfold JsMap.keys in *. rewrite map_app. simpl.
      apply NoDup_app. split; [done|]. split; [|apply NoDup_singleton].
      by intros k Hk ->%list_elem_of_singleton.
    + apply Forall_app. split; [done|]. by repeat constructor.
Qed.

Lemma indexed_existing emails emailMap :
  indexed emailMap → indexed (foldl emailMap_existing emailMap emails).
Proof.
  revert emailMap. induction emails as [|e l IH]; simpl; [done|].
  intros emailMap H. by apply IH, indexed_set.
Qed.

Lemma indexed_fetched emails emailMap :
  indexed emailMap → indexed (foldl emailMap_fetched emailMap emails).
Proof.
  revert emailMap. induction emails as [|e l IH]; simpl; [done|].
  intros emailMap H. apply IH. unfold emailMap_fetched.
  destruct (JsMap.has (Email.id e) emailMap); [done|]. by apply indexed_set.
Qed.

Lemma has_fetched_mono k emails (emailMap : list (string * Email.t)) :
  JsMap.has k emailMap = true →
  JsMap.has k (foldl emailMap_fetched emailMap emails) = true.
Proof.
  revert emailMap. induction emails as [|e l IH]; simpl; [done|].
  intros emailMap H. apply IH. unfold emailMap_fetched.
  destruct (JsMap.has (Email.id e) emailMap); [done|].
  rewrite JsMapFacts.has_set, H. apply orb_true_r.
Qed.

(** After the second loop every fetched id is a key. *)
Lemma has_fetched emails (emailMap : list (string * Email.t)) e :
  e ∈ emails →
  JsMap.has (Email.id e) (foldl emailMap_fetched emailMap emails) = true.
Proof.
  revert emailMap. induction emails as [|e' l IH]; simpl; intros emailMap.
  - by intros ?%elem_of_nil.
  - intros [->|Hin]%elem_of_cons; [|by apply IH].
    apply has_fetched_mono. unfold emailMap_fetched.
    destruct (JsMap.has (Email.id e') emailMap) eqn:Hhas; [done|].
    by rewrite JsMapFacts.has_set, String.eqb_refl.
Qed.

(** The second loop adds nothing when every fetched id is a key. *)
Lemma fetched_known emails (emailMap : list (string * Email.t)) :
  (∀ e, e ∈ emails → JsMap.has (Email.id e) emailMap = true) →
  foldl emailMap_fetched emailMap emails = emailMap.
Proof.
  induction emails as [|e l IH]; simpl; intros H; [done|].
  unfold emailMap_fetched at 2. rewrite (H e) by by left.
  apply IH. intros e' He'. apply H. by right.
Qed.

(** The first loop over emails with distinct ids stores them in order. *)
Lemma existing_distinct emails (emailMap : list (string * Email.t)) :
  NoDup (JsMap.keys emailMap ++ map Email.id emails) →
  foldl emailMap_existing emailMap emails =
    emailMap ++ map (λ e, (Email.id e, e)) emails.
Proof.
  revert emailMap. induction emails as [|e l IH]; simpl; intros emailMap Hnd.
  - by rewrite app_nil_r.
  - unfold emailMap_existing at 2.
    assert (Hfresh : JsMap.has (Email.id e) emailMap = false).
    { apply JsMapFacts.not_has_keys. intros Hin.
      apply NoDup_app in Hnd as (_ & Hdisj & _).
      apply (Hdisj _ Hin). by left. }
    rewrite JsMapFacts.set_fresh by done.
    rewrite IH.
    + by rewrite <- app_assoc.
    + unfold JsMap.keys in *. rewrite map_app. simpl.
      by rewrite <- app_assoc.
Qed.

Lemma ids_of_indexed (emailMap : list (string * Email.t)) :
  indexed emailMap → map Email.id (JsMap.values emailMap) = JsMap.keys emailMap.
Proof.
  intros [_ Hid]. induction Hid as [|[k v] r Hk Hr IH]; simpl; [done|].
  simpl in Hk. by rewrite Hk, IH.
Qed.

(** C8.  [mergeThreadEmails] is idempotent in the fetched emails: merging
    the same fetched list into the merged group again returns the merged
    group, with the same emails in the same order and the same
    aggregates. *)
Theorem mergeThreadEmails_idempotent (existingGroup : ThreadGroup.t)
    (fetchedEmails : list Email.t) :
  mergeThreadEmails getTime toLowerCase
    (mergeThreadEmails getTime toLowerCase existingGroup fetchedEmails)
    fetchedEmails
  = mergeThreadEmails getTime toLowerCase existingGroup fetchedEmails.
Proof.
  unfold mergeThreadEmails at 1 3. simpl.
  set (emailMap :=
         foldl emailMap_fetched
           (foldl emailMap_existing [] (ThreadGroup.emails existingGroup))
           fetchedEmails).
  assert (Hidx : indexed emailMap).
  { apply indexed_fetched, indexed_existing. split; constructor. }
  assert (Hfetched : ∀ e, e ∈ fetchedEmails → JsMap.has (Email.id e) emailMap = true).
  { intros e He. by apply has_fetched. }
  clearbody emailMap.
  set (merged := sort (JsMap.values emailMap)).
  assert (Hids : map Email.id merged ≡ₚ JsMap.keys emailMap).
  { rewrite <- (ids_of_indexed _ Hidx). subst merged.
    apply Permutation_map, sort_perm. }
  assert (Hnd : NoDup (map Email.id merged)).
  { rewrite Hids. apply Hidx. }
  rewrite (existing_distinct merged []) by done. simpl.
  rewrite fetched_known.
  - unfold JsMap.values. rewrite map_map. simpl. rewrite map_id.
    subst merged. by rewrite sort_idempotent.
  - intros e He. apply JsMapFacts.has_keys.
    unfold JsMap.keys. rewrite map_map. simpl.
    change (Email.id e ∈ map Email.id merged). rewrite Hids.
    apply JsMapFacts.has_keys. by apply Hfetched.
Qed.

End WithRuntime.
End ThreadUtilsProofs.

(** ** Settings *)

Module SettingsProofs.
Import Settings.

Lemma recognized_keys (key : string) :
  key ∈ dom DEFAULT_SETTINGS ↔ key ∈ exported_keys.
Proof.
  unfold DEFAULT_SETTINGS, exported_keys. rewrite dom_list_to_map_L.
  rewrite elem_of_list_to_set. simpl. done.
Qed.

Section WithRuntime.
Variable JSON_parse : string → option json.
Variable JSON_stringify : json → string.
Variable inherited : string → bool.

Lemma import_key_unfold key value (state : gmap string json) :
  import_key inherited key value state =
    if bool_decide (key ∈ dom DEFAULT_SETTINGS) then <[key := value]> state
    else state.
Proof.
  unfold import_key, in_DEFAULT_SETTINGS, set_field.
  destruct (bool_decide (key ∈ dom DEFAULT_SETTINGS)); simpl; [done|].
  by destruct (inherited key).
Qed.

(** The state after the [forEach] of [importSettings], field by field. *)
Lemma import_lookup (state m : gmap string json) (key : string) :
  map_fold (import_key inherited) state m !! key =
    if bool_decide (key ∈ dom DEFAULT_SETTINGS)
    then (m ∪ state) !! key else state !! key.
Proof.
  revert key.
  apply (map_fold_weak_ind
           (λ r m, ∀ key, r !! key =
              if bool_decide (key ∈ dom DEFAULT_SETTINGS)
              then (m ∪ state) !! key else state !! key)).
  - intros key. rewrite (left_id_L ∅ (∪)). by case_bool_decide.
  - intros i x m' r Hi IH key. rewrite import_key_unfold.
    assert (Hu : (<[i:=x]> m' ∪ state) !! key =
                   if decide (i = key) then Some x else (m' ∪ state) !! key).
    { rewrite <- insert_union_l. apply lookup_insert. }
    rewrite Hu. specialize (IH key).
    destruct (decide (i = key)) as [->|Hne].
    + destruct (bool_decide (key ∈ dom DEFAULT_SETTINGS)) eqn:Hk; [|done].
      by rewrite lookup_insert_eq.
    + destruct (bool_decide (i ∈ dom DEFAULT_SETTINGS)); [|done].
      by rewrite lookup_insert_ne.
Qed.


Lemma object_of_keys_lookup (state : gmap string json) (keys : list string) key :
  (list_to_map (omap (λ k, (λ v, (k, v)) <$> state !! k) keys)
     : gmap string json) !! key
  = if bool_decide (key ∈ keys) then state !! key else None.
Proof.
  unfold omap. induction keys as [|k keys IH]; simpl.
  - by rewrite lookup_empty.
  - assert (Hother : k ≠ key →
              bool_decide (key ∈ k :: keys) = bool_decide (key ∈ keys)).
    { intros Hne. apply bool_decide_ext. rewrite elem_of_cons.
      split; [intros [Heq|Hin]; [by subst | done] | by right]. }
    destruct (state !! k) as [v|] eqn:Hk; simpl.
    + rewrite lookup_insert. destruct (decide (k = key)) as [->|Hne].
      * rewrite bool_decide_eq_true_2 by by left. done.
      * by rewrite IH, Hother.
    + rewrite IH. destruct (decide (k = key)) as [->|Hne].
      * rewrite (bool_decide_eq_true_2 (key ∈ key :: keys)) by by left.
        rewrite Hk. by destruct (bool_decide (key ∈ keys)).
      * by rewrite Hother.
Qed.

Lemma settingsObject_lookup (state : gmap string json) key :
  settingsObject state !! key =
    if bool_decide (key ∈ dom DEFAULT_SETTINGS) then state !! key else None.
Proof.
  unfold settingsObject. rewrite object_of_keys_lookup.
  by rewrite (bool_decide_ext _ _ (recognized_keys key)).
Qed.




End WithRuntime.


End SettingsProofs.

(** ** The protocol client *)

Module ClientProofs.
Import Client ClientSpec.

(** *** Running binds and handlers *)

Lemma run_bind {A B : Type} (net : Network) (m : prog A) (f : A → prog B) (n : nat) :
  run net (m ≫= f) n =
    match run net m n with
    | (inl a, n') => run net (f a) n'
    | (inr err, n') => (inr err, n')
    end.
Proof.
  revert n. induction m as [a|err|R e k IH]; intros n; [done | done |].
  destruct e; simpl; apply IH.
Qed.

Lemma run_try_catch {A : Type} (net : Network) (m : prog A)
    (handler : JsError → prog A) (n : nat) :
  run net (Prog.try_catch m handler) n =
    match run net m n with
    | (inl a, n') => (inl a, n')
    | (inr err, n') => run net (handler err) n'
    end.
Proof.
  revert n. induction m as [a|err|R e k IH]; intros n; [done | done |].
  destruct e; simpl; apply IH.
Qed.

Lemma run_request net client methodCalls n :
  run net (request client methodCalls) n =
    (request_outcome net client methodCalls n,
     if String.eqb (apiUrl client) "" then n else S n).
Proof.
  unfold request_outcome, request.
  destruct (String.eqb (apiUrl client) ""); [done|].
  simpl. destruct (fetch net n (apiUrl client) methodCalls) as [http|err]; simpl; [|done].
  destruct (negb (ok http)); simpl; [done|]. by destruct (json http).
Qed.

(** A request and what follows it. *)
Lemma run_request_bind {B : Type} net client methodCalls (f : JMAPResponse → prog B) n :
  run net (request client methodCalls ≫= f) n =
    match request_outcome net client methodCalls n with
    | inl response =>
        run net (f response) (if String.eqb (apiUrl client) "" then n else S n)
    | inr err => (inr err, if String.eqb (apiUrl client) "" then n else S n)
    end.
Proof. rewrite run_bind, run_request. by destruct (request_outcome _ _ _ _). Qed.

Section WithRuntime.
Variable getTime : string → Z.

(** *** [getEmails] *)

Lemma run_getEmails net client mailboxId accountId limit position n :
  (run net (getEmails client mailboxId accountId limit position) n).1 =
    inl match request_outcome net client
                [ Email_query (or_else accountId (Client.accountId client))
                    (or_undefined mailboxId) None limit (Some position);
                  Email_get (or_else accountId (Client.accountId client))
                    ResultOfQuery false ] n with
        | inl response => getEmails_result client accountId limit position response
        | inr _ => emptyResult
        end.
Proof.
  unfold getEmails. rewrite run_try_catch, run_request_bind.
  by destruct (request_outcome _ _ _ _).
Qed.


(** *** Namespacing of shared accounts *)

Lemma append_inj (s a b : string) : s +:+ a = s +:+ b → a = b.
Proof. induction s as [|c s IH]; simpl; [done|]. intros [=]. by apply IH. Qed.

#[local] Instance prefixed_inj accountId : Inj (=) (=) (prefixed accountId).
Proof. intros a b H. unfold prefixed in H. by apply append_inj, append_inj in H. Qed.



Lemma toMailbox_ok net client accountId account raw :
  served_mailbox net client accountId raw →
  mailbox_ok net client (toMailbox client accountId account raw).
Proof.
  intros Hs. right. exists accountId, raw. split; [done|]. split; [done|].
  unfold toMailbox. simpl.
  destruct (String.eqb accountId (Client.accountId client)); simpl.
  - split; [done|]. split; [|done].
    unfold or_undefined. destruct (mb_parentId raw) as [p|]; [|done].
    simpl. by destruct (String.eqb p "").
  - split; [done|]. split; [done|]. split; [|done].
    unfold or_undefined. destruct (mb_parentId raw) as [p|]; [|done].
    simpl. by destruct (String.eqb p "").
Qed.

Lemma toPrimaryMailbox_ok net client raw :
  served_mailbox net client (Client.accountId client) raw →
  mailbox_ok net client (toPrimaryMailbox client raw).
Proof.
  intros Hs. right. exists (Client.accountId client), raw.
  split; [done|]. split; [done|]. by rewrite String.eqb_refl.
Qed.

(** [getMailboxes] does not throw. *)
Lemma run_getMailboxes net client n :
  ∃ l n', run net (getMailboxes client) n = (inl l, n')
          ∧ Forall (mailbox_ok net client) l.
Proof.
  unfold getMailboxes. rewrite run_try_catch, run_request_bind.
  destruct (request_outcome net client [Mailbox_get (accountId client)] n)
    as [response|err] eqn:Hout; simpl.
  - destruct (method_is response 0 "Mailbox/get"); simpl.
    + destruct (result_at response 0) as [result|] eqn:Hres; simpl.
      * eexists _, _. split; [done|]. apply Forall_forall. intros m Hm.
        apply list_elem_of_fmap in Hm as (raw & -> & Hraw).
        apply toPrimaryMailbox_ok. by exists n, response, result.
      * eexists _, _. split; [done|]. repeat constructor.
    + eexists _, _. split; [done|]. repeat constructor.
  - eexists _, _. split; [done|]. repeat constructor.
Qed.

Lemma run_getAllMailboxes_loop net client accountIds allMailboxes n :
  Forall (mailbox_ok net client) allMailboxes →
  ∃ l n', run net (getAllMailboxes_loop client accountIds allMailboxes) n = (inl l, n')
          ∧ Forall (mailbox_ok net client) l.
Proof.
  revert allMailboxes n.
  induction accountIds as [|[accountId account] rest IH]; intros allMailboxes n Hall.
  - by eexists _, _.
  - simpl. rewrite run_bind, run_try_catch, run_request_bind.
    destruct (request_outcome net client [Mailbox_get accountId] n)
      as [response|err] eqn:Hout; simpl; [|by apply IH].
    destruct (method_is response 0 "Mailbox/get"); simpl; [|by apply IH].
    destruct (result_at response 0) as [result|] eqn:Hres; simpl; [|by apply IH].
    apply IH. apply Forall_app. split; [done|].
    apply Forall_forall. intros m Hm.
    apply list_elem_of_fmap in Hm as (raw & -> & Hraw).
    apply toMailbox_ok. by exists n, response, result.
Qed.

(** [getAllMailboxes] does not throw either. *)
Lemma run_getAllMailboxes net client n :
  ∃ l n', run net (getAllMailboxes client) n = (inl l, n')
          ∧ Forall (mailbox_ok net client) l.
Proof.
  unfold getAllMailboxes. rewrite run_try_catch.
  destruct (accounts client) as [|a rest].
  - destruct (run_getMailboxes net client n) as (l & n' & -> & Hl). by exists l, n'.
  - destruct (run_getAllMailboxes_loop net client (a :: rest) [] n) as (l & n' & -> & Hl);
      [constructor|]. by exists l, n'.
Qed.
Lemma isSharedAccount_Some client accountId :
  isSharedAccount client accountId = true →
  ∃ A, accountId = Some A ∧ A ≠ "" ∧ A ≠ Client.accountId client.
Proof.
  unfold isSharedAccount. destruct accountId as [A|]; simpl; [|done].
  intros [H1 H2]%andb_true_iff. exists A. split; [done|].
  split; intros ->.
  - by rewrite String.eqb_refl in H1.
  - by rewrite String.eqb_refl in H2.
Qed.




Lemma run_getThread net client threadId accountId n :
  ∃ thread n', run net (getThread client threadId accountId) n = (inl thread, n').
Proof.
  unfold getThread. rewrite run_try_catch, run_request_bind.
  destruct (request_outcome _ _ _ _) as [response|err]; simpl; [|by eexists _, _].
  destruct (method_is response 0 "Thread/get"); simpl; [|by eexists _, _].
  destruct (result_at response 0) as [result|]; simpl; by eexists _, _.
Qed.



(** *** Mutations and the error maps of the response *)




End WithRuntime.

(** *** The theorems on the scenarios *)





End ClientProofs.

(** ** The mail store *)

Module StoreProofs.
Import Store StoreSpec.

Section Run.
Variable settings : SettingsView.
Variable now : Z.

(** *** Running binds and handlers *)

Lemma run_then {A B : Type} answers (m : prog A) (f : A → prog B) st calls :
  run settings now answers (m ≫= f) st calls =
    match run settings now answers m st calls with
    | (st', inl a, calls') => run settings now answers (f a) st' calls'
    | (st', inr err, calls') => (st', inr err, calls')
    end.
Proof.
  revert st calls. induction m as [a|err|R e k IH]; intros st calls; [done | done |].
  destruct e; simpl; apply IH.
Qed.

Lemma run_caught {A : Type} answers (m : prog A) (handler : JsError → prog A)
    st calls :
  run settings now answers (Prog.try_catch m handler) st calls =
    match run settings now answers m st calls with
    | (st', inl a, calls') => (st', inl a, calls')
    | (st', inr err, calls') => run settings now answers (handler err) st' calls'
    end.
Proof.
  revert st calls. induction m as [a|err|R e k IH]; intros st calls; [done | done |].
  destruct e; simpl; apply IH.
Qed.

Lemma run_get answers st calls :
  run settings now answers get st calls = (st, inl st, calls).
Proof. done. Qed.

Lemma run_set answers update st calls :
  run settings now answers (set update) st calls = (update st, inl tt, calls).
Proof. done. Qed.

Lemma run_call {R : Type} answers client (c : ClientCall R) st calls :
  run settings now answers (call client c) st calls
  = (st, answers R (length calls) client c, calls ++ [issued client c]).
Proof. unfold call, Prog.await. simpl. by destruct (answers R _ _ _). Qed.

(** *** Operations on an email that is not in the list *)

Lemma find_email_absent emailId (l : list Email.t) :
  (∀ e, e ∈ l → Email.id e ≠ emailId) → find_email emailId l = None.
Proof.
  unfold find_email. induction l as [|e l IH]; simpl; intros H; [done|].
  destruct (String.eqb_spec (Email.id e) emailId) as [Heq|Hne].
  - exfalso. apply (H e); [by left | done].
  - apply IH. intros e' He'. apply H. by right.
Qed.

(** C10.  For an id that no email of the list has, [markAsRead],
    [toggleStar], [deleteEmail] and [moveToMailbox] finish at once: they
    return without a throw, never reach the [await] of a client call,
    and leave the store as it was, the error field included. *)
Theorem absent_email_is_noop (client : Client.JMAPClient) (emailId : string)
    (st : EmailStore) :
  (∀ e, e ∈ emails st → Email.id e ≠ emailId) →
  (∀ read, run_sync settings now (markAsRead client emailId read) st
           = (st, Finished (inl tt)))
  ∧ run_sync settings now (toggleStar client emailId) st = (st, Finished (inl tt))
  ∧ run_sync settings now (deleteEmail client emailId) st = (st, Finished (inl tt))
  ∧ (∀ destinationMailboxId,
       run_sync settings now (moveToMailbox client emailId destinationMailboxId) st
       = (st, Finished (inl tt)))
  ∧ (∀ answers calls,
       (∀ read, run settings now answers (markAsRead client emailId read) st calls
                = (st, inl tt, calls))
       ∧ run settings now answers (toggleStar client emailId) st calls
         = (st, inl tt, calls)
       ∧ run settings now answers (deleteEmail client emailId) st calls
         = (st, inl tt, calls)
       ∧ (∀ destinationMailboxId,
            run settings now answers (moveToMailbox client emailId destinationMailboxId)
                st calls
            = (st, inl tt, calls))).
Proof.
  intros Habsent. apply find_email_absent in Habsent.
  repeat split; intros.
  - unfold markAsRead. simpl.
    destruct (bool_decide _); simpl; [done|]. by rewrite Habsent.
  - unfold toggleStar. simpl. by rewrite Habsent.
  - unfold deleteEmail. simpl. by rewrite Habsent.
  - unfold moveToMailbox. simpl. by rewrite Habsent.
  - unfold markAsRead. simpl.
    destruct (bool_decide _); simpl; [done|]. by rewrite Habsent.
  - unfold toggleStar. simpl. by rewrite Habsent.
  - unfold deleteEmail. simpl. by rewrite Habsent.
  - unfold moveToMailbox. simpl. by rewrite Habsent.
Qed.

(** *** Counters *)

Lemma mailbox_eta (m : Mailbox.t) :
  Mailbox.with_counters (Mailbox.totalEmails m) (Mailbox.unreadEmails m)
    (Mailbox.totalThreads m) (Mailbox.unreadThreads m) m = m.
Proof. by destruct m. Qed.


Lemma map_ext_Forall {A B : Type} (P : A → Prop) (f g : A → B) (l : list A) :
  Forall P l → (∀ x, P x → f x = g x) → map f l = map g l.
Proof.
  intros Hl Hfg. induction Hl as [|x l Hx Hl IH]; simpl; [done|].
  by rewrite Hfg, IH.
Qed.

#[local] Arguments Mailbox.with_counters : simpl never.












(** *** The counters stay at zero or above *)











End Run.

(** *** The theorems on the scenarios *)

(** The real client in front of the obliging server resolves every
    call. *)
Lemma obliging_accepts : accepting Scenario.obliging Scenario.client.
Proof.
  intros R n c. unfold Scenario.obliging, System.client_answers.
  destruct c; simpl System.implementation.
  - destruct (ClientProofs.run_getAllMailboxes Scenario.obliging_server
                Scenario.client 0) as (l & n' & -> & _).
    by eexists.
  - rewrite ClientProofs.run_getEmails. by eexists.
  - by eexists.
  - by eexists.
  - by eexists.
  - by eexists.
  - by eexists.
  - destruct emailIds; by eexists.
  - destruct emailIds; by eexists.
  - destruct emailIds; by eexists.
Qed.

(** No email of the page has the id [M9]: nothing happens. *)
Lemma absent_id_scenario :
  run_sync Scenario.settings 0 (markAsRead Scenario.client "M9" true) Scenario.store
  = (Scenario.store, Finished (inl tt))
  ∧ run_sync Scenario.settings 0 (deleteEmail Scenario.client "M9") Scenario.store
    = (Scenario.store, Finished (inl tt)).
Proof.
  assert (Habsent : ∀ e, e ∈ emails Scenario.store → Email.id e ≠ "M9").
  { apply Forall_forall. by repeat constructor. }
  destruct (absent_email_is_noop Scenario.settings 0 Scenario.client "M9"
              Scenario.store Habsent) as (Hread & _ & Hdelete & _).
  split; [apply Hread | apply Hdelete].
Defined.



End StoreProofs.

(** ** The store on top of the client *)

Module SystemProofs.
Import Store System.

Section Schedule.
Variable settings : SettingsView.
Variable now : Z.

(** The first stretch of a [markAsRead] that has work to do: the key is
    entered in the processing set and the call is awaited; whatever the
    call answers, the rest runs to its end without another call. *)
Lemma markAsRead_begins client emailId read st email :
  find_email emailId (emails st) = Some email →
  flag (Email.keywords email) "$seen" ≠ read →
  processingKey emailId read ∉ processingReadStatus st →
  ∃ k,
    run_sync settings now (markAsRead client emailId read) st
    = (set_processingReadStatus
         (processingReadStatus st ∪ {[processingKey emailId read]}) st,
       Awaiting client
         (MarkAsRead emailId read
            (shared_accountId (find_mailbox (selectedMailbox st) (mailboxes st))))
         k)
    ∧ ∀ r st', ∃ st'' result, run_sync settings now (k r) st' = (st'', Finished result).
Proof.
  intros Hfind Hflag Hkey.
  assert (Hneq : Bool.eqb (flag (Email.keywords email) "$seen") read = false).
  { by apply Bool.eqb_false_iff. }
  unfold markAsRead. simpl.
  rewrite (bool_decide_eq_false_2 _ Hkey). simpl.
  rewrite Hfind. simpl. rewrite Hneq. simpl.
  eexists. split; [reflexivity|].
  intros [[]|err] st'; simpl; by eexists _, _.
Qed.

(** A [markAsRead] whose key is in the processing set returns at once. *)
Lemma markAsRead_guarded client emailId read st :
  processingKey emailId read ∈ processingReadStatus st →
  run_sync settings now (markAsRead client emailId read) st = (st, Finished (inl tt)).
Proof.
  intros Hkey. unfold markAsRead. simpl.
  by rewrite (bool_decide_eq_true_2 _ Hkey).
Qed.

(** C2.  [markAsRead] on an email whose seen flag is the target already
    returns without a call and without a change of the store.  When a
    second [markAsRead] with the same id and target starts while the
    first awaits its call, the second returns at once: it issues no
    call and changes nothing, so one call is issued in all, and when
    that call resolves or rejects the store ends as after the first
    invocation alone. *)
Theorem markAsRead_idempotent_and_deduplicated (client : Client.JMAPClient)
    (emailId : string) (read : bool) (st : EmailStore) :
  (∀ email,
     find_email emailId (emails st) = Some email →
     flag (Email.keywords email) "$seen" = read →
     run_sync settings now (markAsRead client emailId read) st
     = (st, Finished (inl tt))
     ∧ ∀ answers issuedBefore,
         run settings now answers (markAsRead client emailId read) st issuedBefore
         = (st, inl tt, issuedBefore))
  ∧ (∀ email,
       find_email emailId (emails st) = Some email →
       flag (Email.keywords email) "$seen" ≠ read →
       processingKey emailId read ∉ processingReadStatus st →
       let first := start settings now (markAsRead client emailId read) (idle st) in
       let both := start settings now (markAsRead client emailId read) first in
       (∃ accountId,
          calls first = [issued client (MarkAsRead emailId read accountId)])
       ∧ length (waiting first) = 1%nat
       ∧ calls both = calls first
       ∧ sched_store both = sched_store first
       ∧ waiting both = waiting first
       ∧ outcomes both = [inl tt]
       ∧ ∀ answer,
           let ended := resume_first settings now answer both in
           let alone := resume_first settings now answer first in
           sched_store ended = sched_store alone
           ∧ calls ended = calls first
           ∧ waiting ended = []).
Proof.
  split.
  - intros email Hfind Hflag. split; [|intros answers issuedBefore];
      unfold markAsRead; simpl;
      (destruct (bool_decide _); simpl; [done|]);
      rewrite Hfind, Hflag; simpl; by rewrite Bool.eqb_reflx.
  - intros email Hfind Hflag Hkey first both.
    destruct (markAsRead_begins client emailId read st email Hfind Hflag Hkey)
      as (k & Hbegin & Hrest).
    set (st1 := set_processingReadStatus
                  (processingReadStatus st ∪ {[processingKey emailId read]}) st)
      in *.
    set (c := MarkAsRead emailId read
                (shared_accountId
                   (find_mailbox (selectedMailbox st) (mailboxes st)))) in *.
    assert (Hfirst : first =
              {| sched_store := st1; waiting := [task client c k];
                 calls := [issued client c]; outcomes := [] |}).
    { subst first. unfold start, idle. cbn [sched_store waiting].
      by rewrite Hbegin. }
    assert (Hboth : both =
              {| sched_store := st1; waiting := [task client c k];
                 calls := [issued client c]; outcomes := [inl tt] |}).
    { subst both. rewrite Hfirst. unfold start. cbn [sched_store waiting].
      rewrite markAsRead_guarded; [done|]. subst st1.
      unfold set_processingReadStatus. cbn [processingReadStatus]. set_solver. }
    rewrite Hboth, Hfirst. cbn [sched_store waiting calls outcomes length].
    split; [by eexists|]. do 5 (split; [done|]).
    intros answer. unfold resume_first. cbn [sched_store waiting].
    destruct (Hrest (answer unit client c) st1) as (st2 & result & ->).
    done.
Qed.

End Schedule.
Section Background.
Variable settings : SettingsView.
Variable now : Z.

(** [refreshCurrentMailbox] returns whatever its call does, and does not
    touch the error field. *)
Lemma refreshCurrentMailbox_error answers client st issuedBefore :
  (run settings now answers (refreshCurrentMailbox client) st issuedBefore).1.2 = inl tt
  ∧ error (run settings now answers (refreshCurrentMailbox client) st issuedBefore).1.1
    = error st.
Proof.
  unfold refreshCurrentMailbox. simpl.
  destruct (String.eqb (selectedMailbox st) ""); simpl; [done|].
  destruct (answers _ _ _ _) as [result|err]; simpl; [|done].
  destruct (head (Client.emails result)) as [first|]; simpl; [|done].
  by destruct (bool_decide _).
Qed.

(** [fetchMailboxes] returns whatever its call does; it clears the error
    field and sets it again only when the call rejects. *)
Lemma fetchMailboxes_error answers client st issuedBefore :
  (run settings now answers (fetchMailboxes client) st issuedBefore).1.2 = inl tt
  ∧ error (run settings now answers (fetchMailboxes client) st issuedBefore).1.1
    = match answers _ (length issuedBefore) client GetAllMailboxes with
      | inl _ => None
      | inr err => Some (message_or err "Failed to fetch mailboxes")
      end.
Proof.
  unfold fetchMailboxes. simpl.
  destruct (answers _ _ _ _) as [mailboxes|err]; simpl; [|done].
  destruct (String.eqb (selectedMailbox st) ""); simpl; [|done].
  by destruct (find _ mailboxes).
Qed.

(** The real client's [getAllMailboxes] always resolves. *)
Lemma client_getAllMailboxes_resolves nets n client :
  ∃ mailboxes, client_answers nets _ n client GetAllMailboxes = inl mailboxes.
Proof.
  unfold client_answers. simpl.
  destruct (ClientProofs.run_getAllMailboxes (nets n) client 0)
    as (l & n' & -> & _).
  by exists l.
Qed.

(** C5.  [handleStateChange] on top of the real client, whatever the
    network does during its calls (failing requests included), returns
    without a throw and never sets the error field: a changed [Mailbox]
    token ends with the field cleared by [fetchMailboxes], and otherwise
    the field is as it was; so an unset field stays unset. *)
Theorem background_refresh_sets_no_error (nets : nat → Client.Network)
    (change : StateChange) (client : Client.JMAPClient) (st : EmailStore)
    (issuedBefore : list Issued) :
  let r := run settings now (client_answers nets)
               (handleStateChange change client) st issuedBefore in
  r.1.2 = inl tt
  ∧ error r.1.1 =
      match changed change !! Client.accountId client with
      | Some accountChanges =>
          if truthy (change_Mailbox accountChanges) then None else error st
      | None => error st
      end
  ∧ (error st = None → error r.1.1 = None).
Proof.
  intros r.
  assert (Hmain : r.1.2 = inl tt
    ∧ error r.1.1 =
        match changed change !! Client.accountId client with
        | Some accountChanges =>
            if truthy (change_Mailbox accountChanges) then None else error st
        | None => error st
        end).
  { subst r. unfold handleStateChange.
    rewrite StoreProofs.run_caught. simpl.
    destruct (changed change !! Client.accountId client) as [accountChanges|];
      simpl; [|done].
    rewrite StoreProofs.run_then.
    set (st1 := set_lastPushUpdate (Some now) st).
    assert (Hrefresh :
      ∃ st2 calls2,
        run settings now (client_answers nets)
          (if truthy (change_Email accountChanges)
           then refreshCurrentMailbox client else Prog.Ret tt) st1 issuedBefore
        = (st2, inl tt, calls2) ∧ error st2 = error st).
    { destruct (truthy (change_Email accountChanges)).
      - destruct (refreshCurrentMailbox_error (client_answers nets) client st1
                    issuedBefore) as [Hr He].
        destruct (run settings now (client_answers nets)
                    (refreshCurrentMailbox client) st1 issuedBefore)
          as [[st2 result] calls2]. simpl in *. subst result.
        by exists st2, calls2.
      - by exists st1, issuedBefore. }
    destruct Hrefresh as (st2 & calls2 & -> & Herr2).
    destruct (truthy (change_Mailbox accountChanges)).
    - destruct (fetchMailboxes_error (client_answers nets) client st2 calls2)
        as [Hr He].
      destruct (client_getAllMailboxes_resolves nets (length calls2) client)
        as [mailboxes Hresolves].
      rewrite Hresolves in He.
      destruct (run settings now (client_answers nets) (fetchMailboxes client)
                  st2 calls2) as [[st3 result] calls3]. simpl in *.
      by subst result.
    - done. }
  destruct Hmain as [Hr He]. split; [done|]. split; [done|].
  intros Hnone. rewrite He.
  destruct (changed change !! Client.accountId client) as [accountChanges|]; [|done].
  by destruct (truthy (change_Mailbox accountChanges)).
Qed.

End Background.

(** *** The theorems on the scenarios *)

(** [M2] is read already; [M1] is not, and a second [markAsRead] that
    starts while the first awaits its call returns at once: one call is
    issued in all. *)
Lemma markAsRead_twice_scenario :
  run_sync Scenario.settings 0 (markAsRead Scenario.client "M2" true) Scenario.store
  = (Scenario.store, Finished (inl tt))
  ∧ calls (start Scenario.settings 0 (markAsRead Scenario.client "M1" true)
             (start Scenario.settings 0 (markAsRead Scenario.client "M1" true)
                (idle Scenario.store)))
    = [ issued Scenario.client (MarkAsRead "M1" true None) ]
  ∧ outcomes (start Scenario.settings 0 (markAsRead Scenario.client "M1" true)
                (start Scenario.settings 0 (markAsRead Scenario.client "M1" true)
                   (idle Scenario.store)))
    = [ inl tt ].
Proof.
  split.
  - apply (proj1 (markAsRead_idempotent_and_deduplicated Scenario.settings 0
                    Scenario.client "M2" true Scenario.store)
             (Scenario.message "M2" true)); reflexivity.
  - assert (Hflag : flag (Email.keywords (Scenario.message "M1" false)) "$seen" ≠ true).
    { vm_compute. discriminate. }
    pose proof (proj2 (markAsRead_idempotent_and_deduplicated Scenario.settings 0
                         Scenario.client "M1" true Scenario.store)
                  (Scenario.message "M1" false) eq_refl Hflag (not_elem_of_empty _))
      as Hboth.
    cbv zeta in Hboth.
    destruct Hboth as (_ & _ & Hcalls & _ & _ & Houtcomes & _).
    split; [|exact Houtcomes].
    rewrite Hcalls. vm_compute. reflexivity.
Defined.

(** A push that names the email and mailbox tokens of the account while
    the network is down leaves the error field unset. *)
Lemma refresh_on_dead_network :
  error (run Scenario.settings 0 (client_answers (λ _, Scenario.dead_network))
           (handleStateChange
              {| changed :=
                   {[ "acct-1" := {| change_Email := Some "e-2";
                                     change_Mailbox := Some "m-2";
                                     change_Thread := None |} ]} |}
              Scenario.client)
           Scenario.store []).1.1
  = None.
Proof.
  exact (proj2 (proj2 (background_refresh_sets_no_error Scenario.settings 0
                         (λ _, Scenario.dead_network) _ Scenario.client
                         Scenario.store []))
           eq_refl).
Defined.

End SystemProofs.

(** ** More of the thread functions *)

Module ThreadUtilsFacts.
Import ThreadUtils ThreadUtilsSpec ThreadUtilsTerms ThreadUtilsProofs.

Section WithRuntime.
Variable getTime : string → Z.
Variable toLowerCase : string → string.

Abbreviation sort := (sort_newest_first getTime).
Abbreviation time e := (getTime (Email.receivedAt e)).
Abbreviation groups_of emails := (groupEmailsByThread getTime toLowerCase emails).

(** *** What a group holds *)

Lemma threadMap_add_nonempty (threadMap : list (string * list Email.t)) email :
  Forall (λ kv, kv.2 ≠ []) threadMap →
  Forall (λ kv, kv.2 ≠ []) (threadMap_add threadMap email).
Proof.
  intros H. rewrite threadMap_add_unfold.
  destruct (JsMap.has (Email.threadId email) threadMap).
  - induction H as [|[k l] r Hk Hr IH]; simpl; [constructor|].
    destruct (String.eqb k (Email.threadId email)); constructor; try done.
    simpl. by destruct l.
  - apply Forall_app. split; [done|]. by repeat constructor.
Qed.

Lemma threadMap_nonempty emails (threadMap : list (string * list Email.t)) :
  Forall (λ kv, kv.2 ≠ []) threadMap →
  Forall (λ kv, kv.2 ≠ []) (foldl threadMap_add threadMap emails).
Proof.
  revert threadMap. induction emails as [|e l IH]; simpl; [done|].
  intros threadMap H. by apply IH, threadMap_add_nonempty.
Qed.


Lemma filter_all (k : string) (l : list Email.t) :
  Forall (λ e, Email.threadId e = k) l → of_thread k l = l.
Proof.
  unfold of_thread. induction 1 as [|e r He Hr IH]; [done|].
  rewrite filter_cons_True by done. by rewrite IH.
Qed.

Lemma filter_none (k k' : string) (l : list Email.t) :
  k' ≠ k → Forall (λ e, Email.threadId e = k') l → of_thread k l = [].
Proof.
  unfold of_thread. intros Hne. induction 1 as [|e r He Hr IH]; [done|].
  rewrite filter_cons_False by congruence. done.
Qed.

Lemma of_thread_app k (a b : list Email.t) :
  of_thread k (a ++ b) = of_thread k a ++ of_thread k b.
Proof. apply filter_app. Qed.

Lemma of_thread_others k (threadMap : list (string * list Email.t)) :
  k ∉ JsMap.keys threadMap →
  Forall (λ kv, Forall (λ e, Email.threadId e = kv.1) kv.2) threadMap →
  of_thread k (concat (JsMap.values threadMap)) = [].
Proof.
  induction threadMap as [|[k2 l2] r IH]; simpl; intros Hk Hth; [done|].
  inversion Hth as [|? ? Hl2 Hr]; subst. simpl in *.
  rewrite of_thread_app, (filter_none k k2 l2); [|intros ->; apply Hk; by left|done].
  simpl. apply IH; [|done]. intros H. apply Hk. by right.
Qed.

Lemma value_of_key (threadMap : list (string * list Email.t)) k l :
  NoDup (JsMap.keys threadMap) →
  Forall (λ kv, Forall (λ e, Email.threadId e = kv.1) kv.2) threadMap →
  (k, l) ∈ threadMap →
  of_thread k (concat (JsMap.values threadMap)) = l.
Proof.
  induction threadMap as [|[k' l'] r IH]; simpl; intros Hnd Hth Hin.
  - by apply elem_of_nil in Hin.
  - inversion Hnd as [|? ? Hk' Hr]; subst.
    inversion Hth as [|? ? Hl' Hthr]; subst. simpl in *.
    rewrite of_thread_app.
    apply elem_of_cons in Hin as [[= -> ->]|Hin].
    + rewrite (filter_all k' l') by done.
      rewrite of_thread_others by done. by rewrite app_nil_r.
    + rewrite (filter_none k k' l'); [|intros ->|done].
      * simpl. by apply IH.
      * apply Hk'. apply list_elem_of_fmap. by exists (k, l).
Qed.

(** A group holds the emails of its thread, all of them. *)
Lemma group_emails emails g :
  g ∈ groups_of emails →
  ∃ l, l ≠ [] ∧ l ≡ₚ of_thread (ThreadGroup.threadId g) emails
       ∧ g = makeGroup toLowerCase (ThreadGroup.threadId g) (sort l).
Proof.
  rewrite groups_unfold. intros Hg.
  apply list_elem_of_fmap in Hg as ([k l] & -> & Hkl). simpl.
  destruct (grouped_all emails) as (Hnd & Hth & Hperm).
  pose proof (threadMap_nonempty emails [] (Forall_nil_2 _)) as Hne.
  rewrite Forall_forall in Hne. specialize (Hne _ Hkl). simpl in Hne.
  exists l. split; [done|]. split; [|done].
  rewrite <- (value_of_key _ k l Hnd Hth Hkl) at 1.
  unfold of_thread. by rewrite Hperm.
Qed.


(** X2.  The flags of a group speak of the emails of its thread in the
    input: [hasUnread] holds exactly when one of them lacks [$seen],
    [hasStarred] when one carries [$flagged], [hasAttachment] when one has
    an attachment. *)
Theorem group_aggregates (emails : list Email.t) (g : ThreadGroup.t) :
  g ∈ groups_of emails →
  (ThreadGroup.hasUnread g = true
   ↔ ∃ e, e ∈ emails ∧ Email.threadId e = ThreadGroup.threadId g
          ∧ flag (Email.keywords e) "$seen" = false)
  ∧ (ThreadGroup.hasStarred g = true
     ↔ ∃ e, e ∈ emails ∧ Email.threadId e = ThreadGroup.threadId g
            ∧ flag (Email.keywords e) "$flagged" = true)
  ∧ (ThreadGroup.hasAttachment g = true
     ↔ ∃ e, e ∈ emails ∧ Email.threadId e = ThreadGroup.threadId g
            ∧ Email.hasAttachment e = true).
Proof.
  intros Hg. destruct (group_emails emails g Hg) as (l & _ & Hperm & Hmk).
  set (k := ThreadGroup.threadId g) in *.
  assert (Hin : ∀ e, e ∈ sort l ↔ e ∈ emails ∧ Email.threadId e = k).
  { intros e. rewrite sort_perm, Hperm. unfold of_thread.
    rewrite list_elem_of_filter. tauto. }
  assert (Hany : ∀ f : Email.t → bool,
            existsb f (sort l) = true
            ↔ ∃ e, e ∈ emails ∧ Email.threadId e = k ∧ f e = true).
  { intros f. rewrite existsb_exists. split.
    - intros (e & He%list_elem_of_In%Hin & Hf). exists e. tauto.
    - intros (e & He & Hk & Hf). exists e. split; [|done].
      apply list_elem_of_In, Hin. done. }
  rewrite Hmk. unfold makeGroup.
  cbn [ThreadGroup.hasUnread ThreadGroup.hasStarred ThreadGroup.hasAttachment].
  split; [|split]; [|apply Hany..].
  rewrite Hany. split; intros (e & He & Hk & Hf); exists e;
    (split; [done|]); (split; [done|]); by destruct (flag _ _).
Qed.

(** *** The order of the groups *)

Lemma by_first_appearance_add (threadMap : list (string * list Email.t)) ids email :
  by_first_appearance (JsMap.keys threadMap) ids →
  by_first_appearance (JsMap.keys (threadMap_add threadMap email))
    (ids ++ [Email.threadId email]).
Proof.
  intros [Hsub Hord]. rewrite threadMap_add_unfold.
  set (t := Email.threadId email).
  assert (Hold : ∀ i j k1 k2,
            JsMap.keys threadMap !! i = Some k1 →
            JsMap.keys threadMap !! j = Some k2 → (i < j)%nat →
            ∃ p, (ids ++ [t]) !! p = Some k1
                 ∧ ∀ q, (ids ++ [t]) !! q = Some k2 → (p < q)%nat).
  { intros i j k1 k2 Hi Hj Hij.
    destruct (Hord i j k1 k2 Hi Hj Hij) as (p & Hp & Hq).
    exists p. split; [by apply lookup_app_l_Some|].
    intros q Hq'. apply lookup_app_Some in Hq' as [Hq'|[Hlen _]]; [by apply Hq|].
    apply lookup_lt_Some in Hp. lia. }
  destruct (JsMap.has t threadMap) eqn:Hhas.
  - rewrite JsMapFacts.keys_update. split; [|done].
    intros k. rewrite elem_of_app, list_elem_of_singleton, <- Hsub.
    apply JsMapFacts.has_keys in Hhas. split; [tauto|]. by intros [?| ->].
  - apply JsMapFacts.not_has_keys in Hhas.
    unfold JsMap.keys in *. rewrite map_app. simpl. split.
    + intros k. by rewrite !elem_of_app, Hsub.
    + intros i j k1 k2 Hi Hj Hij.
      apply lookup_app_Some in Hj as [Hj|[Hlen Hj]].
      * apply Hold with i j; [|done..].
        apply lookup_app_Some in Hi as [Hi|[Hlen _]]; [done|].
        apply lookup_lt_Some in Hj. lia.
      * apply list_lookup_singleton_Some in Hj as [Hj0 <-].
        apply lookup_app_Some in Hi as [Hi|[Hlen' Hi]].
        -- assert (Hk1 : k1 ∈ ids).
           { apply Hsub. by apply list_elem_of_lookup_2 in Hi. }
           apply list_elem_of_lookup_1 in Hk1 as [p Hp]. exists p.
           split; [by apply lookup_app_l_Some|].
           intros q Hq. apply lookup_app_Some in Hq as [Hq|[Hlenq _]].
           ++ exfalso. apply Hhas, Hsub.
              by apply list_elem_of_lookup_2 in Hq.
           ++ apply lookup_lt_Some in Hp. lia.
        -- apply list_lookup_singleton_Some in Hi as [Hi _]. lia.
Qed.

Lemma by_first_appearance_all emails :
  by_first_appearance (JsMap.keys (foldl threadMap_add [] emails))
    (map Email.threadId emails).
Proof.
  assert (Hgen : ∀ l (threadMap : list (string * list Email.t)) ids,
            by_first_appearance (JsMap.keys threadMap) ids →
            by_first_appearance (JsMap.keys (foldl threadMap_add threadMap l))
              (ids ++ map Email.threadId l)).
  { induction l as [|e l IH]; simpl; intros threadMap ids H.
    - by rewrite app_nil_r.
    - replace (ids ++ Email.threadId e :: map Email.threadId l)
        with ((ids ++ [Email.threadId e]) ++ map Email.threadId l)
        by by rewrite <- app_assoc.
      by apply IH, by_first_appearance_add. }
  apply (Hgen emails [] []). split; [done|].
  intros i j k1 k2 Hi. simpl in Hi. by rewrite lookup_nil in Hi.
Qed.

(** X3.  The groups come in the order in which their threads first appear in
    the input: of two groups, the earlier one has an email in the input
    before every email of the later one. *)
Theorem groups_in_order_of_first_appearance (emails : list Email.t)
    (i j : nat) (g1 g2 : ThreadGroup.t) :
  groups_of emails !! i = Some g1 →
  groups_of emails !! j = Some g2 →
  (i < j)%nat →
  ∃ p e1,
    emails !! p = Some e1 ∧ Email.threadId e1 = ThreadGroup.threadId g1
    ∧ ∀ q e2, emails !! q = Some e2 →
              Email.threadId e2 = ThreadGroup.threadId g2 → (p < q)%nat.
Proof.
  rewrite groups_unfold, !list_lookup_fmap. intros Hi Hj Hij.
  destruct (foldl threadMap_add [] emails !! i) as [[k1 l1]|] eqn:Hk1; [|done].
  destruct (foldl threadMap_add [] emails !! j) as [[k2 l2]|] eqn:Hk2; [|done].
  simpl in Hi, Hj. injection Hi as <-. injection Hj as <-. simpl.
  destruct (by_first_appearance_all emails) as [_ Hord].
  destruct (Hord i j k1 k2) as (p & Hp & Hq); [| |done|].
  - unfold JsMap.keys. by rewrite list_lookup_fmap, Hk1.
  - unfold JsMap.keys. by rewrite list_lookup_fmap, Hk2.
  - rewrite list_lookup_fmap in Hp.
    destruct (emails !! p) as [e1|] eqn:He1; [|done].
    simpl in Hp. injection Hp as Hp.
    exists p, e1. split; [done|]. split; [done|].
    intros q e2 He2 Ht. apply Hq. by rewrite list_lookup_fmap, He2, <- Ht.
Qed.

(** *** [getThreadParticipants] *)

Lemma participants_step_length email (st : gset string * list string) :
  (length st.2 ≤ length (participants_step toLowerCase email st).2
   ≤ S (length st.2))%nat.
Proof.
  unfold participants_step.
  destruct (Email.from email) as [[|sender rest]|]; simpl; [lia| |lia].
  destruct (decide _); simpl; [lia|]. rewrite length_app. simpl. lia.
Qed.

Lemma participants_step_names email (st : gset string * list string) name :
  name ∈ (participants_step toLowerCase email st).2 →
  name ∈ st.2
  ∨ ∃ sender rest, Email.from email = Some (sender :: rest)
                   ∧ name = senderName sender.
Proof.
  unfold participants_step.
  destruct (Email.from email) as [[|sender rest]|]; simpl; [by left| |by left].
  destruct (decide _); simpl; [by left|].
  intros [H|H%list_elem_of_singleton]%elem_of_app; [by left|].
  right. by exists sender, rest.
Qed.

Lemma participants_loop_facts (maxNames : nat) emails (st : gset string * list string) :
  (length st.2 < maxNames ∨ length st.2 = 0)%nat →
  (length (participants_loop toLowerCase maxNames emails st)
   ≤ Nat.max 1 maxNames)%nat
  ∧ (length (participants_loop toLowerCase maxNames emails st)
     ≤ length st.2 + length emails)%nat
  ∧ ∀ name, name ∈ participants_loop toLowerCase maxNames emails st →
            name ∈ st.2
            ∨ ∃ e sender rest, e ∈ emails ∧ Email.from e = Some (sender :: rest)
                               ∧ name = senderName sender.
Proof.
  revert st. induction emails as [|e l IH]; simpl; intros st Hst.
  - split; [lia|]. split; [lia|]. by left.
  - pose proof (participants_step_length e st) as Hlen.
    destruct (Nat.leb_spec maxNames
                (length (participants_step toLowerCase e st).2)) as [Hge|Hlt].
    + split; [lia|]. split; [lia|].
      intros name [H|(sender & rest & Hfrom & ->)]%participants_step_names;
        [by left|].
      right. exists e, sender, rest. split; [by left | done].
    + destruct (IH (participants_step toLowerCase e st)) as (Hmax & Hlen' & Hnames);
        [lia|].
      split; [done|]. split; [lia|].
      intros name [H|(e' & sender & rest & He' & Hfrom & ->)]%Hnames.
      * apply participants_step_names in H as [H|(sender & rest & Hfrom & ->)];
          [by left|].
        right. exists e, sender, rest. split; [by left | done].
      * right. exists e', sender, rest. split; [by right | done].
Qed.

(** X4.  [getThreadParticipants] returns at most [max(1, maxNames)] names
    and at most one per email, each the display name of the first sender of
    an email of the list (its name, or what stands before the [@] of its
    address); of no emails it returns no name, and a group lists at most
    four. *)
Theorem participants_are_few_senders (emails : list Email.t) (maxNames : nat) :
  (length (getThreadParticipants toLowerCase emails maxNames) ≤ Nat.max 1 maxNames)%nat
  ∧ (length (getThreadParticipants toLowerCase emails maxNames) ≤ length emails)%nat
  ∧ (∀ name, name ∈ getThreadParticipants toLowerCase emails maxNames →
             ∃ e sender rest, e ∈ emails ∧ Email.from e = Some (sender :: rest)
                              ∧ name = senderName sender)
  ∧ getThreadParticipants toLowerCase [] maxNames = []
  ∧ ∀ g, g ∈ groups_of emails → (length (ThreadGroup.participantNames g) ≤ 4)%nat.
Proof.
  unfold getThreadParticipants.
  destruct (participants_loop_facts maxNames emails (∅, [])) as (Hmax & Hlen & Hnames);
    [by right|].
  split; [done|]. split; [done|]. split; [|split; [done|]].
  - intros name [H|H]%Hnames; [by apply elem_of_nil in H | done].
  - intros g Hg. rewrite groups_unfold in Hg.
    apply list_elem_of_fmap in Hg as ([k l] & -> & _). simpl.
    unfold getThreadParticipants.
    destruct (participants_loop_facts 4 (sort l) (∅, [])) as (H4 & _); [by right|].
    simpl in H4. lia.
Qed.

(** *** [sortThreadGroups] *)







(** *** What [mergeThreadEmails] keeps and adds *)







(** X7.  With nothing fetched, a group of [groupEmailsByThread] over emails
    with distinct ids is merged into itself. *)
Theorem mergeThreadEmails_nothing_fetched (emails : list Email.t)
    (g : ThreadGroup.t) :
  NoDup (map Email.id emails) →
  g ∈ groups_of emails →
  mergeThreadEmails getTime toLowerCase g [] = g.
Proof.
  intros Hnd Hg. destruct (group_emails emails g Hg) as (l & _ & Hperm & Hmk).
  unfold mergeThreadEmails. simpl.
  assert (Hemails : ThreadGroup.emails g = sort l) by by rewrite Hmk.
  rewrite Hemails, (existing_distinct (sort l) []).
  - simpl. unfold JsMap.values. rewrite map_map. simpl. rewrite map_id.
    by rewrite sort_idempotent.
  - simpl. rewrite sort_perm, Hperm. unfold of_thread.
    apply NoDup_fmap_2_strong; [|by apply NoDup_filter, (NoDup_fmap_1 Email.id)].
    intros a b Ha%list_elem_of_filter Hb%list_elem_of_filter Heq.
    destruct Ha as [_ Ha], Hb as [_ Hb].
    apply list_elem_of_lookup_1 in Ha as [i Hi], Hb as [j Hj].
    assert (i = j).
    { apply (NoDup_lookup (map Email.id emails) i j (Email.id a)); [done| |].
      - by rewrite list_lookup_fmap, Hi.
      - by rewrite list_lookup_fmap, Hj, Heq. }
    congruence.
Qed.
End WithRuntime.

(** *** The theorems on the conversation *)
Import Conversation.

(** The page holds two threads. *)
Lemma page_groups : groupEmailsByThread stamp lower page = [planning; remark].
Proof. vm_compute. reflexivity. Qed.

Lemma planning_on_page : planning ∈ groupEmailsByThread stamp lower page.
Proof. rewrite page_groups. by left. Qed.


(** The flags of the thread of Ann: every email is read, one is starred
    and one has an attachment. *)
Lemma planning_aggregates :
  (ThreadGroup.hasUnread planning = true
   ↔ ∃ e, e ∈ page ∧ Email.threadId e = "T-A"
          ∧ flag (Email.keywords e) "$seen" = false)
  ∧ (ThreadGroup.hasStarred planning = true
     ↔ ∃ e, e ∈ page ∧ Email.threadId e = "T-A"
            ∧ flag (Email.keywords e) "$flagged" = true)
  ∧ (ThreadGroup.hasAttachment planning = true
     ↔ ∃ e, e ∈ page ∧ Email.threadId e = "T-A"
            ∧ Email.hasAttachment e = true).
Proof.
  exact (group_aggregates stamp lower page planning planning_on_page).
Defined.

(** The thread of Ann comes before the thread of Bob, as its opening
    email does on the page. *)
Lemma planning_before_remark :
  ∃ p e1,
    page !! p = Some e1 ∧ Email.threadId e1 = "T-A"
    ∧ ∀ q e2, page !! q = Some e2 → Email.threadId e2 = "T-B" → (p < q)%nat.
Proof.
  apply (groups_in_order_of_first_appearance stamp lower page 0 1 planning remark).
  - vm_compute. reflexivity.
  - vm_compute. reflexivity.
  - lia.
Defined.


(** Nothing was fetched for the thread of Ann. *)
Lemma planning_merged_with_nothing :
  mergeThreadEmails stamp lower planning [] = planning.
Proof.
  apply (mergeThreadEmails_nothing_fetched stamp lower page planning).
  - apply (bool_decide_unpack _). vm_compute. exact I.
  - exact planning_on_page.
Defined.
End ThreadUtilsFacts.

(** ** Color tags *)

Module ThreadColorsFacts.
Import ThreadColors.

Lemma skip_append (p s : string) : skip (String.length p) (p +:+ s) = s.
Proof. induction p as [|c p IH]; simpl; [by destruct s | done]. Qed.

Lemma prefix_append (p s : string) : String.prefix p (p +:+ s) = true.
Proof.
  induction p as [|c p IH]; simpl; [by destruct s|].
  destruct (Ascii.ascii_dec c c); [done | congruence].
Qed.

Lemma prefix_split (p s : string) :
  String.prefix p s = true → s = p +:+ skip (String.length p) s.
Proof.
  revert s. induction p as [|c p IH]; intros s; simpl; [by destruct s|].
  destruct s as [|c' s]; simpl; [done|].
  destruct (Ascii.ascii_dec c c') as [<-|]; [|done].
  intros H. change (String c s = String c (p +:+ skip (String.length p) s)).
  f_equal. by apply IH.
Qed.

Lemma cut_first_unfold (p s : string) :
  cut_first p s =
    if String.prefix p s then skip (String.length p) s
    else match s with
         | EmptyString => EmptyString
         | String c r => String c (cut_first p r)
         end.
Proof. by destruct s. Qed.

Lemma cut_first_prefix (p s : string) : cut_first p (p +:+ s) = s.
Proof. rewrite cut_first_unfold, prefix_append. apply skip_append. Qed.

(** The entries of an object have distinct keys: a key reads the value
    it stands with. *)
Lemma get_entry (keywords : list (string * bool)) key v :
  NoDup (JsMap.keys keywords) →
  JsMap.get key keywords = Some v ↔ (key, v) ∈ keywords.
Proof.
  induction keywords as [|[k' v'] r IH]; simpl; intros Hnd.
  - split; [done | by intros ?%elem_of_nil].
  - inversion Hnd as [|? ? Hk' Hr]; subst. rewrite elem_of_cons.
    destruct (String.eqb_spec k' key) as [->|Hne].
    + split; [intros [= ->]; by left|].
      intros [[= ->]|Hin]; [done|]. exfalso. apply Hk'.
      apply list_elem_of_fmap. by exists (key, v).
    + rewrite IH by done. split; [by right|]. intros [[= ? ?]|?]; [congruence|done].
Qed.

Lemma colorTag_loop_Some keys keywords color :
  colorTag_loop keys keywords = Some color →
  ∃ before after,
    keys = before ++ ("$color:" +:+ color) :: after
    ∧ JsMap.get ("$color:" +:+ color) keywords = Some true
    ∧ Forall (λ key, String.prefix "$color:" key = false
                     ∨ JsMap.get key keywords ≠ Some true) before.
Proof.
  induction keys as [|key rest IH]; [done|].
  cbn [colorTag_loop].
  destruct (String.prefix "$color:" key) eqn:Hprefix; cbn [andb].
  - case_bool_decide as Hget.
    + intros [= <-]. exists [], rest.
      apply prefix_split in Hprefix.
      assert (Hkey : "$color:" +:+ cut_first "$color:" key = key).
      { rewrite Hprefix at 1. by rewrite cut_first_prefix, <- Hprefix. }
      rewrite Hkey. by repeat split.
    + intros (before & after & -> & Hv & Hb)%IH.
      exists (key :: before), after. repeat split; [done|]. constructor; [by right | done].
  - intros (before & after & -> & Hv & Hb)%IH.
    exists (key :: before), after. repeat split; [done|]. constructor; [by left | done].
Qed.

Lemma colorTag_loop_None keys keywords :
  colorTag_loop keys keywords = None ↔
  Forall (λ key, String.prefix "$color:" key = false
                 ∨ JsMap.get key keywords ≠ Some true) keys.
Proof.
  induction keys as [|key rest IH]; [done|].
  cbn [colorTag_loop]. rewrite Forall_cons, <- IH.
  destruct (String.prefix "$color:" key) eqn:Hprefix; cbn [andb].
  - case_bool_decide as Hget.
    + split; [done|]. intros [[?|?] _]; done.
    + split; [|tauto]. intros H. split; [by right | done].
  - split; [|tauto]. intros H. split; [by left | done].
Qed.

(** X8.  [getEmailColorTag] returns the color of the first key [$color:...]
    of the keywords whose value is [true], and nothing when there is no such
    key or there are no keywords; [getThreadColorTag] returns the first
    color of its emails that is not the empty string, so it never returns
    the empty string. *)
Theorem color_tag_is_first_true_color_key :
  (getEmailColorTag None = None)
  ∧ (∀ keywords color,
       NoDup (JsMap.keys keywords) →
       getEmailColorTag (Some keywords) = Some color →
       ∃ before after,
         keywords = before ++ ("$color:" +:+ color, true) :: after
         ∧ ∀ key v, (key, v) ∈ before →
                    String.prefix "$color:" key = false ∨ v = false)
  ∧ (∀ keywords,
       NoDup (JsMap.keys keywords) →
       (getEmailColorTag (Some keywords) = None
        ↔ ∀ key, (key, true) ∈ keywords → String.prefix "$color:" key = false))
  ∧ (∀ emails color,
       getThreadColorTag emails = Some color →
       color ≠ ""
       ∧ ∃ before keywords after,
           emails = before ++ keywords :: after
           ∧ getEmailColorTag keywords = Some color
           ∧ Forall (λ k, getEmailColorTag k = None ∨ getEmailColorTag k = Some "")
               before)
  ∧ (∀ emails,
       getThreadColorTag emails = None
       ↔ Forall (λ k, getEmailColorTag k = None ∨ getEmailColorTag k = Some "")
           emails).
Proof.
  split; [done|]. split; [|split; [|split]].
  - intros keywords color Hnd (kb & ka & Hkeys & Hv & Hb)%colorTag_loop_Some.
    unfold JsMap.keys in Hkeys.
    apply fmap_app_inv in Hkeys as (before & rest & Hkb & Hrest & ->).
    symmetry in Hrest. apply fmap_cons_inv in Hrest as ([k v] & after & Hk & -> & ->).
    simpl in Hk. subst k.
    assert (v = true) as ->.
    { assert (Hin : ("$color:" +:+ color, v) ∈ before ++ ("$color:" +:+ color, v) :: after).
      { apply elem_of_app. right. by left. }
      apply (get_entry _ _ _ Hnd) in Hin. congruence. }
    exists before, after. split; [done|].
    intros key v Hin. rewrite Forall_forall in Hb.
    destruct (Hb key) as [Hp|Hg].
    { subst kb. apply list_elem_of_fmap. by exists (key, v). }
    + by left.
    + right. destruct v; [|done]. exfalso. apply Hg.
      apply (get_entry _ _ _ Hnd). apply elem_of_app. by left.
  - intros keywords Hnd. unfold getEmailColorTag.
    rewrite colorTag_loop_None, Forall_forall. split.
    + intros H key Hin. destruct (H key) as [Hp|Hg]; [|done|].
      * apply list_elem_of_fmap. by exists (key, true).
      * exfalso. by apply Hg, (get_entry _ _ _ Hnd).
    + intros H key _. destruct (JsMap.get key keywords) as [[]|] eqn:Hget;
        [|by right..].
      left. by apply H, (get_entry _ _ _ Hnd).
  - induction emails as [|keywords rest IH]; [done|]. intros color.
    cbn [getThreadColorTag].
    destruct (getEmailColorTag keywords) as [c|] eqn:Hc.
    + unfold truthy. destruct (String.eqb_spec c "") as [->|Hne]; simpl.
      * intros (Hcolor & before & k & after & -> & Hk & Hb)%IH.
        split; [done|]. exists (keywords :: before), k, after.
        split; [done|]. split; [done|]. constructor; [by right | done].
      * intros [= <-]. split; [done|]. exists [], keywords, rest.
        by repeat split.
    + intros (Hcolor & before & k & after & -> & Hk & Hb)%IH.
      split; [done|]. exists (keywords :: before), k, after.
      split; [done|]. split; [done|]. constructor; [by left | done].
  - induction emails as [|keywords rest IH]; [done|].
    cbn [getThreadColorTag]. rewrite Forall_cons, <- IH.
    destruct (getEmailColorTag keywords) as [c|] eqn:Hc.
    + unfold truthy. destruct (String.eqb_spec c "") as [->|Hne]; simpl.
      * split; [|tauto]. intros H. split; [by right | done].
      * split; [done|]. intros [[?|[= ?]] _]; done.
    + split; [|tauto]. intros H. split; [by left | done].
Qed.

(** An email that was blue and is red now. *)
Lemma red_after_blue_was_cleared :
  let keywords := [("$seen", true); ("$color:blue", false); ("$color:red", true)] in
  getEmailColorTag (Some keywords) = Some "red"
  ∧ ∃ before after,
      keywords = before ++ ("$color:" +:+ "red", true) :: after
      ∧ ∀ key v, (key, v) ∈ before →
                 String.prefix "$color:" key = false ∨ v = false.
Proof.
  intros keywords. split; [vm_compute; reflexivity|].
  apply (proj1 (proj2 color_tag_is_first_true_color_key) keywords "red").
  - apply (bool_decide_unpack _). vm_compute. exact I.
  - vm_compute. reflexivity.
Defined.
End ThreadColorsFacts.

(** ** More of the settings store *)

Module SettingsFacts.
Import Settings SettingsActions SettingsTerms SettingsProofs.

(** *** Array indices are no settings fields *)

Lemma pretty_N_char_digit (x : N) : (48 ≤ nat_of_ascii (pretty_N_char x) ≤ 57)%nat.
Proof.
  unfold pretty_N_char. repeat case_match; split; apply Nat.leb_le; reflexivity.
Qed.

Lemma pretty_N_go_digit (x : N) (s : string) :
  starts_with_digit s ∨ s = "" →
  starts_with_digit (pretty_N_go x s) ∨ pretty_N_go x s = "".
Proof.
  revert s. induction (N.lt_wf_0 x) as [x _ IH]. intros s Hs.
  destruct (decide (x = 0%N)) as [->|Hne].
  - by rewrite pretty_N_go_0.
  - assert (Hpos : (0 < x)%N) by lia.
    rewrite pretty_N_go_step by done. apply IH.
    + by apply N.div_lt.
    + left. simpl. apply pretty_N_char_digit.
Qed.

Lemma pretty_nat_not_a_field (i : nat) : pretty i ∉ dom DEFAULT_SETTINGS.
Proof.
  rewrite recognized_keys.
  assert (H : starts_with_digit (pretty i) ∨ pretty i = "").
  { unfold pretty, pretty_nat, pretty, pretty_N.
    destruct (decide _); [left; split; apply Nat.leb_le; reflexivity|].
    apply pretty_N_go_digit. by right. }
  intros Hin. unfold exported_keys in Hin.
  repeat (apply elem_of_cons in Hin as [Heq|Hin];
          [rewrite Heq in H; destruct H as [[_ H]|H];
           [apply Nat.leb_le in H; discriminate H | done]|]).
  by apply elem_of_nil in Hin.
Qed.

Section WithRuntime.
Variable JSON_parse : string → option json.
Variable JSON_stringify : json → string.
Variable inherited : string → bool.

Abbreviation import := (importSettings JSON_parse inherited).
Abbreviation export := (exportSettings JSON_stringify).

Lemma import_array (state : gmap string json) (l : list json) (n : nat) :
  foldl (λ st iv, import_key inherited (pretty (iv.1 : nat)) iv.2 st) state
        (imap (λ i v, ((n + i)%nat, v)) l)
  = state.
Proof.
  revert n state. induction l as [|v l IH]; intros n state; simpl; [done|].
  rewrite import_key_unfold.
  rewrite bool_decide_eq_false_2 by apply pretty_nat_not_a_field.
  rewrite <- (IH (S n) state) at 2. f_equal. apply imap_ext.
  intros i x _. simpl. f_equal. lia.
Qed.

(** X9.  [importSettings] of a text that is no JSON, or that is [null], a
    boolean, a number or a string, returns [false]; of an array it returns
    [true]; in each of these cases, and whenever it returns [false], the
    settings are left as they were. *)
Theorem import_of_what_is_no_object (state : gmap string json) (text : string) :
  (JSON_parse text = None → import state text = (false, state))
  ∧ (∀ v, JSON_parse text = Some v →
          v = JNull ∨ (∃ b, v = JBool b) ∨ (∃ n, v = JNumber n) ∨ (∃ s, v = JString s) →
          import state text = (false, state))
  ∧ (∀ l, JSON_parse text = Some (JArray l) → import state text = (true, state))
  ∧ ((import state text).1 = false → (import state text).2 = state).
Proof.
  unfold importSettings. split; [by intros ->|]. split; [|split].
  - intros v -> [->|[[b ->]|[[n ->]|[s ->]]]]; done.
  - intros l ->. f_equal. apply (import_array state l 0).
  - destruct (JSON_parse text) as [[]|]; done.
Qed.

Lemma import_object (state : gmap string json) (text : string)
    (m : gmap string json) :
  JSON_parse text = Some (JObject m) →
  import state text = (true, map_fold (import_key inherited) state m).
Proof. intros Hparse. unfold importSettings. by rewrite Hparse. Qed.

Lemma import_object_fields (state m : gmap string json) (key : string) :
  map_fold (import_key inherited) state m !! key =
    if bool_decide (key ∈ exported_keys)
    then match m !! key with
         | Some v => Some v
         | None => state !! key
         end
    else state !! key.
Proof.
  rewrite import_lookup.
  rewrite (bool_decide_ext _ _ (recognized_keys key)).
  case_bool_decide; [|done]. rewrite lookup_union.
  by destruct (m !! key), (state !! key).
Qed.


(** X11.  An export restores the settings it was taken from over any later
    state: when [JSON.parse] reads back what [JSON.stringify] printed and
    the exported state holds every settings field, importing the export into
    any state returns [true], gives every recognized field its exported
    value and leaves the other fields of the state as they are. *)
Theorem export_restores_over_any_state (saved current : gmap string json) :
  JSON_parse (export saved) = Some (JObject (settingsObject saved)) →
  dom DEFAULT_SETTINGS ⊆ dom saved →
  (import current (export saved)).1 = true
  ∧ settingsObject (import current (export saved)).2 = settingsObject saved
  ∧ (∀ key, key ∈ exported_keys →
            (import current (export saved)).2 !! key = saved !! key)
  ∧ (∀ key, key ∉ exported_keys →
            (import current (export saved)).2 !! key = current !! key).
Proof.
  intros Hparse Hfull. rewrite (import_object _ _ _ Hparse). simpl.
  assert (Hkey : ∀ key, key ∈ exported_keys →
            map_fold (import_key inherited) current (settingsObject saved) !! key
            = saved !! key).
  { intros key Hkey. rewrite import_object_fields, bool_decide_eq_true_2 by done.
    rewrite settingsObject_lookup, bool_decide_eq_true_2 by by apply recognized_keys.
    assert (Hin : key ∈ dom saved) by by apply Hfull, recognized_keys.
    apply elem_of_dom in Hin as [v ->]. done. }
  split; [done|]. split; [|split; [done|]].
  - apply map_eq. intros key. rewrite !settingsObject_lookup.
    case_bool_decide as Hk; [|done]. by apply Hkey, recognized_keys.
  - intros key Hkey'. by rewrite import_object_fields, bool_decide_eq_false_2.
Qed.

Lemma reset_lookup (state : gmap string json) (key : string) :
  resetToDefaults state !! key
  = if bool_decide (key ∈ exported_keys) then DEFAULT_SETTINGS !! key
    else state !! key.
Proof.
  unfold resetToDefaults. rewrite lookup_union.
  rewrite <- (bool_decide_ext _ _ (recognized_keys key)).
  case_bool_decide as Hk.
  - apply elem_of_dom in Hk as [v Hv]. rewrite Hv. by destruct (state !! key).
  - apply not_elem_of_dom in Hk. rewrite Hk. by destruct (state !! key).
Qed.

(** X12.  [resetToDefaults] gives every settings field its default whatever
    was updated or imported before, so that the export is that of the
    defaults; no other field changes, resetting twice is resetting once, and
    a later [updateSetting] of a settings field holds. *)
Theorem resetToDefaults_restores_every_default (state : gmap string json) :
  settingsObject (resetToDefaults state) = DEFAULT_SETTINGS
  ∧ export (resetToDefaults state) = export DEFAULT_SETTINGS
  ∧ (∀ key value,
       settingsObject (resetToDefaults (updateSetting key value state))
       = DEFAULT_SETTINGS)
  ∧ (∀ text,
       settingsObject (resetToDefaults (import state text).2) = DEFAULT_SETTINGS)
  ∧ (∀ key, key ∉ exported_keys → resetToDefaults state !! key = state !! key)
  ∧ resetToDefaults (resetToDefaults state) = resetToDefaults state
  ∧ (∀ key value,
       key ∈ exported_keys →
       updateSetting key value (resetToDefaults state) !! key = Some value).
Proof.
  assert (Hreset : ∀ s, settingsObject (resetToDefaults s) = DEFAULT_SETTINGS).
  { intros s. apply map_eq. intros key. rewrite settingsObject_lookup, reset_lookup.
    rewrite (bool_decide_ext _ _ (recognized_keys key)).
    case_bool_decide as Hk; [done|].
    symmetry. apply not_elem_of_dom. by rewrite recognized_keys. }
  split; [apply Hreset|]. split; [|split; [|split; [|split; [|split]]]].
  - unfold exportSettings. by rewrite !Hreset, <- (Hreset DEFAULT_SETTINGS), Hreset.
  - intros. apply Hreset.
  - intros. apply Hreset.
  - intros key Hkey. by rewrite reset_lookup, bool_decide_eq_false_2.
  - unfold resetToDefaults. by rewrite (assoc_L (∪)), (idemp_L (∪)).
  - intros key value Hkey. unfold updateSetting, set_field.
    rewrite bool_decide_eq_true_2 by by apply recognized_keys.
    apply lookup_insert_eq.
Qed.
End WithRuntime.

(** *** The theorems on saved settings *)

Import Preferences.

(** Importing the text [null], with the flat codec as [JSON.parse]. *)
Lemma import_null :
  JsonText.parse "null" = Some JNull
  ∧ importSettings JsonText.parse prototype_names large_print "null"
    = (false, large_print).
Proof.
  split; [vm_compute; reflexivity|].
  apply (proj1 (proj2 (import_of_what_is_no_object JsonText.parse prototype_names
                         large_print "null")) JNull).
  - vm_compute. reflexivity.
  - by left.
Defined.


(** The export of [large_print] read back over the defaults. *)
Lemma large_print_restored :
  let text := exportSettings JsonText.stringify large_print in
  (importSettings JsonText.parse prototype_names DEFAULT_SETTINGS text).1 = true
  ∧ settingsObject (importSettings JsonText.parse prototype_names
                      DEFAULT_SETTINGS text).2
    = settingsObject large_print
  ∧ (importSettings JsonText.parse prototype_names DEFAULT_SETTINGS text).2
      !! "fontSize"
    = Some (JString "large").
Proof.
  intros text.
  destruct (export_restores_over_any_state JsonText.parse JsonText.stringify
              prototype_names large_print DEFAULT_SETTINGS)
    as (Htrue & Hobject & Hkeys & _).
  - vm_compute. reflexivity.
  - apply (bool_decide_unpack _). vm_compute. exact I.
  - split; [exact Htrue|]. split; [exact Hobject|].
    subst text. rewrite Hkeys; [vm_compute; reflexivity|].
    apply (bool_decide_unpack _). vm_compute. exact I.
Defined.
End SettingsFacts.

(** ** More of the protocol client *)

Module ClientFacts.
Import Client ClientSpec ClientSearch ClientTerms ClientProofs.

Section WithRuntime.
Variable getTime : string → Z.

Lemma run_searchEmails net client query limit n :
  ∃ l, (run net (searchEmails client query limit) n).1 = inl l
       ∧ ((∃ err, request_outcome net client
                    [ Email_query (accountId client) None (Some query) limit None;
                      Email_get (accountId client) ResultOfQuery false ] n = inr err)
          → l = []).
Proof.
  unfold searchEmails. rewrite run_try_catch, run_request_bind.
  destruct (request_outcome _ _ _ _) as [response|err]; simpl.
  - destruct (method_is response 1 "Email/get"); simpl.
    + destruct (result_at response 1); simpl; eexists; (split; [done|]);
        by intros [? ?].
    + eexists. split; [done|]. by intros [? ?].
  - by eexists.
Qed.

Lemma run_getEmail net client emailId accountId n :
  ∃ e, (run net (getEmail client emailId accountId) n).1 = inl e.
Proof.
  unfold getEmail. rewrite run_try_catch, run_request_bind.
  destruct (request_outcome _ _ _ _) as [response|err]; simpl; [|by eexists].
  destruct (method_is response 0 "Email/get"); simpl; [|by eexists].
  destruct (result_at response 0) as [result|]; simpl; [|by eexists].
  destruct (default [] (list_emails result)) as [|email rest]; simpl; [by eexists|].
  destruct (parseHeaders net _); simpl; by eexists.
Qed.

Lemma run_getThreadEmails net client threadId accountId n :
  ∃ l, (run net (getThreadEmails getTime client threadId accountId) n).1 = inl l.
Proof.
  unfold getThreadEmails. rewrite run_try_catch, run_bind.
  destruct (run_getThread net client threadId accountId n) as (thread & n' & ->).
  destruct (thread ≫= emailIds) as [[|id ids]|]; simpl; [by eexists| |by eexists].
  rewrite run_request_bind.
  destruct (request_outcome _ _ _ _) as [response|err]; simpl; [|by eexists].
  destruct (method_is response 0 "Email/get"); simpl; [|by eexists].
  destruct (result_at response 0) as [result|]; simpl; by eexists.
Qed.

(** X13.  The reads of the client never reject: whatever the network does,
    [getMailboxes], [getAllMailboxes], [getEmails], [getEmail], [getThread],
    [getThreadEmails] and [searchEmails] resolve. *)
Theorem reads_never_reject (net : Network) (client : JMAPClient) (n : nat) :
  (∃ l, (run net (getMailboxes client) n).1 = inl l)
  ∧ (∃ l, (run net (getAllMailboxes client) n).1 = inl l)
  ∧ (∀ mailboxId accountId limit position,
       ∃ res, (run net (getEmails client mailboxId accountId limit position) n).1
              = inl res)
  ∧ (∀ emailId accountId,
       ∃ e, (run net (getEmail client emailId accountId) n).1 = inl e)
  ∧ (∀ threadId accountId,
       ∃ t, (run net (getThread client threadId accountId) n).1 = inl t)
  ∧ (∀ threadId accountId,
       ∃ l, (run net (getThreadEmails getTime client threadId accountId) n).1 = inl l)
  ∧ (∀ query limit,
       ∃ l, (run net (searchEmails client query limit) n).1 = inl l).
Proof.
  split; [|split; [|split; [|split; [|split; [|split]]]]].
  - destruct (run_getMailboxes net client n) as (l & n' & -> & _). by exists l.
  - destruct (run_getAllMailboxes net client n) as (l & n' & -> & _). by exists l.
  - intros. rewrite run_getEmails. by eexists.
  - intros. apply run_getEmail.
  - intros threadId acct.
    destruct (run_getThread net client threadId acct n) as (t & n' & ->).
    by exists t.
  - intros. apply run_getThreadEmails.
  - intros. destruct (run_searchEmails net client query limit n) as (l & Hl & _).
    by exists l.
Qed.

Ltac answer_cut_off H :=
  match goal with
  | |- context [request_outcome ?net ?client ?calls ?n] =>
      let err := fresh "err" in
      destruct (H calls n) as [err ->]
  end.

Lemma cut_off_loop net client accountIds allMailboxes n :
  cut_off net client →
  (run net (getAllMailboxes_loop client accountIds allMailboxes) n).1
  = inl allMailboxes.
Proof.
  intros Hcut. revert n. induction accountIds as [|[accountId account] rest IH];
    intros n; [done|].
  simpl. rewrite run_bind, run_try_catch, run_request_bind.
  destruct (Hcut [Mailbox_get accountId] n) as [err ->]. simpl. apply IH.
Qed.

Lemma cut_off_getMailboxes net client n :
  cut_off net client →
  (run net (getMailboxes client) n).1 = inl [fallbackInbox client].
Proof.
  intros Hcut. unfold getMailboxes. rewrite run_try_catch, run_request_bind.
  by answer_cut_off Hcut.
Qed.

Lemma cut_off_getAllMailboxes net client n :
  cut_off net client →
  (run net (getAllMailboxes client) n).1
  = inl (match accounts client with
         | [] => [fallbackInbox client]
         | _ => []
         end).
Proof.
  intros Hcut. unfold getAllMailboxes. rewrite run_try_catch.
  destruct (accounts client) as [|a rest] eqn:Hacc.
  - pose proof (cut_off_getMailboxes net client n Hcut) as Hmb.
    by destruct (run net (getMailboxes client) n) as [[]].
  - pose proof (cut_off_loop net client (a :: rest) [] n Hcut) as Hloop.
    destruct (run net (getAllMailboxes_loop client (a :: rest) []) n) as [[]].
    + simpl in *. congruence.
    + simpl in *. congruence.
Qed.

Lemma cut_off_getEmails net client mailboxId accountId limit position n :
  cut_off net client →
  (run net (getEmails client mailboxId accountId limit position) n).1
  = inl emptyResult.
Proof. intros Hcut. rewrite run_getEmails. by answer_cut_off Hcut. Qed.

(** X14.  When no request gets an answer the reads fall back: [getMailboxes]
    returns the made-up inbox, [getAllMailboxes] returns it for a session
    without accounts and no mailbox at all otherwise, [getEmails] the empty
    page, [getEmail] nothing, [getThreadEmails] and [searchEmails] no email. *)
Theorem reads_fall_back_when_cut_off (net : Network) (client : JMAPClient) (n : nat) :
  cut_off net client →
  (run net (getMailboxes client) n).1 = inl [fallbackInbox client]
  ∧ (run net (getAllMailboxes client) n).1
    = inl (match accounts client with
           | [] => [fallbackInbox client]
           | _ => []
           end)
  ∧ (∀ mailboxId accountId limit position,
       (run net (getEmails client mailboxId accountId limit position) n).1
       = inl emptyResult)
  ∧ (∀ emailId accountId,
       (run net (getEmail client emailId accountId) n).1 = inl None)
  ∧ (∀ threadId accountId,
       (run net (getThreadEmails getTime client threadId accountId) n).1 = inl [])
  ∧ (∀ query limit,
       (run net (searchEmails client query limit) n).1 = inl []).
Proof.
  intros Hcut.
  split; [by apply cut_off_getMailboxes|]. split; [by apply cut_off_getAllMailboxes|].
  split; [|split; [|split]].
  - intros. by apply cut_off_getEmails.
  - intros. unfold getEmail. rewrite run_try_catch, run_request_bind.
    by answer_cut_off Hcut.
  - intros. unfold getThreadEmails, getThread.
    rewrite run_try_catch, run_bind, run_try_catch, run_request_bind.
    by answer_cut_off Hcut.
  - intros. destruct (run_searchEmails net client query limit n) as (l & -> & Hl).
    f_equal. apply Hl. apply Hcut.
Qed.

(** *** [getAllMailboxes], account by account *)



(** *** Composing without the mailbox list *)

Lemma getMailboxes_failed net client n err :
  request_outcome net client [Mailbox_get (accountId client)] n = inr err →
  run net (getMailboxes client) n
  = (inl [fallbackInbox client], if String.eqb (apiUrl client) "" then n else S n).
Proof.
  intros Hout. unfold getMailboxes.
  by rewrite run_try_catch, run_request_bind, Hout.
Qed.

(** X16.  When the mailbox request fails, [createDraft] rejects with [No
    drafts mailbox found] and [sendEmail] with [No sent mailbox found], and
    no further request is sent: the made-up inbox has neither role. *)
Theorem compose_without_mailboxes (net : Network) (client : JMAPClient)
    (n : nat) (err : JsError) :
  request_outcome net client [Mailbox_get (accountId client)] n = inr err →
  (∀ to subject body cc bcc draftId attachments,
     run net (createDraft client to subject body cc bcc draftId attachments) n
     = (inr (ErrorObj "No drafts mailbox found"),
        if String.eqb (apiUrl client) "" then n else S n))
  ∧ (∀ to subject body cc bcc draftId,
       run net (sendEmail client to subject body cc bcc draftId) n
       = (inr (ErrorObj "No sent mailbox found"),
          if String.eqb (apiUrl client) "" then n else S n)).
Proof.
  intros Hout. split; intros.
  - unfold createDraft. rewrite run_bind, (getMailboxes_failed _ _ _ _ Hout). done.
  - unfold sendEmail. rewrite run_bind.
    destruct (truthy draftId); simpl;
      rewrite run_bind, (getMailboxes_failed _ _ _ _ Hout); done.
Qed.

(** X17.  [createDraft] on a server that lists a drafts mailbox and answers
    the batch with an [Email/set] result without errors returns the id that
    [created] gives for the creation id [draft-] followed by the clock, and
    rejects with [Failed to save draft] when there is none. *)
Theorem createDraft_answers (net : Network) (client : JMAPClient)
    (to : list string) (subject body : string) (cc bcc : option (list string))
    (draftId : option string) (attachments : option (list (string * string * string)))
    (n n1 : nat) (mailboxes : list Mailbox.t) (draftsMailbox : Mailbox.t)
    (response : JMAPResponse) (result : MethodResult) :
  let emailId := "draft-" +:+ pretty (clock net) in
  let index := if truthy draftId then 1%nat else 0%nat in
  run net (getMailboxes client) n = (inl mailboxes, n1) →
  find (λ mb, bool_decide (Mailbox.role mb = Some "drafts")) mailboxes
    = Some draftsMailbox →
  request_outcome net client
    (createDraft_calls client draftId emailId
       (createDraft_email client to subject body cc bcc attachments draftsMailbox))
    n1 = inl response →
  method_is response index "Email/set" = true →
  result_at response index = Some result →
  set_errors result = None →
  (run net (createDraft client to subject body cc bcc draftId attachments) n).1
  = match created result ≫= (λ c, c !! emailId) with
    | Some newId => inl newId
    | None => inr (ErrorObj "Failed to save draft")
    end.
Proof.
  intros emailId index Hmb Hfind Hout Hmethod Hresult Herrors.
  unfold createDraft. rewrite run_bind, Hmb, Hfind. simpl.
  rewrite run_request_bind. fold emailId. rewrite Hout.
  unfold createDraft_result. fold index. rewrite Hmethod, Hresult, Herrors.
  by destruct (created result ≫= _).
Qed.

(** *** The update block of a batch *)


End WithRuntime.

(** *** The theorems on the scenarios *)

Lemma dead_network_cuts_off : cut_off Scenario.dead_network Scenario.client.
Proof. intros methodCalls n. by eexists. Qed.

(** What the reads return while the network is down. *)
Lemma reads_on_dead_network :
  (run Scenario.dead_network (getMailboxes Scenario.client) 0).1
  = inl [fallbackInbox Scenario.client]
  ∧ (run Scenario.dead_network (getAllMailboxes Scenario.client) 0).1 = inl []
  ∧ (run Scenario.dead_network
       (getEmails Scenario.client (Some "INBOX") None 50 0) 0).1
    = inl emptyResult
  ∧ (run Scenario.dead_network (getEmail Scenario.client "M1" None) 0).1 = inl None
  ∧ (run Scenario.dead_network
       (getThreadEmails Outage.no_clock Scenario.client "T-M1" None) 0).1
    = inl []
  ∧ (run Scenario.dead_network (searchEmails Scenario.client "plan" 50) 0).1
    = inl [].
Proof.
  destruct (reads_fall_back_when_cut_off Outage.no_clock Scenario.dead_network
              Scenario.client 0 dead_network_cuts_off)
    as (Hmb & Hall & Hemails & Hemail & Hthread & Hsearch).
  split; [exact Hmb|]. split; [exact Hall|]. split; [apply Hemails|].
  split; [apply Hemail|]. split; [apply Hthread | apply Hsearch].
Defined.


(** Composing while the network is down. *)
Lemma compose_on_dead_network :
  run Scenario.dead_network
    (createDraft Scenario.client ["ann@example.org"] "Plan" "Hello" None None None None)
    0
  = (inr (ErrorObj "No drafts mailbox found"), 1%nat)
  ∧ run Scenario.dead_network
      (sendEmail Scenario.client ["ann@example.org"] "Plan" "Hello" None None None) 0
    = (inr (ErrorObj "No sent mailbox found"), 1%nat).
Proof.
  destruct (compose_without_mailboxes Scenario.dead_network Scenario.client 0
              (ErrorObj "Failed to fetch") eq_refl) as [Hdraft Hsend].
  split; [apply Hdraft | apply Hsend].
Defined.

(** A draft that the server stores. *)
Lemma draft_stored :
  (run Drafting.drafts_server
     (createDraft Scenario.client ["ann@example.org"] "Plan" "Hello" None None None
        None) 0).1
  = inl "E77".
Proof.
  etransitivity.
  - eapply (createDraft_answers Drafting.drafts_server Scenario.client
              ["ann@example.org"] "Plan" "Hello" None None None None 0).
    + vm_compute. reflexivity.
    + vm_compute. reflexivity.
    + vm_compute. reflexivity.
    + vm_compute. reflexivity.
    + vm_compute. reflexivity.
    + vm_compute. reflexivity.
  - vm_compute. reflexivity.
Defined.
End ClientFacts.

(** ** More of the mail store *)

Module StoreFacts.
Import Store StoreSpec StoreActions StoreTerms StoreProofs.

Section Run.
Variable settings : SettingsView.
Variable now : Z.

Abbreviation run := (Store.run settings now).

Ltac step answers :=
  first
    [ rewrite (run_then settings now answers get), (run_get settings now)
    | rewrite (run_then settings now answers (set _)), (run_set settings now)
    | rewrite (run_then settings now answers (call _ _)), (run_call settings now)
    | rewrite (run_caught settings now)
    | rewrite (run_set settings now)
    | rewrite (run_get settings now)
    | rewrite (run_call settings now) ].

(** *** The loading flags *)

Lemma run_fetchMailboxes answers client st calls :
  run answers (fetchMailboxes client) st calls
  = (match answers _ (length calls) client GetAllMailboxes with
     | inl mailboxes =>
         let st1 := set_mailboxes mailboxes (set_isLoading false (set_error None st)) in
         if String.eqb (selectedMailbox st) "" then
           match find (λ m, bool_decide (Mailbox.role m = Some "inbox")
                            && negb (Mailbox.isShared m)) mailboxes with
           | Some inboxMailbox => set_selectedMailbox (Mailbox.id inboxMailbox) st1
           | None => st1
           end
         else st1
     | inr err =>
         set_error (Some (message_or err "Failed to fetch mailboxes"))
           (set_isLoading false st)
     end,
     inl tt, calls ++ [issued client GetAllMailboxes]).
Proof.
  unfold fetchMailboxes. do 3 step answers.
  destruct (answers _ (length calls) client GetAllMailboxes) as [mailboxes|err];
    simpl; [|by destruct st].
  destruct (String.eqb (selectedMailbox st) ""); simpl; [|by destruct st].
  destruct (find _ mailboxes); simpl; by destruct st.
Qed.

Lemma run_fetchEmails answers client mailboxId st calls :
  let c := page_call settings st (or_else mailboxId (selectedMailbox st)) 0 in
  run answers (fetchEmails client mailboxId) st calls
  = (match answers _ (length calls) client c with
     | inl result =>
         set_emails (Client.emails result)
           (set_hasMoreEmails (Client.hasMore result)
              (set_totalEmails (Client.res_total result)
                 (set_isLoading false (set_error None st))))
     | inr err =>
         set_error (Some (message_or err "Failed to fetch emails"))
           (set_isLoading false
              (set_emails [] (set_hasMoreEmails false (set_totalEmails 0 st))))
     end,
     inl tt, calls ++ [issued client c]).
Proof.
  intros c. subst c. unfold fetchEmails, page_call. step answers. step answers.
  simpl.
  destruct (answers _ (length calls) client _) as [result|err]; simpl; by destruct st.
Qed.

Lemma selection_empty (X : gset string) : size X = 0%nat ↔ X = ∅.
Proof. rewrite size_empty_iff. split; [apply leibniz_equiv | by intros ->]. Qed.

Lemma selection_elements (X : gset string) :
  X ≠ ∅ → ∃ id ids, elements X = id :: ids.
Proof.
  intros HX. destruct (elements X) as [|id ids] eqn:He; [|by eexists _, _].
  by apply elements_empty_inv, leibniz_equiv in He.
Qed.

Lemma run_loadMoreEmails answers client st calls :
  let c := page_call settings st (selectedMailbox st) (Z.of_nat (length (emails st))) in
  run answers (loadMoreEmails client) st calls
  = if isLoadingMore st || negb (hasMoreEmails st) then (st, inl tt, calls)
    else
      (match answers _ (length calls) client c with
       | inl result =>
           set_emails (emails st ++ Client.emails result)
             (set_hasMoreEmails (Client.hasMore result)
                (set_totalEmails (Client.res_total result)
                   (set_isLoadingMore false (set_error None st))))
       | inr err =>
           set_error (Some (message_or err "Failed to load more emails"))
             (set_isLoadingMore false st)
       end,
       inl tt, calls ++ [issued client c]).
Proof.
  intros c. subst c. unfold loadMoreEmails, page_call. step answers.
  destruct (isLoadingMore st || negb (hasMoreEmails st)) eqn:Hguard; [done|].
  step answers. step answers. simpl.
  destruct (answers _ (length calls) client _) as [result|err]; simpl; by destruct st.
Qed.

(** X19.  [fetchMailboxes], [fetchEmails] and the batch operations return
    without a throw and leave [isLoading] cleared whatever the client
    answers; a batch operation on an empty selection changes nothing and
    issues no call; [loadMoreEmails] returns without a throw and leaves
    [isLoadingMore] as it was. *)
Theorem loading_flags_are_cleared (answers : Answers) (client : Client.JMAPClient)
    (st : EmailStore) (calls : list Issued) :
  let finished (p : prog unit) :=
    (run answers p st calls).1.2 = inl tt
    ∧ isLoading (run answers p st calls).1.1 = false in
  finished (fetchMailboxes client)
  ∧ (∀ mailboxId, finished (fetchEmails client mailboxId))
  ∧ (selectedEmailIds st ≠ ∅ →
     (∀ read, finished (batchMarkAsRead client read))
     ∧ finished (batchDelete client)
     ∧ ∀ toMailboxId, finished (batchMoveToMailbox client toMailboxId))
  ∧ (selectedEmailIds st = ∅ →
     (∀ read, run answers (batchMarkAsRead client read) st calls = (st, inl tt, calls))
     ∧ run answers (batchDelete client) st calls = (st, inl tt, calls)
     ∧ ∀ toMailboxId,
         run answers (batchMoveToMailbox client toMailboxId) st calls
         = (st, inl tt, calls))
  ∧ (run answers (loadMoreEmails client) st calls).1.2 = inl tt
  ∧ isLoadingMore (run answers (loadMoreEmails client) st calls).1.1
    = isLoadingMore st.
Proof.
  intros finished. subst finished. cbv beta.
  split; [|split; [|split; [|split; [|split]]]].
  - rewrite run_fetchMailboxes. split; [done|]. simpl.
    destruct (answers _ _ _ _); simpl; [|done].
    destruct (String.eqb _ _); simpl; [|done]. by destruct (find _ _).
  - intros mailboxId. rewrite run_fetchEmails. split; [done|]. simpl.
    by destruct (answers _ _ _ _).
  - intros Hsel. rewrite <- selection_empty in Hsel.
    split; [|split].
    + intros read. unfold batchMarkAsRead. step answers.
      rewrite bool_decide_eq_false_2 by done. do 3 step answers.
      by destruct (answers _ _ _ _).
    + unfold batchDelete. step answers.
      rewrite bool_decide_eq_false_2 by done. do 3 step answers.
      by destruct (answers _ _ _ _).
    + intros toMailboxId. unfold batchMoveToMailbox. step answers.
      rewrite bool_decide_eq_false_2 by done. do 3 step answers.
      destruct (answers unit _ _ _) as [[]|err]; [|done].
      do 2 step answers. rewrite run_fetchEmails. split; [done|]. simpl.
      by destruct (answers _ _ _ _).
  - intros Hsel. assert (Hsize : size (selectedEmailIds st) = 0%nat).
    { by apply selection_empty. }
    split; [|split]; intros;
      unfold batchMarkAsRead, batchDelete, batchMoveToMailbox; step answers;
      by rewrite bool_decide_eq_true_2.
  - rewrite run_loadMoreEmails. by destruct (_ || _).
  - rewrite run_loadMoreEmails.
    destruct (isLoadingMore st) eqn:Hmore; simpl; [done|].
    destruct (negb (hasMoreEmails st)); simpl; [done|].
    by destruct (answers _ _ _ _).
Qed.

(** *** A call that rejects *)

Lemma processing_restored (X : gset string) (key : string) :
  key ∉ X → (X ∪ {[key]}) ∖ {[key]} = X.
Proof.
  intros Hkey. apply set_eq. intros x.
  rewrite elem_of_difference, elem_of_union, !elem_of_singleton.
  split; [intros [[?|?] ?]; tauto|]. intros Hx. split; [by left|]. by intros ->.
Qed.

(** X20.  When the client rejects the mutations, the store is left as it was
    with the error message set: on an email of the page, [markAsRead] (of a
    flag to change), [deleteEmail], [moveToMailbox] and [toggleStar] (of an
    email with keywords) rethrow the error, and [markAsRead] gives its key
    back; the batch operations on a selection return, keep the selection and
    clear [isLoading]. *)
Theorem rejected_mutation_changes_nothing_but_error (answers : Answers)
    (client : Client.JMAPClient) (err : JsError) (emailId : string)
    (e : Email.t) (st : EmailStore) (calls : list Issued) :
  rejecting answers client err →
  find_email emailId (emails st) = Some e →
  (∀ read,
     flag (Email.keywords e) "$seen" ≠ read →
     processingKey emailId read ∉ processingReadStatus st →
     (run answers (markAsRead client emailId read) st calls).1
     = (set_error (Some (message_or err "Failed to update email")) st, inr err))
  ∧ (run answers (deleteEmail client emailId) st calls).1
    = (set_error (Some (message_or err "Failed to delete email")) st, inr err)
  ∧ (∀ destinationMailboxId,
       (run answers (moveToMailbox client emailId destinationMailboxId) st calls).1
       = (set_error (Some (message_or err "Failed to move email")) st, inr err))
  ∧ (is_Some (Email.keywords e) →
     (run answers (toggleStar client emailId) st calls).1
     = (set_error (Some (message_or err "Failed to update star")) st, inr err))
  ∧ (selectedEmailIds st ≠ ∅ →
     (∀ read,
        (run answers (batchMarkAsRead client read) st calls).1
        = (set_error (Some (message_or err "Failed to update emails"))
             (set_isLoading false st), inl tt))
     ∧ (run answers (batchDelete client) st calls).1
       = (set_error (Some (message_or err "Failed to delete emails"))
            (set_isLoading false st), inl tt)
     ∧ ∀ toMailboxId,
         (run answers (batchMoveToMailbox client toMailboxId) st calls).1
         = (set_error (Some (message_or err "Failed to move emails"))
              (set_isLoading false st), inl tt)).
Proof.
  intros Hrej Hfind. split; [|split; [|split; [|split]]].
  - intros read Hflag Hkey.
    assert (Hneq : Bool.eqb (flag (Email.keywords e) "$seen") read = false).
    { by apply Bool.eqb_false_iff. }
    unfold markAsRead. do 2 step answers.
    rewrite (bool_decide_eq_false_2 _ Hkey). step answers. rewrite Hfind, Hneq.
    do 4 step answers. rewrite Hrej by done. lazy beta iota zeta. step answers. simpl.
    rewrite processing_restored by done. by destruct st.
  - unfold deleteEmail. do 2 step answers. rewrite Hfind. simpl.
    destruct (deleteAction settings); [destruct (find_trash _ _)|];
      simpl; rewrite Hrej by done; by destruct st.
  - intros destinationMailboxId. unfold moveToMailbox. do 2 step answers.
    rewrite Hfind. step answers. rewrite Hrej by done. lazy beta iota zeta.
    step answers. by destruct st.
  - intros [keywords Hkw]. unfold toggleStar. do 2 step answers.
    rewrite Hfind, Hkw. step answers. rewrite Hrej by done. lazy beta iota zeta.
    step answers. by destruct st.
  - intros Hsel. destruct (selection_elements _ Hsel) as (id & ids & Hids).
    rewrite <- selection_empty in Hsel.
    split; [|split]; intros;
      unfold batchMarkAsRead, batchDelete, batchMoveToMailbox; step answers;
      rewrite bool_decide_eq_false_2 by done; do 3 step answers;
      rewrite Hids, Hrej by done; lazy beta iota zeta; step answers; by destruct st.
Qed.

(** *** A call that resolves *)

Ltac resolved H :=
  match goal with
  | |- context [?answers unit ?n ?client ?c] =>
      let r := fresh "r" in
      let Hr := fresh "Hr" in
      destruct (H unit n c) as [r Hr]; destruct r; rewrite Hr
  end.

Lemma run_markAsRead answers client emailId read st e calls :
  accepting answers client →
  find_email emailId (emails st) = Some e →
  flag (Email.keywords e) "$seen" ≠ read →
  processingKey emailId read ∉ processingReadStatus st →
  run answers (markAsRead client emailId read) st calls
  = (markAsRead_update emailId read
       (set_processingReadStatus
          (processingReadStatus st ∪ {[processingKey emailId read]}) st),
     inl tt,
     calls ++ [issued client
                 (MarkAsRead emailId read
                    (shared_accountId
                       (find_mailbox (selectedMailbox st) (mailboxes st))))]).
Proof.
  intros Hacc Hfind Hflag Hkey.
  assert (Hneq : Bool.eqb (flag (Email.keywords e) "$seen") read = false).
  { by apply Bool.eqb_false_iff. }
  unfold markAsRead. do 2 step answers.
  rewrite (bool_decide_eq_false_2 _ Hkey). step answers. rewrite Hfind, Hneq.
  do 4 step answers. resolved Hacc. lazy beta iota zeta. by step answers.
Qed.

Lemma find_email_map emailId (f : Email.t → Email.t) (l : list Email.t) :
  (∀ e, Email.id (f e) = Email.id e) →
  find_email emailId
    (map (λ e, if String.eqb (Email.id e) emailId then f e else e) l)
  = f <$> find_email emailId l.
Proof.
  intros Hid. unfold find_email. induction l as [|e l IH]; simpl; [done|].
  destruct (String.eqb (Email.id e) emailId) eqn:He; simpl.
  - by rewrite Hid, He.
  - by rewrite He.
Qed.

Lemma flag_with_keyword key value e :
  flag (Email.keywords (Email.with_keyword key value e)) key = value.
Proof. unfold flag. simpl. rewrite lookup_insert_eq. by destruct value. Qed.

(** X21.  Marking an email of the page as read or unread and back, with an
    accepting client and counters that are not negative: the flag follows
    each time, no key stays in [processingReadStatus], and every mailbox is
    as before, except that a mailbox of an email that was unread counts at
    least one unread email and thread afterwards. *)
Theorem markAsRead_there_and_back (answers : Answers) (client : Client.JMAPClient)
    (emailId : string) (e : Email.t) (st : EmailStore) :
  accepting answers client →
  counters_ok st →
  find_email emailId (emails st) = Some e →
  processingReadStatus st = ∅ →
  let seen := flag (Email.keywords e) "$seen" in
  let st1 := after settings now answers (markAsRead client emailId (negb seen)) st in
  let st2 := after settings now answers (markAsRead client emailId seen) st1 in
  seen_flag emailId st1 = Some (negb seen)
  ∧ seen_flag emailId st2 = Some seen
  ∧ processingReadStatus st2 = ∅
  ∧ mailboxes st2
    = map (λ m, if member e m && negb seen then some_unread m else m) (mailboxes st).
Proof.
  intros Hacc Hok Hfind Hproc seen st1 st2.
  assert (Hflag1 : flag (Email.keywords e) "$seen" ≠ negb seen).
  { subst seen. by destruct (flag _ _). }
  assert (Hst1 : st1 = markAsRead_update emailId (negb seen)
                         (set_processingReadStatus
                            (processingReadStatus st
                             ∪ {[processingKey emailId (negb seen)]}) st)).
  { subst st1. unfold after. rewrite (run_markAsRead _ _ _ _ _ e); [done..|].
    rewrite Hproc. apply not_elem_of_empty. }
  assert (Hneq1 : Bool.eqb (flag (Email.keywords e) "$seen") (negb seen) = false).
  { by apply Bool.eqb_false_iff. }
  unfold markAsRead_update in Hst1. cbn [emails set_processingReadStatus] in Hst1.
  rewrite Hfind, Hneq1 in Hst1.
  set (e1 := Email.with_keyword "$seen" (negb seen) e).
  assert (Hfind1 : find_email emailId (emails st1) = Some e1).
  { rewrite Hst1. cbn [emails set_emails].
    rewrite (find_email_map emailId (Email.with_keyword "$seen" (negb seen))) by done.
    by rewrite Hfind. }
  assert (Hseen1 : flag (Email.keywords e1) "$seen" = negb seen).
  { apply flag_with_keyword. }
  assert (Hproc1 : processingReadStatus st1 = ∅).
  { rewrite Hst1. simpl. rewrite Hproc. apply processing_restored, not_elem_of_empty. }
  assert (Hst2 : st2 = markAsRead_update emailId seen
                         (set_processingReadStatus
                            (processingReadStatus st1
                             ∪ {[processingKey emailId seen]}) st1)).
  { subst st2. unfold after. rewrite (run_markAsRead _ _ _ _ _ e1); [done..| |].
    - rewrite Hseen1. by destruct seen.
    - rewrite Hproc1. apply not_elem_of_empty. }
  assert (Hneq2 : Bool.eqb (flag (Email.keywords e1) "$seen") seen = false).
  { rewrite Hseen1. by destruct seen. }
  unfold markAsRead_update in Hst2. cbn [emails set_processingReadStatus] in Hst2.
  rewrite Hfind1, Hneq2 in Hst2.
  unfold seen_flag.
  split; [|split; [|split]].
  - rewrite Hfind1. change (Some (flag (Email.keywords e1) "$seen") = Some (negb seen)).
    by rewrite Hseen1.
  - rewrite Hst2. cbn [emails set_emails].
    rewrite (find_email_map emailId (Email.with_keyword "$seen" seen)) by done.
    rewrite Hfind1.
    change (Some (flag (Email.keywords (Email.with_keyword "$seen" seen e1)) "$seen")
            = Some seen).
    by rewrite flag_with_keyword.
  - rewrite Hst2. simpl. rewrite Hproc1.
    apply processing_restored, not_elem_of_empty.
  - rewrite Hst2. cbn [mailboxes set_emails set_selectedEmail set_mailboxes
                       set_processingReadStatus].
    rewrite Hst1 at 1. cbn [mailboxes set_emails set_selectedEmail set_mailboxes
                            set_processingReadStatus].
    rewrite map_map. apply (map_ext_Forall nonneg); [done|]. intros m Hm.
    subst e1. unfold member, some_unread, shift_unread, nonneg in *. simpl.
    destruct (flag (Email.mailboxIds e) (Mailbox.id m)) eqn:Hmember; simpl;
      rewrite Hmember; [|done].
    fold seen. destruct seen; simpl.
    + etransitivity; [|apply mailbox_eta]. unfold Mailbox.with_counters. simpl.
      f_equal; lia.
    + unfold Mailbox.with_counters. simpl. f_equal; lia.
Qed.

(** X22.  [deleteEmail] of an email of the page with an accepting client
    returns after one call (the move to the trash of the account when the
    settings say so and there is one, the destruction otherwise), removes
    the emails of this id from the page, closes the email if it was open,
    and leaves the selection and the error alone. *)
Theorem deleteEmail_removes_from_page (answers : Answers)
    (client : Client.JMAPClient) (emailId : string) (e : Email.t)
    (st : EmailStore) (calls : list Issued) :
  accepting answers client →
  find_email emailId (emails st) = Some e →
  let r := run answers (deleteEmail client emailId) st calls in
  r.1.2 = inl tt
  ∧ r.2 = calls ++ [issued client (delete_call settings st emailId)]
  ∧ emails r.1.1 = filter (λ e, Email.id e ≠ emailId) (emails st)
  ∧ find_email emailId (emails r.1.1) = None
  ∧ selectedEmail r.1.1
    = (if is_selected emailId st then None else selectedEmail st)
  ∧ selectedEmailIds r.1.1 = selectedEmailIds st
  ∧ error r.1.1 = error st.
Proof.
  intros Hacc Hfind r.
  assert (Hgone : find_email emailId (filter (λ e, Email.id e ≠ emailId) (emails st))
                  = None).
  { apply find_email_absent. by intros e' [He' _]%list_elem_of_filter. }
  subst r. unfold deleteEmail, delete_call. do 2 step answers. rewrite Hfind. simpl.
  destruct (deleteAction settings); [destruct (find_trash _ _)|];
    simpl; resolved Hacc; simpl; by repeat split.
Qed.

(** *** Asking the client with the ids of the server *)


(** *** A state change *)

Lemma run_refreshCurrentMailbox answers client st calls :
  let c := page_call settings st (selectedMailbox st) 0 in
  run answers (refreshCurrentMailbox client) st calls
  = if String.eqb (selectedMailbox st) "" then (st, inl tt, calls)
    else
      (match answers _ (length calls) client c with
       | inl result =>
           let st1 :=
             match head (Client.emails result) with
             | Some first =>
                 if bool_decide (Email.id <$> head (emails st) ≠ Some (Email.id first))
                 then set_newEmailNotification (Some first) st
                 else st
             | None => st
             end in
           set_emails (Client.emails result)
             (set_hasMoreEmails (Client.hasMore result)
                (set_totalEmails (Client.res_total result) st1))
       | inr _ => st
       end,
       inl tt, calls ++ [issued client c]).
Proof.
  intros c. subst c. unfold refreshCurrentMailbox, page_call. step answers.
  destruct (String.eqb (selectedMailbox st) ""); [done|].
  do 2 step answers. simpl.
  destruct (answers _ (length calls) client _) as [result|err]; simpl; [|done].
  destruct (head (Client.emails result)) as [first|]; simpl; [|done].
  by destruct (bool_decide _).
Qed.

Lemma run_now {A : Type} answers (f : Z → prog A) st calls :
  run answers (Prog.perform Store.Now ≫= f) st calls = run answers (f now) st calls.
Proof. done. Qed.

Lemma handleStateChange_with_tokens answers change client accountChanges st calls :
  changed change !! Client.accountId client = Some accountChanges →
  let r := run answers (handleStateChange change client) st calls in
  r.1.2 = inl tt
  ∧ lastPushUpdate r.1.1 = Some now
  ∧ r.2 = calls
          ++ (if truthy (change_Email accountChanges)
                 && negb (String.eqb (selectedMailbox st) "")
              then [issued client (page_call settings st (selectedMailbox st) 0)]
              else [])
          ++ (if truthy (change_Mailbox accountChanges)
              then [issued client GetAllMailboxes] else []).
Proof.
  intros Htokens r. subst r. unfold handleStateChange.
  rewrite (run_caught settings now), run_now. step answers.
  set (st1 := set_lastPushUpdate (Some now) st). rewrite Htokens.
  rewrite (run_then settings now).
  assert (Hmb : ∀ st2 calls2,
            let r2 := run answers (if truthy (change_Mailbox accountChanges)
                                   then fetchMailboxes client else Prog.Ret tt)
                          st2 calls2 in
            r2.1.2 = inl tt
            ∧ lastPushUpdate r2.1.1 = lastPushUpdate st2
            ∧ r2.2 = calls2 ++ (if truthy (change_Mailbox accountChanges)
                                then [issued client GetAllMailboxes] else [])).
  { intros st2 calls2. destruct (truthy (change_Mailbox accountChanges)).
    - rewrite run_fetchMailboxes. simpl. split; [done|]. split; [|done].
      destruct (answers _ _ _ _); simpl; [|done].
      destruct (String.eqb _ _); [|done]. by destruct (find _ _).
    - simpl. by rewrite app_nil_r. }
  assert (Hend : ∀ st2 calls2 extra,
            lastPushUpdate st2 = Some now →
            let r2 :=
              (let '(st', s, calls') :=
                 run answers (if truthy (change_Mailbox accountChanges)
                              then fetchMailboxes client else Prog.Ret tt)
                     st2 calls2 in
               match s with
               | inl a => (st', inl a, calls')
               | inr err =>
                   run answers
                     (set (set_error
                             (Some (message_or err
                                      "Failed to handle push notification"))))
                     st' calls'
               end) in
            calls2 = calls ++ extra →
            r2.1.2 = inl tt
            ∧ lastPushUpdate r2.1.1 = Some now
            ∧ r2.2 = calls ++ extra
                     ++ (if truthy (change_Mailbox accountChanges)
                         then [issued client GetAllMailboxes] else [])).
  { intros st2 calls2 extra Hlast r2 ->. subst r2.
    pose proof (Hmb st2 (calls ++ extra)) as Hm. cbv zeta in Hm.
    destruct (run answers _ st2 (calls ++ extra)) as [[st3 res3] calls3].
    cbn [fst snd] in Hm. destruct Hm as (-> & Hlast3 & ->). cbn [fst snd].
    split; [done|]. split; [congruence|]. by rewrite app_assoc. }
  destruct (truthy (change_Email accountChanges)); lazy beta iota zeta.
  - rewrite run_refreshCurrentMailbox.
    change (selectedMailbox st1) with (selectedMailbox st).
    change (page_call settings st1) with (page_call settings st).
    destruct (String.eqb (selectedMailbox st) ""); lazy beta iota zeta.
    + apply (Hend st1 calls []); [done|]. by rewrite app_nil_r.
    + cbn [andb negb]. apply Hend; [|done].
      destruct (answers _ _ _ _); simpl; try done;
        destruct (head _); simpl; try done; by destruct (bool_decide _).
  - change (run answers (Prog.Ret tt) st1 calls) with (st1, inl tt : unit + JsError, calls).
    lazy beta iota zeta. apply (Hend st1 calls []); [done|]. by rewrite app_nil_r.
Qed.

(** X24.  [handleStateChange] returns without a throw and records the time
    of the push; it asks for the first page of the selected mailbox exactly
    when the descriptor holds an [Email] state for the account of the client
    and a mailbox is selected, then for the mailboxes exactly when it holds
    a [Mailbox] state, and issues no other call; a descriptor without the
    account changes nothing else. *)
Theorem handleStateChange_refreshes_what_changed (answers : Answers)
    (change : StateChange) (client : Client.JMAPClient) (st : EmailStore)
    (calls : list Issued) :
  let r := run answers (handleStateChange change client) st calls in
  let tokens := changed change !! Client.accountId client in
  r.1.2 = inl tt
  ∧ lastPushUpdate r.1.1 = Some now
  ∧ r.2 = calls
          ++ (if truthy (tokens ≫= change_Email)
                 && negb (String.eqb (selectedMailbox st) "")
              then [issued client (page_call settings st (selectedMailbox st) 0)]
              else [])
          ++ (if truthy (tokens ≫= change_Mailbox)
              then [issued client GetAllMailboxes] else [])
  ∧ (tokens = None → r.1.1 = set_lastPushUpdate (Some now) st).
Proof.
  intros r tokens. subst r tokens.
  destruct (changed change !! Client.accountId client) as [accountChanges|]
    eqn:Htokens.
  - destruct (handleStateChange_with_tokens answers change client accountChanges
                st calls Htokens) as (Hdone & Hlast & Hcalls).
    cbn [mbind option_bind]. by repeat split.
  - unfold handleStateChange.
    rewrite (run_caught settings now), run_now. step answers. rewrite Htokens.
    simpl. by rewrite app_nil_r.
Qed.

(** *** The selection *)

Lemma or_else_same (s : string) : or_else (Some s) s = s.
Proof. unfold or_else, truthy. by destruct (String.eqb s ""). Qed.

Lemma run_batchDelete answers client st calls :
  accepting answers client →
  selectedEmailIds st ≠ ∅ →
  ∃ updatedMailboxes,
    run answers (batchDelete client) st calls
    = (set_emails (filter (λ e, Email.id e ∉ selectedEmailIds st) (emails st))
         (set_mailboxes updatedMailboxes
            (set_selectedEmailIds ∅
               (set_selectedEmail None (set_isLoading false (set_error None st))))),
       inl tt,
       calls ++ [issued client (BatchDeleteEmails (elements (selectedEmailIds st)))]).
Proof.
  intros Hacc Hsel. rewrite <- selection_empty in Hsel.
  unfold batchDelete. step answers.
  rewrite bool_decide_eq_false_2 by done. do 3 step answers.
  resolved Hacc. lazy beta iota zeta. step answers.
  eexists. reflexivity.
Qed.

Lemma run_batchMarkAsRead answers client read st calls :
  accepting answers client →
  selectedEmailIds st ≠ ∅ →
  ∃ updatedMailboxes,
    run answers (batchMarkAsRead client read) st calls
    = (set_emails
         (map (λ email, if bool_decide (Email.id email ∈ selectedEmailIds st)
                        then Email.with_keyword "$seen" read email
                        else email)
              (emails st))
         (set_mailboxes updatedMailboxes
            (set_selectedEmailIds ∅ (set_isLoading false (set_error None st)))),
       inl tt,
       calls ++ [issued client
                   (BatchMarkAsRead (elements (selectedEmailIds st)) read)]).
Proof.
  intros Hacc Hsel. rewrite <- selection_empty in Hsel.
  unfold batchMarkAsRead. step answers.
  rewrite bool_decide_eq_false_2 by done. do 3 step answers.
  resolved Hacc. lazy beta iota zeta. step answers.
  eexists. reflexivity.
Qed.

(** X25.  With an accepting client and a selection that is not empty:
    [batchDelete] removes the selected emails from the page,
    [batchMarkAsRead] sets the flag of the selected emails and leaves the
    others and the order alone, [batchMoveToMailbox] moves and asks for the
    first page again; each clears the selection and sends the selected ids
    in one call. *)
Theorem batch_acts_on_the_selection (answers : Answers)
    (client : Client.JMAPClient) (st : EmailStore) (calls : list Issued) :
  accepting answers client →
  selectedEmailIds st ≠ ∅ →
  (let r := run answers (batchDelete client) st calls in
   emails r.1.1 = filter (λ e, Email.id e ∉ selectedEmailIds st) (emails st)
   ∧ selectedEmailIds r.1.1 = ∅
   ∧ selectedEmail r.1.1 = None
   ∧ r.2 = calls ++ [issued client (BatchDeleteEmails (elements (selectedEmailIds st)))])
  ∧ (∀ read,
       let r := run answers (batchMarkAsRead client read) st calls in
       map Email.id (emails r.1.1) = map Email.id (emails st)
       ∧ (∀ e, e ∈ emails r.1.1 →
               if bool_decide (Email.id e ∈ selectedEmailIds st)
               then flag (Email.keywords e) "$seen" = read
               else e ∈ emails st)
       ∧ selectedEmailIds r.1.1 = ∅
       ∧ r.2 = calls ++ [issued client
                           (BatchMarkAsRead (elements (selectedEmailIds st)) read)])
  ∧ (∀ toMailboxId,
       let r := run answers (batchMoveToMailbox client toMailboxId) st calls in
       selectedEmailIds r.1.1 = ∅
       ∧ r.2 = calls
               ++ [ issued client
                      (BatchMoveEmails (elements (selectedEmailIds st)) toMailboxId);
                    issued client (page_call settings st (selectedMailbox st) 0) ]).
Proof.
  intros Hacc Hsel. split; [|split].
  - destruct (run_batchDelete answers client st calls Hacc Hsel) as [mbs ->].
    by repeat split.
  - intros read.
    destruct (run_batchMarkAsRead answers client read st calls Hacc Hsel) as [mbs ->].
    cbn [fst snd emails set_emails selectedEmailIds set_mailboxes
         set_selectedEmailIds set_isLoading set_error].
    split; [|split; [|done]].
    + rewrite map_map. apply map_ext. intros e. by destruct (bool_decide _).
    + intros e (e0 & -> & He0)%list_elem_of_fmap.
      destruct (bool_decide (Email.id e0 ∈ selectedEmailIds st)) eqn:Hin.
      * change (Email.id (Email.with_keyword "$seen" read e0)) with (Email.id e0).
        rewrite Hin. apply flag_with_keyword.
      * by rewrite Hin.
  - intros toMailboxId. rewrite <- selection_empty in Hsel.
    unfold batchMoveToMailbox. step answers.
    rewrite bool_decide_eq_false_2 by done. do 3 step answers.
    resolved Hacc. lazy beta iota zeta. do 2 step answers.
    rewrite run_fetchEmails. cbn [fst snd]. split.
    + by destruct (answers Client.EmailsResult _ _ _).
    + rewrite <- app_assoc. cbn [selectedMailbox set_emails set_selectedEmailIds
                                  set_isLoading set_error].
      by rewrite or_else_same.
Qed.

Lemma run_selectAllEmails answers st calls :
  run answers selectAllEmails st calls
  = (set_selectedEmailIds (list_to_set (map Email.id (emails st))) st, inl tt, calls).
Proof. unfold selectAllEmails. by do 2 step answers. Qed.

Lemma size_list_to_set_le (l : list string) :
  (size (list_to_set l : gset string) ≤ length l)%nat.
Proof.
  induction l as [|x l IH].
  - change (list_to_set [] : gset string) with (∅ : gset string).
    rewrite size_empty. simpl. lia.
  - rewrite list_to_set_cons, size_union_alt, size_singleton.
    assert (size (list_to_set l ∖ {[x]} : gset string)
            ≤ size (list_to_set l : gset string))%nat.
    { apply subseteq_size. by intros y [? _]%elem_of_difference. }
    simpl. lia.
Qed.

Lemma select_all_nonempty (l : list Email.t) :
  l ≠ [] → (list_to_set (map Email.id l) : gset string) ≠ ∅.
Proof.
  destruct l as [|e l]; [done|]. intros _ Hempty.
  assert (Hin : Email.id e ∈ (∅ : gset string)).
  { rewrite <- Hempty. apply elem_of_list_to_set. by left. }
  by apply not_elem_of_empty in Hin.
Qed.

Lemma filter_selected (X : gset string) (l : list Email.t) :
  (∀ e, e ∈ l → Email.id e ∈ X) → filter (λ e, Email.id e ∉ X) l = [].
Proof.
  induction l as [|e l IH]; intros Hall; [done|].
  rewrite filter_cons_False.
  - apply IH. intros e' He'. apply Hall. by right.
  - intros Hout. apply Hout, Hall. by left.
Qed.

Lemma toggled_twice (X : gset string) (id : string) :
  let toggle (Y : gset string) :=
    if bool_decide (id ∈ Y) then Y ∖ {[id]} else Y ∪ {[id]} in
  toggle (toggle X) = X ∧ (id ∈ toggle X ↔ id ∉ X).
Proof.
  intros toggle. subst toggle. cbv beta. destruct (decide (id ∈ X)) as [Hin|Hin].
  - assert (Hout : id ∉ X ∖ {[id]}).
    { rewrite elem_of_difference, elem_of_singleton. tauto. }
    rewrite !(bool_decide_eq_true_2 (id ∈ X)) by done.
    rewrite (bool_decide_eq_false_2 (id ∈ X ∖ {[id]})) by done. split; [|tauto].
    apply set_eq. intros x. rewrite elem_of_union, elem_of_difference,
      elem_of_singleton.
    destruct (decide (x = id)) as [->|]; tauto.
  - assert (Hnow : id ∈ X ∪ {[id]}).
    { apply elem_of_union. right. by apply elem_of_singleton. }
    rewrite !(bool_decide_eq_false_2 (id ∈ X)) by done.
    rewrite (bool_decide_eq_true_2 (id ∈ X ∪ {[id]})) by done. split; [|tauto].
    by apply processing_restored.
Qed.

(** X26.  Toggling the selection of an email, or the expansion of a thread,
    flips it, and twice restores the set; [selectAllEmails] selects the ids
    of the page, and [batchDelete] after it empties the page with one call;
    [selectMailbox] clears the selection, the open email and the expanded
    threads with their cache. *)
Theorem selection_toggles_and_select_all (answers : Answers)
    (client : Client.JMAPClient) (st : EmailStore) (calls : list Issued) :
  (∀ id,
     let st1 := after settings now answers (toggleEmailSelection id) st in
     (id ∈ selectedEmailIds st1 ↔ id ∉ selectedEmailIds st)
     ∧ selectedEmailIds (after settings now answers (toggleEmailSelection id) st1)
       = selectedEmailIds st)
  ∧ (∀ threadId,
       let st1 := after settings now answers (toggleThreadExpansion threadId) st in
       (threadId ∈ expandedThreadIds st1 ↔ threadId ∉ expandedThreadIds st)
       ∧ expandedThreadIds
           (after settings now answers (toggleThreadExpansion threadId) st1)
         = expandedThreadIds st)
  ∧ (let all := after settings now answers selectAllEmails st in
     (∀ id, id ∈ selectedEmailIds all ↔ ∃ e, e ∈ emails st ∧ Email.id e = id)
     ∧ (size (selectedEmailIds all) ≤ length (emails st))%nat
     ∧ (accepting answers client → emails st ≠ [] →
        let r := run answers (batchDelete client) all calls in
        emails r.1.1 = [] ∧ selectedEmailIds r.1.1 = ∅
        ∧ length r.2 = S (length calls)))
  ∧ (∀ mailboxId,
       let st1 := after settings now answers (selectMailbox mailboxId) st in
       selectedMailbox st1 = mailboxId ∧ selectedEmailIds st1 = ∅
       ∧ selectedEmail st1 = None ∧ expandedThreadIds st1 = ∅
       ∧ threadEmailsCache st1 = ∅ ∧ emails st1 = emails st).
Proof.
  split; [|split; [|split]].
  - intros id st1. subst st1. unfold after, toggleEmailSelection.
    do 4 step answers. cbn [fst selectedEmailIds set_selectedEmailIds].
    destruct (toggled_twice (selectedEmailIds st) id) as [Htwice Hflip].
    by split.
  - intros threadId st1. subst st1. unfold after, toggleThreadExpansion.
    do 4 step answers. cbn [fst expandedThreadIds set_expandedThreadIds].
    destruct (toggled_twice (expandedThreadIds st) threadId) as [Htwice Hflip].
    by split.
  - intros all. subst all. unfold after. rewrite run_selectAllEmails.
    cbn [fst selectedEmailIds set_selectedEmailIds].
    assert (Hall : ∀ id, id ∈ (list_to_set (map Email.id (emails st)) : gset string)
                         ↔ ∃ e, e ∈ emails st ∧ Email.id e = id).
    { intros id. rewrite elem_of_list_to_set, list_elem_of_fmap.
      split; intros (e & H1 & H2); exists e; by split. }
    split; [exact Hall|]. split.
    + rewrite <- (length_map Email.id). apply size_list_to_set_le.
    + intros Hacc Hne.
      set (all := set_selectedEmailIds (list_to_set (map Email.id (emails st))) st).
      assert (Hsel : selectedEmailIds all ≠ ∅) by by apply select_all_nonempty.
      destruct (run_batchDelete answers client all calls Hacc Hsel) as [mbs ->].
      cbn [fst snd emails set_emails selectedEmailIds set_mailboxes
           set_selectedEmailIds].
      split; [|split; [done|]].
      * apply filter_selected. intros e He.
        apply elem_of_list_to_set, list_elem_of_fmap. by exists e.
      * rewrite length_app. simpl. lia.
  - intros mailboxId st1. subst st1. unfold after, selectMailbox.
    step answers. by repeat split.
Qed.
End Run.

(** *** The theorems on the scenarios *)

Lemma unreachable_rejects :
  rejecting Outage.unreachable Scenario.client (ErrorObj "Failed to fetch").
Proof.
  intros R n c Hc. unfold Outage.unreachable, System.client_answers.
  destruct c; try discriminate Hc; try reflexivity;
    destruct emailIds; try discriminate Hc; reflexivity.
Qed.

(** With the network down, reading, deleting and moving [M1] leave the
    store as it was, the error message apart. *)
Lemma mutations_while_unreachable :
  let failed (message : string) :=
    (set_error (Some message) Scenario.store,
     inr (ErrorObj "Failed to fetch") : unit + JsError) in
  (run Scenario.settings 0 Outage.unreachable (markAsRead Scenario.client "M1" true)
     Scenario.store []).1
  = failed "Failed to fetch"
  ∧ (run Scenario.settings 0 Outage.unreachable (deleteEmail Scenario.client "M1")
       Scenario.store []).1
    = failed "Failed to fetch"
  ∧ (run Scenario.settings 0 Outage.unreachable (moveToMailbox Scenario.client "M1" "TRASH")
       Scenario.store []).1
    = failed "Failed to fetch".
Proof.
  intros failed.
  destruct (rejected_mutation_changes_nothing_but_error Scenario.settings 0
              Outage.unreachable Scenario.client (ErrorObj "Failed to fetch") "M1"
              (Scenario.message "M1" false) Scenario.store [])
    as (Hread & Hdelete & Hmove & _).
  - exact unreachable_rejects.
  - reflexivity.
  - split; [|split].
    + apply (Hread true); [vm_compute; discriminate | apply not_elem_of_empty].
    + exact Hdelete.
    + exact (Hmove "TRASH").
Defined.

(** Reading the unread [M1] and marking it unread again. *)
Lemma M1_read_and_unread_again :
  let st1 := after Scenario.settings 0 Scenario.obliging
               (markAsRead Scenario.client "M1" true) Scenario.store in
  let st2 := after Scenario.settings 0 Scenario.obliging
               (markAsRead Scenario.client "M1" false) st1 in
  seen_flag "M1" st1 = Some true
  ∧ seen_flag "M1" st2 = Some false
  ∧ processingReadStatus st2 = ∅
  ∧ mailboxes st2 = [ Scenario.box "INBOX" "inbox" 5 2; Scenario.box "TRASH" "trash" 0 0 ].
Proof.
  intros st1 st2.
  destruct (markAsRead_there_and_back Scenario.settings 0 Scenario.obliging
              Scenario.client "M1" (Scenario.message "M1" false) Scenario.store)
    as (Hthere & Hback & Hidle & Hcounters).
  - exact obliging_accepts.
  - repeat constructor; simpl; lia.
  - reflexivity.
  - reflexivity.
  - split; [exact Hthere|]. split; [exact Hback|]. split; [exact Hidle|].
    etransitivity; [exact Hcounters|]. vm_compute. reflexivity.
Defined.

(** Deleting [M1] from the page of five. *)
Lemma M1_deleted :
  let r := run Scenario.settings 0 Scenario.obliging
             (deleteEmail Scenario.client "M1") Scenario.store [] in
  r.1.2 = inl tt
  ∧ r.2 = [issued Scenario.client (MoveToTrash "M1" "TRASH" None)]
  ∧ map Email.id (emails r.1.1) = ["M2"; "M3"; "M4"; "M5"]
  ∧ find_email "M1" (emails r.1.1) = None.
Proof.
  intros r.
  destruct (deleteEmail_removes_from_page Scenario.settings 0 Scenario.obliging
              Scenario.client "M1" (Scenario.message "M1" false) Scenario.store [])
    as (Hdone & Hcalls & Hpage & Hgone & _).
  - exact obliging_accepts.
  - reflexivity.
  - split; [exact Hdone|]. split; [exact Hcalls|]. split; [|exact Hgone].
    etransitivity; [exact (f_equal (map Email.id) Hpage)|]. vm_compute. reflexivity.
Defined.


(** [M1] and [M3] selected on the page of five, then deleted together. *)
Lemma M1_and_M3_deleted_together :
  let st := set_selectedEmailIds {[ "M1"; "M3" ]} Scenario.store in
  let r := run Scenario.settings 0 Scenario.obliging
             (batchDelete Scenario.client) st [] in
  map Email.id (emails r.1.1) = ["M2"; "M4"; "M5"]
  ∧ selectedEmailIds r.1.1 = ∅
  ∧ selectedEmail r.1.1 = None
  ∧ r.2 = [issued Scenario.client (BatchDeleteEmails (elements (selectedEmailIds st)))].
Proof.
  intros st r.
  destruct (batch_acts_on_the_selection Scenario.settings 0 Scenario.obliging
              Scenario.client st [])
    as ((Hpage & Hsel & Hopen & Hcalls) & _).
  - exact obliging_accepts.
  - intros Hempty. assert (Hin : "M1" ∈ selectedEmailIds st).
    { apply elem_of_union. left. by apply elem_of_singleton. }
    rewrite Hempty in Hin. by apply not_elem_of_empty in Hin.
  - split; [|by repeat split].
    etransitivity; [exact (f_equal (map Email.id) Hpage)|]. vm_compute. reflexivity.
Defined.
End StoreFacts.

(** ** The mail store in front of the real client *)

Module SystemFacts.
Import Store StoreSpec StoreActions StoreTerms System.

Section Foreground.
Variable settings : SettingsView.
Variable now : Z.

Abbreviation run := (Store.run settings now).

(** The real client's [getEmails] always resolves. *)
Lemma client_getEmails_resolves nets n client mailboxId accountId limit position :
  ∃ result,
    client_answers nets _ n client (GetEmails mailboxId accountId limit position)
    = inl result
    ∧ (ClientTerms.cut_off (nets n) client → result = Client.emptyResult).
Proof.
  unfold client_answers. cbn [implementation].
  rewrite ClientProofs.run_getEmails. eexists. split; [done|].
  intros Hcut.
  match goal with
  | |- context [ClientSpec.request_outcome ?net ?client ?calls ?n] =>
      destruct (Hcut calls n) as [err ->]
  end.
  done.
Qed.

(** X27.  In front of the real client, [fetchEmails], [fetchMailboxes] and
    [loadMoreEmails] (when it loads) end with the error cleared whatever the
    network does, since the reads of the client never reject.  When no
    request gets an answer, [fetchEmails] and [refreshCurrentMailbox]
    replace the page by the empty page, [loadMoreEmails] keeps the page and
    clears [hasMoreEmails], and [fetchMailboxes] leaves the mailboxes that
    [getAllMailboxes] falls back to. *)
Theorem reads_through_the_client_set_no_error (nets : nat → Client.Network)
    (client : Client.JMAPClient) (st : EmailStore) (calls : list Issued) :
  let answers := client_answers nets in
  (∀ mailboxId,
     error (run answers (fetchEmails client mailboxId) st calls).1.1 = None)
  ∧ error (run answers (fetchMailboxes client) st calls).1.1 = None
  ∧ error (run answers (loadMoreEmails client) st calls).1.1
    = (if isLoadingMore st || negb (hasMoreEmails st) then error st else None)
  ∧ (ClientTerms.cut_off (nets (length calls)) client →
     (∀ mailboxId,
        let s := (run answers (fetchEmails client mailboxId) st calls).1.1 in
        emails s = [] ∧ hasMoreEmails s = false ∧ totalEmails s = 0)
     ∧ (selectedMailbox st ≠ "" →
        let s := (run answers (refreshCurrentMailbox client) st calls).1.1 in
        emails s = [] ∧ hasMoreEmails s = false ∧ totalEmails s = 0
        ∧ newEmailNotification s = newEmailNotification st)
     ∧ (isLoadingMore st = false → hasMoreEmails st = true →
        let s := (run answers (loadMoreEmails client) st calls).1.1 in
        emails s = emails st ∧ hasMoreEmails s = false ∧ totalEmails s = 0)
     ∧ mailboxes (run answers (fetchMailboxes client) st calls).1.1
       = match Client.accounts client with
         | [] => [Client.fallbackInbox client]
         | _ => []
         end).
Proof.
  intros answers. subst answers.
  assert (Hpage : ∀ mailboxId position,
            ∃ result,
              client_answers nets _ (length calls) client
                (page_call settings st mailboxId position) = inl result
              ∧ (ClientTerms.cut_off (nets (length calls)) client →
                 result = Client.emptyResult)).
  { intros. apply client_getEmails_resolves. }
  split; [|split; [|split]].
  - intros mailboxId. rewrite StoreFacts.run_fetchEmails. cbn [fst].
    destruct (Hpage (or_else mailboxId (selectedMailbox st)) 0) as (result & -> & _).
    done.
  - destruct (SystemProofs.fetchMailboxes_error settings now (client_answers nets) client st calls)
      as [_ ->].
    by destruct (SystemProofs.client_getAllMailboxes_resolves nets (length calls)
                   client) as [mailboxes ->].
  - rewrite StoreFacts.run_loadMoreEmails.
    destruct (isLoadingMore st || negb (hasMoreEmails st)); [done|]. cbn [fst].
    destruct (Hpage (selectedMailbox st) (Z.of_nat (length (emails st))))
      as (result & -> & _).
    done.
  - intros Hcut. split; [|split; [|split]].
    + intros mailboxId. rewrite StoreFacts.run_fetchEmails. cbn [fst].
      destruct (Hpage (or_else mailboxId (selectedMailbox st)) 0)
        as (result & -> & Hr).
      by rewrite (Hr Hcut).
    + intros Hsel%String.eqb_neq.
      rewrite StoreFacts.run_refreshCurrentMailbox, Hsel. cbn [fst].
      destruct (Hpage (selectedMailbox st) 0) as (result & -> & Hr).
      by rewrite (Hr Hcut).
    + intros Hmore Hhas. rewrite StoreFacts.run_loadMoreEmails, Hmore, Hhas.
      cbn [orb negb fst].
      destruct (Hpage (selectedMailbox st) (Z.of_nat (length (emails st))))
        as (result & -> & Hr).
      rewrite (Hr Hcut). cbn. by rewrite app_nil_r.
    + rewrite StoreFacts.run_fetchMailboxes. cbn [fst].
      assert (Hall : client_answers nets _ (length calls) client GetAllMailboxes
                     = inl (match Client.accounts client with
                            | [] => [Client.fallbackInbox client]
                            | _ => []
                            end)).
      { apply ClientFacts.cut_off_getAllMailboxes, Hcut. }
      rewrite Hall. simpl.
      destruct (String.eqb (selectedMailbox st) ""); [|done].
      by destruct (find _ _).
Qed.
End Foreground.

(** With the network down the page of five is replaced by an empty page,
    and no error is shown. *)
Lemma page_lost_on_dead_network :
  let answers := client_answers (λ _, Scenario.dead_network) in
  let s := (run Scenario.settings 0 answers
              (fetchEmails Scenario.client None) Scenario.store []).1.1 in
  length (emails Scenario.store) = 5%nat
  ∧ emails s = [] ∧ hasMoreEmails s = false ∧ totalEmails s = 0
  ∧ error s = None.
Proof.
  intros answers s.
  destruct (reads_through_the_client_set_no_error Scenario.settings 0
              (λ _, Scenario.dead_network) Scenario.client Scenario.store [])
    as (Herror & _ & _ & Hcut).
  destruct Hcut as (Hpage & _).
  - intros methodCalls n. by eexists.
  - destruct (Hpage None) as (H1 & H2 & H3).
    split; [reflexivity|]. split; [exact H1|]. split; [exact H2|].
    split; [exact H3 | exact (Herror None)].
Defined.
End SystemFacts.

(** ** Polling *)

Module PollingFacts.
Import Polling PollingTerms.

Lemma check_kind_noted kind result scan :
  check_kind kind (Some result) scan = Some (noted kind (state result) scan).
Proof.
  unfold noted, check_kind. destruct result as [[s|]]; cbn [state]; [|done].
  by destruct (truthy (Some s)).
Qed.

Lemma noted_unreported kind rep scan : truthy rep = false → noted kind rep scan = scan.
Proof.
  unfold noted, check_kind. destruct rep as [s|]; simpl; [|done]. by intros ->.
Qed.

Lemma noted_states kind rep scan k :
  states (noted kind rep scan) !! k
  = if bool_decide (k = kind) && truthy rep then rep else states scan !! k.
Proof.
  unfold noted, check_kind. destruct rep as [s|]; cbn [state default].
  - destruct (truthy (Some s)) eqn:Hs; cbn [default].
    + destruct (decide (k = kind)) as [->|Hk].
      * rewrite (bool_decide_eq_true_2 (kind = kind)) by done.
        destruct (_ && _); simpl; apply lookup_insert_eq.
      * rewrite (bool_decide_eq_false_2 (k = kind)) by done.
        destruct (_ && _); simpl; by rewrite lookup_insert_ne.
    + by rewrite andb_false_r.
  - by rewrite andb_false_r.
Qed.

Lemma noted_changes kind rep scan :
  let changed := truthy (states scan !! kind) && truthy rep
                 && negb (bool_decide (states scan !! kind = rep)) in
  changes (noted kind rep scan)
  = (if changed then <[kind := default "" rep]> (changes scan) else changes scan)
  ∧ hasChanges (noted kind rep scan) = hasChanges scan || changed.
Proof.
  intros changed. subst changed.
  unfold noted, check_kind. destruct rep as [s|]; cbn [state default].
  - destruct (truthy (Some s)) eqn:Hs; cbn [default].
    + rewrite andb_true_r.
      destruct (truthy (states scan !! kind)); cbn [andb].
      * destruct (bool_decide _); simpl; by rewrite ?orb_false_r, ?orb_true_r.
      * by rewrite orb_false_r.
    + by rewrite andb_false_r, orb_false_r.
  - by rewrite andb_false_r, orb_false_r.
Qed.

Lemma scan_eq (a b : Scan) :
  states a = states b → changes a = changes b → hasChanges a = hasChanges b → a = b.
Proof. destruct a, b. simpl. by intros -> -> ->. Qed.

Lemma noted_commute a b scan :
  noted "Mailbox" a (noted "Email" b scan) = noted "Email" b (noted "Mailbox" a scan).
Proof.
  destruct (truthy a) eqn:Ha; [|by rewrite !(noted_unreported "Mailbox" a)].
  destruct (truthy b) eqn:Hb; [|by rewrite !(noted_unreported "Email" b)].
  destruct a as [m|]; [|done]. destruct b as [e|]; [|done].
  pose proof (noted_changes "Mailbox" (Some m) (noted "Email" (Some e) scan)) as [H1 H1'].
  pose proof (noted_changes "Email" (Some e) (noted "Mailbox" (Some m) scan)) as [H2 H2'].
  pose proof (noted_changes "Email" (Some e) scan) as [H3 H3'].
  pose proof (noted_changes "Mailbox" (Some m) scan) as [H4 H4'].
  cbv zeta in *.
  rewrite (noted_states "Email" (Some e) scan "Mailbox") in H1, H1'.
  rewrite (noted_states "Mailbox" (Some m) scan "Email") in H2, H2'.
  rewrite bool_decide_eq_false_2 in H1, H1', H2, H2' by done.
  cbn [andb] in *.
  apply scan_eq.
  - apply map_eq. intros k. rewrite !noted_states.
    repeat case_bool_decide; simpl; try done; try congruence.
    all: by rewrite ?Ha, ?Hb.
  - rewrite H1, H2, H3, H4.
    repeat destruct (_ && _); try done. simpl. by apply insert_insert_ne.
  - rewrite H1', H2', H3', H4'.
    repeat destruct (_ && _); by rewrite ?orb_false_r, ?orb_true_r.
Qed.

Lemma reported_cons kind method result rest :
  reported kind ((method, result) :: rest)
  = if String.eqb method (kind +:+ "/get") then result ≫= state
    else reported kind rest.
Proof.
  unfold reported. simpl. destruct (String.eqb method _); [by destruct result | done].
Qed.

Lemma reported_absent kind (entries : list (string * option StateResult)) :
  kind +:+ "/get" ∉ map fst entries → reported kind entries = None.
Proof.
  induction entries as [|[method result] rest IH]; [done|]. simpl. intros Hin.
  rewrite reported_cons.
  destruct (String.eqb_spec method (kind +:+ "/get")) as [->|_].
  - exfalso. apply Hin. by left.
  - apply IH. intros H. apply Hin. by right.
Qed.

Lemma check_loop_regular entries scan :
  regular entries →
  check_loop entries scan
  = (noted "Email" (reported "Email" entries)
       (noted "Mailbox" (reported "Mailbox" entries) scan), false).
Proof.
  intros [Hnd Hres]. revert scan.
  induction entries as [|[method result] rest IH]; intros scan.
  - by rewrite !noted_unreported.
  - inversion Hnd as [|? ? Hfresh Hrest]; subst.
    inversion Hres as [|? ? Hr Hresults]; subst. simpl in Hr. destruct Hr as [r ->].
    cbn [check_loop check_entry]. rewrite !reported_cons.
    change ("Mailbox" +:+ "/get") with "Mailbox/get".
    change ("Email" +:+ "/get") with "Email/get".
    destruct (String.eqb_spec method "Mailbox/get") as [->|Hm].
    + rewrite check_kind_noted. cbn [mbind option_bind String.eqb Ascii.eqb
                                     Bool.eqb andb].
      rewrite IH by done.
      rewrite (reported_absent "Mailbox" rest) by done.
      by rewrite (noted_unreported "Mailbox" None).
    + cbn [mbind option_bind].
      destruct (String.eqb_spec method "Email/get") as [->|He].
      * rewrite check_kind_noted, IH by done.
        rewrite (reported_absent "Email" rest) by done.
        rewrite (noted_unreported "Email" None) by done.
        by rewrite noted_commute.
      * by apply IH.
Qed.

(** The two loops record the same states, whatever the entries. *)
Lemma record_loop_states entries scan :
  record_loop entries (states scan) = states (check_loop entries scan).1.
Proof.
  revert scan. induction entries as [|[method result] rest IH]; intros scan; [done|].
  cbn [record_loop check_loop record_entry check_entry].
  assert (Hkind : ∀ kind sc,
            record_kind kind result (states sc) = states <$> check_kind kind result sc).
  { intros kind sc. unfold record_kind, check_kind.
    destruct result as [[[s|]]|]; cbn [state]; try done.
    destruct (truthy (Some s)); [|done]. cbn [fmap option_fmap option_map states].
    by destruct (_ && _). }
  destruct (String.eqb method "Mailbox/get").
  - rewrite Hkind. destruct (check_kind "Mailbox" result scan) as [scan1|]; simpl; [|done].
    destruct (String.eqb method "Email/get"); [|apply IH].
    rewrite Hkind. destruct (check_kind "Email" result scan1) as [scan2|]; simpl; [|done].
    apply IH.
  - simpl. destruct (String.eqb method "Email/get"); [|apply IH].
    rewrite Hkind. destruct (check_kind "Email" result scan) as [scan2|]; simpl; [|done].
    apply IH.
Qed.

Lemma poller_eq (a b : Poller) :
  pollingStates a = pollingStates b →
  stateChangeCallback a = stateChangeCallback b → a = b.
Proof. destruct a, b. simpl. by intros -> ->. Qed.

Lemma regular_poll client poller entries :
  regular entries →
  let scan := noted "Email" (reported "Email" entries)
                (noted "Mailbox" (reported "Mailbox" entries)
                   {| states := pollingStates poller; changes := ∅;
                      hasChanges := false |}) in
  checkForStateChanges client poller (answer entries)
  = ({| pollingStates := states scan;
        stateChangeCallback := stateChangeCallback poller |},
     if hasChanges scan && stateChangeCallback poller
     then Some (stateChange client (changes scan)) else None).
Proof.
  intros Hreg scan. unfold checkForStateChanges, answer. cbn [poll_ok poll_json].
  by rewrite check_loop_regular.
Qed.

Lemma regular_states poller entries kind :
  states (noted "Email" (reported "Email" entries)
            (noted "Mailbox" (reported "Mailbox" entries)
               {| states := pollingStates poller; changes := ∅;
                  hasChanges := false |})) !! kind
  = if bool_decide (kind ∈ ["Mailbox"; "Email"]) && truthy (reported kind entries)
    then reported kind entries else pollingStates poller !! kind.
Proof.
  rewrite !noted_states. cbn [states].
  destruct (decide (kind = "Email")) as [->|He].
  { rewrite (bool_decide_eq_true_2 ("Email" = "Email")) by done.
    rewrite (bool_decide_eq_true_2 (_ ∈ _)) by (right; by left).
    simpl. by destruct (truthy (reported "Email" entries)). }
  rewrite (bool_decide_eq_false_2 (kind = "Email")) by done. cbn [andb].
  destruct (decide (kind = "Mailbox")) as [->|Hm].
  { rewrite (bool_decide_eq_true_2 ("Mailbox" = "Mailbox")) by done.
    by rewrite (bool_decide_eq_true_2 (_ ∈ _)) by by left. }
  rewrite (bool_decide_eq_false_2 (kind = "Mailbox")) by done.
  rewrite (bool_decide_eq_false_2 (_ ∈ _)); [done|].
  intros [->|[->|[]%elem_of_nil]%elem_of_cons]%elem_of_cons; done.
Qed.

Lemma regular_changes (known : gmap string string) entries :
  let scan := noted "Email" (reported "Email" entries)
                (noted "Mailbox" (reported "Mailbox" entries)
                   {| states := known; changes := ∅; hasChanges := false |}) in
  hasChanges scan = differs "Mailbox" known entries || differs "Email" known entries
  ∧ changes scan !! "Email"
    = (if differs "Email" known entries then reported "Email" entries else None)
  ∧ changes scan !! "Mailbox"
    = (if differs "Mailbox" known entries then reported "Mailbox" entries else None)
  ∧ changes scan !! "Thread" = None.
Proof.
  intros scan. subst scan. unfold differs.
  set (scan0 := {| states := known; changes := ∅; hasChanges := false |}).
  pose proof (noted_changes "Mailbox" (reported "Mailbox" entries) scan0) as [H1 H1'].
  pose proof (noted_changes "Email" (reported "Email" entries)
                (noted "Mailbox" (reported "Mailbox" entries) scan0)) as [H2 H2'].
  cbv zeta in *.
  rewrite (noted_states "Mailbox" _ scan0 "Email") in H2, H2'.
  rewrite (bool_decide_eq_false_2 ("Email" = "Mailbox")) in H2, H2' by done.
  cbn [andb states changes hasChanges scan0] in *.
  rewrite H2', H1', H2, H1. cbn [orb].
  split; [done|].
  destruct (truthy (known !! "Email") && truthy (reported "Email" entries)
            && negb (bool_decide (known !! "Email" = reported "Email" entries)))
    eqn:He;
    destruct (truthy (known !! "Mailbox") && truthy (reported "Mailbox" entries)
              && negb (bool_decide (known !! "Mailbox" = reported "Mailbox" entries)))
      eqn:Hm.
  - apply andb_true_iff in He as [[_ He]%andb_true_iff _].
    apply andb_true_iff in Hm as [[_ Hm]%andb_true_iff _].
    destruct (reported "Email" entries) as [e|]; [|done].
    destruct (reported "Mailbox" entries) as [m|]; [|done].
    simpl. by rewrite lookup_insert_eq, lookup_insert_ne, lookup_insert_eq,
      !lookup_insert_ne, lookup_empty.
  - apply andb_true_iff in He as [[_ He]%andb_true_iff _].
    destruct (reported "Email" entries) as [e|]; [|done].
    simpl. by rewrite lookup_insert_eq, !lookup_insert_ne, lookup_empty.
  - apply andb_true_iff in Hm as [[_ Hm]%andb_true_iff _].
    destruct (reported "Mailbox" entries) as [m|]; [|done].
    simpl. by rewrite lookup_insert_eq, !lookup_insert_ne, lookup_empty.
  - by rewrite !lookup_empty.
Qed.

Lemma differs_reported kind known entries :
  differs kind known entries = true → truthy (reported kind entries) = true.
Proof. unfold differs. by intros [[_ ?]%andb_true_iff _]%andb_true_iff. Qed.

Lemma differs_recorded kind (known : gmap string string) entries :
  (truthy (reported kind entries) = true → known !! kind = reported kind entries) →
  differs kind known entries = false.
Proof.
  unfold differs. intros H. destruct (truthy (reported kind entries)).
  - rewrite H by done. rewrite bool_decide_eq_true_2 by done.
    by rewrite andb_false_r.
  - by rewrite andb_false_r.
Qed.

(** X28.  A poll that is answered with one result per method records the
    states reported; it calls the callback exactly when one is registered
    and a known [Mailbox] or [Email] state differs from the one reported,
    with a descriptor for the account of the client that holds the states
    that changed and no other.  The next poll with the same answer is
    silent; [fetchCurrentStates] records the same states; a client that
    knows no state yet notifies nobody. *)
Theorem poll_notifies_what_changed (client : Client.JMAPClient) (poller : Poller)
    (entries : list (string * option StateResult)) :
  regular entries →
  let r := checkForStateChanges client poller (answer entries) in
  let changed kind := differs kind (pollingStates poller) entries in
  (∀ kind,
     pollingStates r.1 !! kind
     = if bool_decide (kind ∈ ["Mailbox"; "Email"]) && truthy (reported kind entries)
       then reported kind entries else pollingStates poller !! kind)
  ∧ r.2 = (if stateChangeCallback poller && (changed "Mailbox" || changed "Email")
           then Some {| Store.changed :=
                          {[ Client.accountId client :=
                               {| Store.change_Email :=
                                    if changed "Email"
                                    then reported "Email" entries else None;
                                  Store.change_Mailbox :=
                                    if changed "Mailbox"
                                    then reported "Mailbox" entries else None;
                                  Store.change_Thread := None |} ]} |}
           else None)
  ∧ checkForStateChanges client r.1 (answer entries) = (r.1, None)
  ∧ fetchCurrentStates poller (answer entries) = r.1
  ∧ (pollingStates poller = ∅ → r.2 = None).
Proof.
  intros Hreg r changed.
  pose proof (regular_poll client poller entries Hreg) as Hr. cbv zeta in Hr.
  pose proof (regular_changes (pollingStates poller) entries) as Hc. cbv zeta in Hc.
  destruct Hc as (Hhas & Hemail & Hmailbox & Hthread).
  assert (Hstates : ∀ kind,
            pollingStates r.1 !! kind
            = if bool_decide (kind ∈ ["Mailbox"; "Email"])
                 && truthy (reported kind entries)
              then reported kind entries else pollingStates poller !! kind).
  { intros kind. subst r. rewrite Hr. cbn [fst pollingStates].
    apply regular_states. }
  assert (Hsettled : ∀ kind, kind ∈ ["Mailbox"; "Email"] →
            differs kind (pollingStates r.1) entries = false).
  { intros kind Hkind. apply differs_recorded. intros Hrep.
    by rewrite Hstates, Hrep, bool_decide_eq_true_2. }
  split; [exact Hstates|]. split; [|split; [|split]].
  - subst r. rewrite Hr. cbn [snd]. rewrite Hhas, andb_comm.
    fold (changed "Mailbox") (changed "Email").
    destruct (stateChangeCallback poller && _); [|done].
    unfold stateChange. by rewrite Hemail, Hmailbox, Hthread.
  - pose proof (regular_poll client r.1 entries Hreg) as Hr2. cbv zeta in Hr2.
    pose proof (regular_changes (pollingStates r.1) entries) as Hc2. cbv zeta in Hc2.
    destruct Hc2 as (Hhas2 & _).
    rewrite Hr2, Hhas2, !Hsettled by (repeat constructor). cbn [orb andb].
    f_equal. apply poller_eq; [|done]. cbn [pollingStates].
    apply map_eq. intros kind. rewrite regular_states, Hstates.
    by destruct (bool_decide _ && truthy _).
  - unfold fetchCurrentStates, answer. cbn [poll_ok poll_json].
    apply poller_eq; cbn [pollingStates stateChangeCallback].
    + change (pollingStates poller)
        with (states {| states := pollingStates poller; changes := ∅;
                        hasChanges := false |}) at 1.
      rewrite record_loop_states, check_loop_regular by done.
      subst r. by rewrite Hr.
    + subst r. by rewrite Hr.
  - intros Hnone. subst r. rewrite Hr. cbn [snd]. rewrite Hhas.
    unfold differs. rewrite Hnone, !lookup_empty. by cbn.
Qed.

(** *** Whatever the reply *)

Lemma check_kind_keeps kind result scan scan' :
  check_kind kind result scan = Some scan' →
  (∀ k, is_Some (states scan !! k) → is_Some (states scan' !! k))
  ∧ (∀ k, k ≠ kind → states scan' !! k = states scan !! k).
Proof.
  destruct result as [result|]; [|done]. rewrite check_kind_noted. intros [= <-].
  split; intros k Hk; rewrite noted_states.
  - destruct (bool_decide _ && truthy (state result)) eqn:Hrep; [|done].
    apply andb_true_iff in Hrep as [_ Hrep]. by destruct (state result).
  - by rewrite (bool_decide_eq_false_2 (k = kind)).
Qed.

Lemma check_entry_keeps entry scan scan' :
  check_entry entry scan = Some scan' →
  (∀ k, is_Some (states scan !! k) → is_Some (states scan' !! k))
  ∧ (∀ k, k ∉ ["Mailbox"; "Email"] → states scan' !! k = states scan !! k).
Proof.
  destruct entry as [method result]. cbn [check_entry].
  assert (Hkind : ∀ kind sc sc', kind ∈ ["Mailbox"; "Email"] →
            (if String.eqb method (kind +:+ "/get")
             then check_kind kind result sc else Some sc) = Some sc' →
            (∀ k, is_Some (states sc !! k) → is_Some (states sc' !! k))
            ∧ (∀ k, k ∉ ["Mailbox"; "Email"] → states sc' !! k = states sc !! k)).
  { intros kind sc sc' Hin. destruct (String.eqb method _).
    - intros [H1 H2]%check_kind_keeps. split; [done|].
      intros k Hk. apply H2. by intros ->.
    - by intros [= <-]. }
  destruct (if String.eqb method "Mailbox/get" then _ else _) as [scan1|] eqn:H1;
    [|done].
  cbn [mbind option_bind]. intros H2.
  apply (Hkind "Mailbox") in H1 as [H1 H1']; [|by left].
  apply (Hkind "Email") in H2 as [H2 H2']; [|right; by left].
  split.
  - intros k Hk. by apply H2, H1.
  - intros k Hk. by rewrite H2', H1'.
Qed.

Lemma check_loop_keeps entries scan :
  (∀ k, is_Some (states scan !! k) → is_Some (states (check_loop entries scan).1 !! k))
  ∧ (∀ k, k ∉ ["Mailbox"; "Email"] →
          states (check_loop entries scan).1 !! k = states scan !! k).
Proof.
  revert scan. induction entries as [|entry rest IH]; intros scan; [done|].
  cbn [check_loop].
  destruct (check_entry entry scan) as [scan1|] eqn:Hentry; [|done].
  apply check_entry_keeps in Hentry as [H1 H1'].
  destruct (IH scan1) as [H2 H2']. split.
  - intros k Hk. by apply H2, H1.
  - intros k Hk. by rewrite H2', H1'.
Qed.

Lemma unanswered_poll client poller reply :
  unanswered reply →
  checkForStateChanges client poller reply = (poller, None)
  ∧ fetchCurrentStates poller reply = poller.
Proof.
  destruct reply as [[[] [[entries|]|]]|err]; simpl; try done.
  intros [?|[?|?]]; done.
Qed.

Lemma answered_or_not (reply : PollResponse + JsError) :
  unanswered reply ∨ ∃ entries, reply = answer entries.
Proof.
  destruct reply as [[[] [[entries|]|]]|err]; simpl; eauto.
Qed.

(** X29.  Whatever the reply, a poll records what [fetchCurrentStates]
    records of it, forgets no state, touches the [Mailbox] and [Email]
    states only, and names the account of the client alone when it notifies;
    it changes nothing and stays silent when the reply cannot be read, and
    is silent without a callback, as after [closePushNotifications]. *)
Theorem poll_keeps_what_it_knows (client : Client.JMAPClient) (poller : Poller)
    (reply : PollResponse + JsError) :
  let r := checkForStateChanges client poller reply in
  fetchCurrentStates poller reply = r.1
  ∧ stateChangeCallback r.1 = stateChangeCallback poller
  ∧ (∀ kind, is_Some (pollingStates poller !! kind) →
             is_Some (pollingStates r.1 !! kind))
  ∧ (∀ kind, kind ∉ ["Mailbox"; "Email"] →
             pollingStates r.1 !! kind = pollingStates poller !! kind)
  ∧ (unanswered reply → r = (poller, None))
  ∧ (stateChangeCallback poller = false → r.2 = None)
  ∧ (∀ change, r.2 = Some change →
               dom (Store.changed change) = {[ Client.accountId client ]})
  ∧ (checkForStateChanges client (closePushNotifications poller) reply).2 = None.
Proof.
  intros r. subst r. destruct (answered_or_not reply) as [Hun|[entries ->]].
  { destruct (unanswered_poll client poller reply Hun) as [-> ->].
    destruct (unanswered_poll client (closePushNotifications poller) reply Hun)
      as [-> _].
    by repeat split. }
  unfold checkForStateChanges, fetchCurrentStates, answer. cbn [poll_ok poll_json].
  set (scan0 := {| states := pollingStates poller; changes := ∅;
                   hasChanges := false |}).
  pose proof (check_loop_keeps entries scan0) as [Hkeep Hother].
  pose proof (record_loop_states entries scan0) as Hrecord.
  destruct (check_loop entries scan0) as [scan thrown] eqn:Hloop.
  cbn [fst snd pollingStates stateChangeCallback states] in *.
  split; [by rewrite <- Hrecord|]. split; [done|]. split; [done|]. split; [done|].
  split; [intros [?|[?|?]]; done|]. split; [|split].
  - intros ->. by rewrite andb_false_r.
  - intros change. destruct (_ && _); [|done]. intros [= <-].
    unfold stateChange. cbn [Store.changed]. apply dom_singleton_L.
  - cbn [closePushNotifications stateChangeCallback].
    match goal with
    | |- context [check_loop entries ?s] =>
        destruct (check_loop entries s) as [scan' thrown']
    end.
    cbn [snd]. by rewrite andb_false_r.
Qed.

(** *** From the poll to the store *)

(** X30.  From the poll to the store: once [onStateChange] has registered
    [handleStateChange], a poll that finds a change makes the store of the
    client ask for the first page of the selected mailbox exactly when the
    [Email] state changed, and for the mailboxes exactly when the [Mailbox]
    state changed; the store of a client of another account issues no call. *)
Theorem poll_drives_the_store (settings : Store.SettingsView) (now : Z)
    (answers : Store.Answers) (client : Client.JMAPClient) (poller : Poller)
    (entries : list (string * option StateResult)) (st : Store.EmailStore)
    (calls : list Store.Issued) :
  regular entries →
  let changed kind := differs kind (pollingStates poller) entries in
  match (checkForStateChanges client (onStateChange poller) (answer entries)).2 with
  | Some change =>
      changed "Mailbox" || changed "Email" = true
      ∧ (Store.run settings now answers (Store.handleStateChange change client)
           st calls).2
        = calls
          ++ (if changed "Email" && negb (String.eqb (Store.selectedMailbox st) "")
              then [Store.issued client
                      (StoreTerms.page_call settings st (Store.selectedMailbox st) 0)]
              else [])
          ++ (if changed "Mailbox"
              then [Store.issued client Store.GetAllMailboxes] else [])
      ∧ ∀ other,
          Client.accountId other ≠ Client.accountId client →
          (Store.run settings now answers (Store.handleStateChange change other)
             st calls).2 = calls
  | None => changed "Mailbox" || changed "Email" = false
  end.
Proof.
  intros Hreg changed.
  rewrite (regular_poll client (onStateChange poller) entries Hreg).
  cbn [snd onStateChange pollingStates stateChangeCallback].
  pose proof (regular_changes (pollingStates poller) entries) as Hc. cbv zeta in Hc.
  destruct Hc as (Hhas & Hemail & Hmailbox & _).
  rewrite Hhas, andb_true_r. fold (changed "Mailbox") (changed "Email").
  destruct (changed "Mailbox" || changed "Email") eqn:Hany; [|done].
  split; [done|]. split.
  - match goal with
    | |- context [stateChange client ?c] => set (found := c) in *
    end.
    pose proof (StoreFacts.handleStateChange_with_tokens settings now answers
                  (stateChange client found) client _ st calls
                  (lookup_singleton_eq _ _)) as Hrun.
    cbv zeta in Hrun. destruct Hrun as (_ & _ & ->).
    cbn [Store.change_Email Store.change_Mailbox]. rewrite Hemail, Hmailbox.
    fold (changed "Mailbox") (changed "Email").
    assert (Htruthy : ∀ kind,
              truthy (if changed kind then reported kind entries else None)
              = changed kind).
    { intros kind. destruct (changed kind) eqn:Hkind; [|done].
      by apply differs_reported in Hkind. }
    by rewrite !Htruthy.
  - intros other Hother. unfold Store.handleStateChange.
    rewrite (StoreProofs.run_caught settings now), StoreFacts.run_now.
    rewrite (StoreProofs.run_then settings now answers (Store.set _)),
      (StoreProofs.run_set settings now).
    unfold stateChange. cbn [Store.changed].
    by rewrite lookup_singleton_ne.
Qed.

(** *** The theorems on the scenario *)

Import Watch.

Lemma new_mail_regular : regular new_mail.
Proof.
  split.
  - apply (bool_decide_unpack _). vm_compute. exact I.
  - repeat constructor; by eexists.
Qed.

(** The poll that meets the new email tells the callback of the [Email]
    state alone; the next poll with the same answer is silent. *)
Lemma new_mail_is_notified_once :
  let r := checkForStateChanges Scenario.client watching (answer new_mail) in
  r.2 = Some {| Store.changed :=
                  {[ "acct-1" := {| Store.change_Email := Some "e-2";
                                    Store.change_Mailbox := None;
                                    Store.change_Thread := None |} ]} |}
  ∧ pollingStates r.1 !! "Email" = Some "e-2"
  ∧ checkForStateChanges Scenario.client r.1 (answer new_mail) = (r.1, None).
Proof.
  intros r.
  destruct (poll_notifies_what_changed Scenario.client watching new_mail
              new_mail_regular) as (Hstates & Hchange & Hagain & _).
  split; [exact Hchange|]. split; [exact (Hstates "Email") | exact Hagain].
Defined.

(** The store that shows [INBOX] asks for its first page when the poll
    meets the new email, and not for the mailboxes. *)
Lemma new_mail_refreshes_the_inbox :
  ∃ change,
    (checkForStateChanges Scenario.client (onStateChange watching)
       (answer new_mail)).2 = Some change
    ∧ (Store.run Scenario.settings 0 Scenario.obliging
         (Store.handleStateChange change Scenario.client) Scenario.store []).2
      = [ Store.issued Scenario.client (Store.GetEmails (Some "INBOX") None 50 0) ].
Proof.
  pose proof (poll_drives_the_store Scenario.settings 0 Scenario.obliging
                Scenario.client watching new_mail Scenario.store []
                new_mail_regular) as Hpoll.
  cbv zeta in Hpoll.
  destruct (checkForStateChanges Scenario.client (onStateChange watching)
              (answer new_mail)).2
    as [change|] eqn:Hchange.
  - exists change. split; [done|]. destruct Hpoll as (_ & Hcalls & _).
    exact Hcalls.
  - vm_compute in Hpoll. discriminate Hpoll.
Defined.
End PollingFacts.
